(** * SimpleVector: a shallow embedding of simple_vector.h

    The container is embedded over a flat element memory.  A raw pointer
    [Type*] is a 64-bit address counted in elements, [ArrayPtr] owns a block
    of consecutive cells, and every method is a state transformer that
    returns, throws, or runs into undefined behaviour.  A thrown exception
    keeps the state reached so far, so the partial effects of a failed
    relocation can be observed.

    The definitions come first: element types, memory, the owning buffer,
    the standard algorithms, the methods of [SimpleVector], observations,
    access, construction, transfer between objects, comparison.  The
    properties follow, then the claims C1 to C10, and further properties
    X1 to X29 of the rest of the interface close the file. *)

From stdpp Require Import gmap list.
From Stdlib Require Import ZArith Lia Bool.

Open Scope Z_scope.

(** ** Machine integers *)

(** [size_t] is a 64-bit unsigned integer; arithmetic on it wraps. *)
Definition SIZE_MODULUS : Z := 2 ^ 64.
Definition size_wrap (z : Z) : Z := z mod SIZE_MODULUS.

(** The largest array that [new Type[n]] can ever deliver. *)
Definition PTRDIFF_MAX : Z := 2 ^ 63 - 1.

(** A pointer [Type*] is a 64-bit address, counted here in elements.
    Pointer arithmetic that stays inside a buffer (or one past its end) is
    exact; the language leaves anything else undefined, and on the flat
    address space the code runs on it wraps around. *)
Definition POINTER_MODULUS : Z := 2 ^ 64.
Definition ptr_add (p n : Z) : Z := (p + n) mod POINTER_MODULUS.

(** ** Element types *)

(** How an element operation ends. *)
Inductive completion := Normal | Raised.

(** What the container asks of [Type]: the two traits queried with
    [if constexpr], value initialisation [Type()], and the two assignment
    operators.  [copy_assign d s] is [d = s] and yields the new [d];
    [move_assign d s] is [d = std::move(s)] and yields the new [d] and the
    moved-from [s].  Either may throw, possibly after changing its operands.
    For a type without copy assignment the copy branches are discarded at
    compile time and [copy_assign] is never reached. *)
Class Element (T : Type) := {
  is_copy_assignable : bool;
  is_nothrow_move_assignable : bool;
  value_init : T;
  copy_assign : T → T → completion * T;
  move_assign : T → T → completion * (T * T);
}.

(** An assignment that completes gives the destination the source's value. *)
Class ValueSemantics (T : Type) `{Element T} : Prop := {
  copy_assign_value : ∀ d s d', copy_assign d s = (Normal, d') → d' = s;
  move_assign_value : ∀ d s d' s',
    move_assign d s = (Normal, (d', s')) → d' = s;
}.

(** No assignment of the type ever throws. *)
Class NeverThrows (T : Type) `{Element T} : Prop := {
  copy_assign_normal : ∀ d s, (copy_assign d s).1 = Normal;
  move_assign_normal : ∀ d s, (move_assign d s).1 = Normal;
}.

(** The argument of [PushBack] and [Insert]: [const Type&] or [Type&&]. *)
Inductive arg (T : Type) :=
  | ByCopy (x : T)
  | ByMove (x : T).
Arguments ByCopy {T} x.
Arguments ByMove {T} x.

Definition arg_value {T} (a : arg T) : T :=
  match a with ByCopy x => x | ByMove x => x end.

(** ** Results *)

Inductive exn := out_of_range | bad_alloc | element_error.

Inductive res (A : Type) :=
  | Ret (a : A)
  | Throw (e : exn)
  | Undefined.
Arguments Ret {A} a.
Arguments Throw {A} e.
Arguments Undefined {A}.

(** ** Memory *)

(** [cells] maps an element address to the element stored there; [blocks]
    records, for the first address of every live array, its length. *)
Record heap (T : Type) := Heap {
  cells : gmap Z T;
  blocks : gmap Z Z;
}.
Arguments Heap {T} cells blocks.
Arguments cells {T} h.
Arguments blocks {T} h.

(** [ArrayPtr<Type>] holds one raw pointer. *)
Abbreviation ArrayPtr := Z (only parsing).
Definition nullptr : Z := 0.

Record SimpleVector := Vec {
  ptr_ : ArrayPtr;
  size_ : Z;
  capacity_ : Z;
}.

Infix "+ₚ" := ptr_add (at level 50, left associativity).

(** A method runs on the memory and on the object it is called on. *)
Record state (T : Type) := State {
  mem : heap T;
  this : SimpleVector;
}.
Arguments State {T} mem this.
Arguments mem {T} s.
Arguments this {T} s.

Definition M (T A : Type) : Type := state T → res A * state T.

Definition ret {T A} (a : A) : M T A := λ s, (Ret a, s).
Definition raise {T A} (e : exn) : M T A := λ s, (Throw e, s).
Definition undefined {T A} : M T A := λ s, (Undefined, s).
Definition bind {T A B} (m : M T A) (k : A → M T B) : M T B :=
  λ s, match m s with
       | (Ret a, s') => k a s'
       | (Throw e, s') => (Throw e, s')
       | (Undefined, s') => (Undefined, s')
       end.

Declare Scope vec_scope.
Delimit Scope vec_scope with vec.
Notation "x ← y ; z" := (bind y (λ x, z)) : vec_scope.
Notation "x ;; z" := (bind x (λ _, z)) : vec_scope.
Open Scope vec_scope.

Section Memory.
Context {T : Type} `{Element T}.

Definition get_this : M T SimpleVector := λ s, (Ret (this s), s).
Definition set_ptr (p : Z) : M T unit :=
  λ s, (Ret (), State (mem s) (Vec p (size_ (this s)) (capacity_ (this s)))).
Definition set_size (n : Z) : M T unit :=
  λ s, (Ret (), State (mem s) (Vec (ptr_ (this s)) n (capacity_ (this s)))).
Definition set_capacity (n : Z) : M T unit :=
  λ s, (Ret (), State (mem s) (Vec (ptr_ (this s)) (size_ (this s)) n)).

(** Reading or writing an address that holds no element is undefined. *)
Definition load (a : Z) : M T T :=
  λ s, match cells (mem s) !! a with
       | Some x => (Ret x, s)
       | None => (Undefined, s)
       end.

Definition store (a : Z) (x : T) : M T unit :=
  λ s, match cells (mem s) !! a with
       | Some _ =>
           (Ret (), State (Heap (<[a := x]> (cells (mem s))) (blocks (mem s)))
                          (this s))
       | None => (Undefined, s)
       end.

Definition check (c : completion) : M T unit :=
  match c with Normal => ret () | Raised => raise element_error end.

(** [*dst = *src] *)
Definition copy_cell (dst src : Z) : M T unit :=
  d ← load dst; s ← load src;
  let '(c, d') := copy_assign d s in
  store dst d';; check c.

(** [*dst = std::move( *src)] *)
Definition move_cell (dst src : Z) : M T unit :=
  d ← load dst; s ← load src;
  let '(c, (d', s')) := move_assign d s in
  store src s';; store dst d';; check c.

(** [*dst = std::forward<U>(item)] *)
Definition assign_cell (dst : Z) (item : arg T) : M T unit :=
  d ← load dst;
  match item with
  | ByCopy x => let '(c, d') := copy_assign d x in store dst d';; check c
  | ByMove x => let '(c, (d', _)) := move_assign d x in store dst d';; check c
  end.

(** What [*dst = item] computes from the old content [d] of the slot. *)
Definition assigned (d : T) (item : arg T) : completion * T :=
  match item with
  | ByCopy x => copy_assign d x
  | ByMove x => ((move_assign d x).1, (move_assign d x).2.1)
  end.

(** The result of a statement that consists of one element operation. *)
Definition finish (c : completion) : res unit :=
  match c with Normal => Ret () | Raised => Throw element_error end.

End Memory.

(** ** The owning buffer *)

Section ArrayPtr.
Context {T : Type} `{Element T}.

(** An address above every element that is currently stored. *)
Definition fresh_addr (m : gmap Z T) : Z :=
  1 + map_fold (λ a _ top, Z.max a top) 0 m.

Fixpoint fill_cells (p : Z) (n : nat) (x : T) (m : gmap Z T) : gmap Z T :=
  match n with
  | O => m
  | S n' => <[p := x]> (fill_cells (p + 1) n' x m)
  end.

Fixpoint drop_cells (p : Z) (n : nat) (m : gmap Z T) : gmap Z T :=
  match n with
  | O => m
  | S n' => delete p (drop_cells (p + 1) n' m)
  end.

(** Modelled from the spec: array_ptr.h is not part of the sources, and the
    spec does not say when an allocation is refused.  An array of [n]
    elements can be had when [n] is a length an array can have and the
    address space has room for it. *)
Definition can_allocate (n : Z) (h : heap T) : bool :=
  (n <=? PTRDIFF_MAX) && (fresh_addr (cells h) + n <? POINTER_MODULUS).

(** Modelled from the spec: array_ptr.h is not part of the sources.  The
    spec asks of the owning buffer: allocate(n), a buffer of n raw slots;
    indexed access; transfer of ownership; in-place exchange; release of the
    memory exactly once.  [new_array n] is the constructor [ArrayPtr(n)]:
    the null pointer for no slots, [std::bad_alloc] when the array cannot be
    had, and otherwise [n] value-initialised slots at a fresh address. *)
Definition new_array (n : Z) (h : heap T) : res ArrayPtr * heap T :=
  if n =? 0 then (Ret nullptr, h)
  else if negb (can_allocate n h) then (Throw bad_alloc, h)
  else
    let p := fresh_addr (cells h) in
    (Ret p, Heap (fill_cells p (Z.to_nat n) value_init (cells h))
                 (<[p := n]> (blocks h))).

(** Modelled from the spec: the destructor of [ArrayPtr] (array_ptr.h is not
    part of the sources) releases the block it owns; deleting the null
    pointer does nothing, deleting anything else that is not a live array is
    undefined. *)
Definition delete_array (p : ArrayPtr) (h : heap T) : option (heap T) :=
  if p =? nullptr then Some h
  else match blocks h !! p with
       | Some n => Some (Heap (drop_cells p (Z.to_nat n) (cells h))
                              (delete p (blocks h)))
       | None => None
       end.

Definition ArrayPtr_new (n : Z) : M T ArrayPtr :=
  λ s, let '(r, h) := new_array n (mem s) in (r, State h (this s)).

Definition ArrayPtr_delete (p : ArrayPtr) : M T unit :=
  λ s, match delete_array p (mem s) with
       | Some h => (Ret (), State h (this s))
       | None => (Undefined, s)
       end.

(** The scope of a local [ArrayPtr<Type> array(n)]: [body] gets the pointer
    and returns, with its result, the pointer [array] holds when the scope
    is left; the destructor releases that one.  When [body] throws, [array]
    still holds what it was constructed with (the only statement that
    changes it, [swap], comes after everything that can throw). *)
Definition with_array {A} (n : Z) (body : ArrayPtr → M T (A * ArrayPtr)) : M T A :=
  array ← ArrayPtr_new n;
  λ s, match body array s with
       | (Ret (a, array'), s') => (ArrayPtr_delete array';; ret a) s'
       | (Throw e, s') => (ArrayPtr_delete array;; raise e) s'
       | (Undefined, s') => (Undefined, s')
       end.

(** Modelled from the spec: [ArrayPtr::swap] (array_ptr.h is not part of the
    sources) exchanges the two raw pointers in place.  This is
    [ptr_.swap(array)]; the result is what [array] holds afterwards. *)
Definition ptr_swap (array : ArrayPtr) : M T ArrayPtr :=
  v ← get_this; set_ptr array;; ret (ptr_ v).

End ArrayPtr.

(** ** Algorithms of the standard library *)

Section Algorithms.
Context {T : Type} `{Element T}.

Fixpoint forward_n (op : Z → Z → M T unit) (n : nat) (first out : Z) : M T Z :=
  match n with
  | O => ret out
  | S n' => op out first;; forward_n op n' (first +ₚ 1) (out +ₚ 1)
  end.

Fixpoint backward_n (op : Z → Z → M T unit) (n : nat) (last d_last : Z) : M T Z :=
  match n with
  | O => ret d_last
  | S n' =>
      op (d_last +ₚ -1) (last +ₚ -1);;
      backward_n op n' (last +ₚ -1) (d_last +ₚ -1)
  end.

(** [first, last) must be a range. *)
Definition ranged (first last : Z) (loop : nat → M T Z) : M T Z :=
  if last <? first then undefined else loop (Z.to_nat (last - first)).

Definition std_copy (first last out : Z) : M T Z :=
  ranged first last (λ n, forward_n copy_cell n first out).
Definition std_move (first last out : Z) : M T Z :=
  ranged first last (λ n, forward_n move_cell n first out).
Definition std_copy_backward (first last d_last : Z) : M T Z :=
  ranged first last (λ n, backward_n copy_cell n last d_last).
Definition std_move_backward (first last d_last : Z) : M T Z :=
  ranged first last (λ n, backward_n move_cell n last d_last).

(** [std::generate(first, last, []{ return Type(); })] *)
Definition std_generate (first last : Z) : M T unit :=
  ranged first last
    (λ n, forward_n (λ dst _, assign_cell dst (ByMove value_init)) n first first);;
  ret ().

End Algorithms.

(** ** SimpleVector *)

Section SimpleVector.
Context {T : Type} `{Element T}.

(** [SimpleVector() noexcept = default] *)
Definition default_vector : SimpleVector := Vec nullptr 0 0.

Definition GetSize (v : SimpleVector) : Z := size_ v.
Definition GetCapacity (v : SimpleVector) : Z := capacity_ v.
Definition IsEmpty (v : SimpleVector) : bool := size_ v =? 0.

Definition vec_begin (v : SimpleVector) : Z := ptr_ v.
Definition vec_end (v : SimpleVector) : Z := ptr_ v +ₚ size_ v.
Definition cbegin (v : SimpleVector) : Z := ptr_ v.
Definition cend (v : SimpleVector) : Z := ptr_ v +ₚ size_ v.

Definition IteratorChecking (it first last : Z) : M T unit :=
  if (it <? first) || (last <? it) then raise out_of_range else ret ().

Definition DataOverwrite (in_first in_last out_first : Z) : M T unit :=
  if negb is_copy_assignable || is_nothrow_move_assignable
  then std_move in_first in_last out_first;; ret ()
  else std_copy in_first in_last out_first;; ret ().

(** [++size_] and [--size_] *)
Definition incr_size : M T unit :=
  v ← get_this; set_size (size_wrap (size_ v + 1)).
Definition decr_size : M T unit :=
  v ← get_this; set_size (size_wrap (size_ v - 1)).

Definition grown (capacity : Z) : Z :=
  if capacity =? 0 then 1 else size_wrap (capacity * 2).

Definition UniversalPushBack (item : arg T) : M T unit :=
  v ← get_this;
  (if size_ v =? capacity_ v then
     let new_capacity := grown (capacity_ v) in
     with_array new_capacity (λ array,
       assign_cell (array +ₚ size_ v) item;;
       DataOverwrite (vec_begin v) (vec_end v) array;;
       array' ← ptr_swap array;
       set_capacity new_capacity;;
       ret ((), array'))
   else
     assign_cell (ptr_ v +ₚ size_ v) item);;
  incr_size.

Definition PushBack (item : arg T) : M T unit := UniversalPushBack item.

Definition UniversalInsert (pos : Z) (value : arg T) : M T Z :=
  v ← get_this;
  IteratorChecking pos (cbegin v) (cend v);;
  let idx := size_wrap (pos - vec_begin v) in
  (if size_ v =? capacity_ v then
     let new_capacity := grown (capacity_ v) in
     with_array new_capacity (λ array,
       assign_cell (array +ₚ idx) value;;
       DataOverwrite (vec_begin v) (vec_begin v +ₚ idx) array;;
       DataOverwrite (vec_begin v +ₚ idx) (vec_end v) (array +ₚ idx +ₚ 1);;
       array' ← ptr_swap array;
       set_capacity new_capacity;;
       ret ((), array'))
   else
     (if is_nothrow_move_assignable || negb is_copy_assignable
      then std_move_backward (vec_begin v +ₚ idx) (vec_end v) (vec_end v +ₚ 1)
      else std_copy_backward (vec_begin v +ₚ idx) (vec_end v) (vec_end v +ₚ 1));;
     assign_cell (ptr_ v +ₚ idx) value);;
  incr_size;;
  v' ← get_this;
  ret (vec_begin v' +ₚ idx).

Definition Insert (pos : Z) (value : arg T) : M T Z := UniversalInsert pos value.

Definition PopBack : M T unit :=
  v ← get_this;
  if size_ v =? 0 then ret () else decr_size.

Definition Erase (pos : Z) : M T Z :=
  v ← get_this;
  IteratorChecking pos (cbegin v) (cend v +ₚ -1);;
  DataOverwrite (pos +ₚ 1) (vec_end v) pos;;
  decr_size;;
  ret pos.

Definition Clear : M T unit := set_size 0.

Definition Resize (new_size : Z) : M T unit :=
  v ← get_this;
  if new_size <=? capacity_ v then
    (if size_ v <? new_size
     then std_generate (ptr_ v +ₚ size_ v) (ptr_ v +ₚ new_size)
     else ret ());;
    set_size new_size
  else
    with_array new_size (λ array,
      DataOverwrite (vec_begin v) (vec_end v) array;;
      std_generate (array +ₚ size_ v) (array +ₚ new_size);;
      array' ← ptr_swap array;
      set_size new_size;;
      set_capacity new_size;;
      ret ((), array')).

Definition Reserve (new_capacity : Z) : M T unit :=
  v ← get_this;
  if new_capacity <=? capacity_ v then ret ()
  else
    with_array new_capacity (λ array,
      DataOverwrite (vec_begin v) (vec_end v) array;;
      array' ← ptr_swap array;
      set_capacity new_capacity;;
      ret ((), array')).

(** [k] consecutive [PushBack] calls. *)
Fixpoint push_all (items : list (arg T)) : M T unit :=
  match items with
  | [] => ret ()
  | x :: rest => PushBack x;; push_all rest
  end.

End SimpleVector.

(** ** Observations *)

Section Observations.
Context {T : Type} `{Element T}.

(** The elements stored at [p], [p+1], ..., [p+n-1], if all are there. *)
Definition read_array (m : gmap Z T) (p : Z) (n : nat) : option (list T) :=
  mapM (λ i : nat, m !! (p + Z.of_nat i)) (seq 0 n).

(** The live elements of the container, positions [0, size). *)
Definition elements (s : state T) : option (list T) :=
  read_array (cells (mem s)) (ptr_ (this s)) (Z.to_nat (size_ (this s))).

(** The class invariant of the data model: [0 <= size <= capacity], the
    buffer is the null pointer when there is no capacity and otherwise a
    live array of exactly [capacity] slots that lies in the address space. *)
Record wf (s : state T) : Prop := {
  wf_size : 0 ≤ size_ (this s) ≤ capacity_ (this s);
  wf_capacity : capacity_ (this s) ≤ PTRDIFF_MAX;
  wf_space : ptr_ (this s) + capacity_ (this s) < POINTER_MODULUS;
  wf_null : capacity_ (this s) = 0 → ptr_ (this s) = nullptr;
  wf_block : 0 < capacity_ (this s) →
    0 < ptr_ (this s) ∧ blocks (mem s) !! ptr_ (this s) = Some (capacity_ (this s));
  wf_cells : ∀ i, 0 ≤ i < capacity_ (this s) →
    is_Some (cells (mem s) !! (ptr_ (this s) + i));
}.

(** The invariant as a check that can be run on a concrete state. *)
Definition wf_check (s : state T) : bool :=
  let v := this s in
  (0 <=? size_ v) && (size_ v <=? capacity_ v) &&
  (capacity_ v <=? PTRDIFF_MAX) &&
  (ptr_ v + capacity_ v <? POINTER_MODULUS) &&
  (if capacity_ v =? 0 then ptr_ v =? nullptr
   else
     (0 <? ptr_ v) &&
     bool_decide (blocks (mem s) !! ptr_ v = Some (capacity_ v)) &&
     forallb (λ i : nat,
                bool_decide (is_Some (cells (mem s) !! (ptr_ v + Z.of_nat i))))
             (seq 0 (Z.to_nat (capacity_ v)))).

(** [s'] differs from [s] at most in the elements stored at addresses in
    [P]: same object fields, same arrays, same set of addresses. *)
Definition touches_only (P : Z → Prop) (s s' : state T) : Prop :=
  this s' = this s ∧ blocks (mem s') = blocks (mem s) ∧
  (∀ a, is_Some (cells (mem s') !! a) ↔ is_Some (cells (mem s) !! a)) ∧
  (∀ a, ¬ P a → cells (mem s') !! a = cells (mem s) !! a).

Definition empty_heap : heap T := Heap ∅ ∅.
Definition initial : state T := State empty_heap default_vector.

End Observations.

(** ** Several objects *)

Section Objects.
Context {T : Type} `{Element T}.

(** Objects are told apart by their identity (their own address). *)
Record world := World {
  heap_of : heap T;
  objects : gmap nat SimpleVector;
}.

(** [void swap(SimpleVector& other) noexcept]: the three fields change
    places; no element is touched. *)
Definition swap (self other : nat) (w : world) : res unit * world :=
  match objects w !! self, objects w !! other with
  | Some a, Some b =>
      (Ret (), World (heap_of w) (<[other := a]> (<[self := b]> (objects w))))
  | _, _ => (Undefined, w)
  end.

(** Modelled from the spec: the move assignment of [ArrayPtr] (array_ptr.h is
    not part of the sources) releases the buffer of the target, takes the
    buffer of the source and leaves the source with the null pointer.  The
    result is the memory with the two pointers, target first. *)
Definition ArrayPtr_move_assign (target source : ArrayPtr) (h : heap T)
    : option (heap T * (ArrayPtr * ArrayPtr)) :=
  match delete_array target h with
  | Some h' => Some (h', (source, nullptr))
  | None => None
  end.

(** [SimpleVector& operator=(SimpleVector&& rhs) noexcept].  The guard
    [this != &rhs] compares identities; behind it [ptr_] is move-assigned
    and [size_] and [capacity_] are exchanged for 0. *)
Definition assign_move (self rhs : nat) (w : world) : res unit * world :=
  if decide (self = rhs) then (Ret (), w)
  else
    match objects w !! self, objects w !! rhs with
    | Some a, Some b =>
        match ArrayPtr_move_assign (ptr_ a) (ptr_ b) (heap_of w) with
        | Some (h, (p, q)) =>
            (Ret (),
             World h (<[rhs := Vec q 0 0]>
                     (<[self := Vec p (size_ b) (capacity_ b)]>
                        (objects w))))
        | None => (Undefined, w)
        end
    | _, _ => (Undefined, w)
    end.

End Objects.
Arguments world T : clear implicits.

(** ** Element access *)

Section Access.
Context {T : Type} `{Element T}.

(** [Type& operator[](size_t index) noexcept]: the reference [ptr_[index]],
    unchecked.  A reference is the address of the slot it refers to. *)
Definition operator_index (index : Z) : M T Z :=
  v ← get_this; ret (ptr_ v +ₚ index).

(** [Type& At(size_t index)] *)
Definition At (index : Z) : M T Z :=
  v ← get_this;
  if size_ v <=? index then raise out_of_range
  else ret (ptr_ v +ₚ index).

End Access.

(** ** Construction and destruction *)

(** [struct ReserveProxyObj] and the free function [Reserve] that wraps the
    capacity to reserve. *)
Module Proxy.

Record ReserveProxyObj := MkReserveProxyObj { capacity_ : Z }.

Definition Reserve (capacity_to_reserve : Z) : ReserveProxyObj :=
  MkReserveProxyObj capacity_to_reserve.

End Proxy.

Section Construction.
Context {T : Type} `{Element T}.

Definition set_this (v : SimpleVector) : M T unit :=
  λ s, (Ret (), State (mem s) v).

(** [std::fill_n(first, count, value)] *)
Definition std_fill_n (first count : Z) (value : T) : M T Z :=
  forward_n (λ dst _, assign_cell dst (ByCopy value)) (Z.to_nat count)
    first first.

(** A constructor with the member initialisers [ptr_(n)], [size_(size)],
    [capacity_(capacity)] and the statements [body], which get the object
    as initialised.  The object under construction is [this].  When [body]
    throws, the members are destroyed again, and the destructor of [ptr_]
    releases the buffer. *)
Definition constructor (n size capacity : Z) (body : SimpleVector → M T unit)
    : M T unit :=
  array ← ArrayPtr_new n;
  set_this (Vec array size capacity);;
  λ s, match body (this s) s with
       | (Throw e, s') => (ArrayPtr_delete (ptr_ (this s'));; raise e) s'
       | (r, s') => (r, s')
       end.

(** [SimpleVector(size_t size, const Type& value)] *)
Definition SimpleVector_fill (size : Z) (value : T) : M T unit :=
  constructor size size size (λ v,
    if 0 <? size then std_fill_n (ptr_ v) size value;; ret () else ret ()).

(** [explicit SimpleVector(size_t size)] delegates with [Type()]. *)
Definition SimpleVector_sized (size : Z) : M T unit :=
  SimpleVector_fill size value_init.

(** [SimpleVector(std::initializer_list<Type> init)]; the list is the array
    of [init_size] elements at [init_begin]. *)
Definition SimpleVector_list (init_begin init_size : Z) : M T unit :=
  constructor init_size init_size init_size (λ v,
    DataOverwrite init_begin (init_begin +ₚ init_size) (ptr_ v)).

(** [SimpleVector(const SimpleVector& other)] *)
Definition SimpleVector_copy (other : SimpleVector) : M T unit :=
  constructor (size_ other) (size_ other) (size_ other) (λ v,
    std_copy (cbegin other) (cend other) (ptr_ v);; ret ()).

(** [SimpleVector(ReserveProxyObj obj)]; [size_] keeps its default member
    initialiser 0. *)
Definition SimpleVector_reserved (obj : Proxy.ReserveProxyObj) : M T unit :=
  constructor (Proxy.capacity_ obj) 0 (Proxy.capacity_ obj) (λ _, ret ()).

(** [~SimpleVector() = default]: the destructor of [ptr_] releases the
    buffer. *)
Definition destructor : M T unit :=
  v ← get_this; ArrayPtr_delete (ptr_ v).

End Construction.

Section Transfer.
Context {T : Type} `{Element T}.

(** Modelled from the spec: [std::exchange(obj, ArrayPtr<Type>(p))] goes
    through the move constructor and the move assignment of [ArrayPtr]
    (array_ptr.h is not part of the sources): the old pointer is moved out
    of [obj], which is left with the null pointer, and [obj] is then
    move-assigned the new value.  The result is the memory with the pointer
    that was moved out and the pointer [obj] holds now. *)
Definition ArrayPtr_exchange (obj new_value : ArrayPtr) (h : heap T)
    : option (heap T * (ArrayPtr * ArrayPtr)) :=
  match ArrayPtr_move_assign nullptr new_value h with
  | Some (h', (obj', _)) => Some (h', (obj, obj'))
  | None => None
  end.

(** [SimpleVector(SimpleVector&& other)]: the new object [self] gets what
    the three exchanges give back, [other] keeps the null pointer and 0. *)
Definition construct_move (self other : nat) (w : world T)
    : res unit * world T :=
  match objects w !! other with
  | Some b =>
      match ArrayPtr_exchange (ptr_ b) nullptr (heap_of w) with
      | Some (h, (old, p)) =>
          (Ret (),
           World h (<[self := Vec old (size_ b) (capacity_ b)]>
                    (<[other := Vec p 0 0]> (objects w))))
      | None => (Undefined, w)
      end
  | None => (Undefined, w)
  end.

(** [SimpleVector& operator=(const SimpleVector& rhs)].  Behind the guard
    the local [tmp] is copy-constructed from [rhs], exchanges its three
    fields with [*this], and is destroyed with what [*this] held. *)
Definition assign_copy (self rhs : nat) (w : world T) : res unit * world T :=
  if decide (self = rhs) then (Ret (), w)
  else
    match objects w !! self, objects w !! rhs with
    | Some a, Some b =>
        match SimpleVector_copy b (State (heap_of w) default_vector) with
        | (Ret _, s1) =>
            let tmp := this s1 in
            let objs := <[self := tmp]> (objects w) in
            match destructor (State (mem s1) a) with
            | (Ret _, s2) => (Ret (), World (mem s2) objs)
            | (Throw e, s2) => (Throw e, World (mem s2) objs)
            | (Undefined, s2) => (Undefined, World (mem s2) objs)
            end
        | (Throw e, s1) => (Throw e, World (mem s1) (objects w))
        | (Undefined, s1) => (Undefined, World (mem s1) (objects w))
        end
    | _, _ => (Undefined, w)
    end.

End Transfer.

(** ** Comparison *)

(** The result of [a <=> b]. *)
Inductive ordering := Less | Equivalent | Greater | Unordered.

(** What the comparison operators ask of [Type]: [a == b] and [a <=> b]. *)
Class Comparable (T : Type) := {
  elem_eqb : T → T → bool;
  elem_compare : T → T → ordering;
}.

Section Comparison.
Context {T : Type} `{Element T} `{Comparable T}.

Fixpoint equal_n (n : nat) (first1 first2 : Z) : M T bool :=
  match n with
  | O => ret true
  | S n' =>
      x ← load first1; y ← load first2;
      if elem_eqb x y then equal_n n' (first1 +ₚ 1) (first2 +ₚ 1)
      else ret false
  end.

(** [std::equal(first1, last1, first2)] *)
Definition std_equal (first1 last1 first2 : Z) : M T bool :=
  if last1 <? first1 then undefined
  else equal_n (Z.to_nat (last1 - first1)) first1 first2.

Fixpoint compare_n (n1 n2 : nat) (first1 first2 : Z) : M T ordering :=
  match n1, n2 with
  | O, O => ret Equivalent
  | O, S _ => ret Less
  | S _, O => ret Greater
  | S n1', S n2' =>
      x ← load first1; y ← load first2;
      match elem_compare x y with
      | Equivalent => compare_n n1' n2' (first1 +ₚ 1) (first2 +ₚ 1)
      | c => ret c
      end
  end.

(** [std::lexicographical_compare_three_way(first1, last1, first2, last2)] *)
Definition std_lexicographical_compare_three_way
    (first1 last1 first2 last2 : Z) : M T ordering :=
  if (last1 <? first1) || (last2 <? first2) then undefined
  else compare_n (Z.to_nat (last1 - first1)) (Z.to_nat (last2 - first2))
         first1 first2.

(** [bool operator==(const SimpleVector<Type>& rhs) const noexcept] *)
Definition operator_eq (rhs : SimpleVector) : M T bool :=
  v ← get_this;
  if negb (size_ v =? size_ rhs) then ret false
  else std_equal (cbegin v) (cend v) (cbegin rhs).

(** [bool operator!=(const SimpleVector<Type>& rhs) const noexcept] *)
Definition operator_ne (rhs : SimpleVector) : M T bool :=
  b ← operator_eq rhs; ret (negb b).

(** [auto operator<=>(const SimpleVector<Type>& rhs) const noexcept] *)
Definition operator_cmp (rhs : SimpleVector) : M T ordering :=
  v ← get_this;
  std_lexicographical_compare_three_way
    (cbegin v) (cend v) (cbegin rhs) (cend rhs).

End Comparison.

(** ** Other objects in the same memory *)

Section Frames.
Context {T : Type} `{Element T}.

(** [s'] has left alone what lies outside the buffer of the container of
    [s]: every element stored elsewhere is the same, and every array that
    holds such elements is as live as it was. *)
Definition keeps_outside (s s' : state T) : Prop :=
  (∀ a, is_Some (cells (mem s) !! a) →
     ¬ (ptr_ (this s) ≤ a < ptr_ (this s) + capacity_ (this s)) →
     cells (mem s') !! a = cells (mem s) !! a) ∧
  (∀ b, is_Some (cells (mem s) !! b) → b ≠ ptr_ (this s) →
     blocks (mem s') !! b = blocks (mem s) !! b).

(** Another container [other] in the memory of [s] is in [s'] what it was
    in [s]: well formed, with the same elements. *)
Definition unaffected (other : SimpleVector) (s s' : state T) : Prop :=
  wf (State (mem s') other) ∧
  elements (State (mem s') other) = elements (State (mem s) other).

End Frames.

(** The free function [swap(lhs, rhs)] calls the member. *)
Definition swap_free {T} (lhs rhs : nat) (w : world T) : res unit * world T :=
  swap lhs rhs w.

(** ** Element types of the test program *)

(** [int] *)
#[export] Instance int_element : Element Z := {|
  is_copy_assignable := true;
  is_nothrow_move_assignable := true;
  value_init := 0;
  copy_assign _ s := (Normal, s);
  move_assign _ s := (Normal, (s, s));
|}.

(** [int] is compared with its built-in [==] and [<=>]. *)
#[export] Instance int_comparable : Comparable Z := {|
  elem_eqb := Z.eqb;
  elem_compare a b :=
    match a ?= b with Lt => Less | Eq => Equivalent | Gt => Greater end;
|}.

(** [class X] of main.cpp: not copyable, a move that is not declared
    [noexcept] and leaves 0 behind. *)
Record X := MkX { GetX : Z }.

#[export] Instance X_element : Element X := {|
  is_copy_assignable := false;
  is_nothrow_move_assignable := false;
  value_init := MkX 5;
  copy_assign d _ := (Raised, d);
  move_assign _ s := (Normal, (s, MkX 0));
|}.

(** [struct MoveableThrowable] of main.cpp: not copyable; moving from an
    object with [must_throw] set throws before anything is changed,
    otherwise [num] is taken and -1 is left behind. *)
Record MoveableThrowable := MkMT { num : Z; must_throw : bool }.

#[export] Instance MoveableThrowable_element : Element MoveableThrowable := {|
  is_copy_assignable := false;
  is_nothrow_move_assignable := false;
  value_init := MkMT (-1) false;
  copy_assign d _ := (Raised, d);
  move_assign d s :=
    if must_throw s then (Raised, (d, s))
    else (Normal, (MkMT (num s) (must_throw d), MkMT (-1) (must_throw s)));
|}.

(** A copyable element type whose copy assignment throws when the source is
    marked, and which declares no move assignment of its own (so that moving
    is copying).  The container relocates such a type by copy. *)
Record Fragile := MkFragile { payload : Z; marked : bool }.

#[export] Instance Fragile_element : Element Fragile := {|
  is_copy_assignable := true;
  is_nothrow_move_assignable := false;
  value_init := MkFragile 0 false;
  copy_assign d s := if marked s then (Raised, d) else (Normal, s);
  move_assign d s := if marked s then (Raised, (d, s)) else (Normal, (s, s));
|}.

(** A state with one live array: [l] at address 1, followed by [spare]
    value-initialised slots. *)
Definition state_of {T} `{Element T} (l : list T) (spare : nat) : state T :=
  let n := Z.of_nat (length l + spare) in
  State (Heap (list_to_map (zip (Z.of_nat <$> seq 1 (length l + spare))
                                (l ++ replicate spare value_init)))
              (if n =? 0 then ∅ else {[ 1 := n ]}))
        (Vec (if n =? 0 then nullptr else 1) (Z.of_nat (length l)) n).

(** An element type whose assignments throw when the target is locked. *)
Record Locked := MkLocked { content : Z; locked : bool }.

#[export] Instance Locked_element : Element Locked := {|
  is_copy_assignable := true;
  is_nothrow_move_assignable := false;
  value_init := MkLocked 0 false;
  copy_assign d s := if locked d then (Raised, d) else (Normal, s);
  move_assign d s := if locked d then (Raised, (d, s)) else (Normal, (s, s));
|}.

(** A memory with two live arrays, [l1] at address 1 and [l2] right behind
    it, and the two containers that own them. *)
Definition two_arrays {T} (l1 l2 : list T) : heap T :=
  Heap (list_to_map (zip (Z.of_nat <$> seq 1 (length l1 + length l2))
                         (l1 ++ l2)))
       {[ 1 := Z.of_nat (length l1);
          1 + Z.of_nat (length l1) := Z.of_nat (length l2) ]}.

Definition first_vector {T} (l1 : list T) : SimpleVector :=
  Vec 1 (Z.of_nat (length l1)) (Z.of_nat (length l1)).

Definition second_vector {T} (l1 l2 : list T) : SimpleVector :=
  Vec (1 + Z.of_nat (length l1)) (Z.of_nat (length l2)) (Z.of_nat (length l2)).

(** * Properties *)

Section Basics.
Context {T : Type} `{Element T}.

Lemma size_wrap_small z : 0 ≤ z < SIZE_MODULUS → size_wrap z = z.
Proof. intros ?. unfold size_wrap. by apply Z.mod_small. Qed.

Lemma PTRDIFF_MAX_lt : 2 * PTRDIFF_MAX + 2 ≤ SIZE_MODULUS.
Proof. unfold PTRDIFF_MAX, SIZE_MODULUS. lia. Qed.

Lemma ptr_add_small p n : 0 ≤ p + n < POINTER_MODULUS → p +ₚ n = p + n.
Proof. intros ?. unfold ptr_add. by apply Z.mod_small. Qed.

Lemma bind_Ret {A B} (m : M T A) (k : A → M T B) s b s' :
  bind m k s = (Ret b, s') →
  ∃ a s1, m s = (Ret a, s1) ∧ k a s1 = (Ret b, s').
Proof.
  unfold bind. destruct (m s) as [[a|e|] s1]; try discriminate. eauto.
Qed.

Lemma bind_ext {A B} (m : M T A) (k1 k2 : A → M T B) s :
  (∀ a s1, k1 a s1 = k2 a s1) → bind m k1 s = bind m k2 s.
Proof. intros Hk. unfold bind. destruct (m s) as [[a|e|] s1]; auto. Qed.

Lemma touches_only_refl P (s : state T) : touches_only P s s.
Proof. by repeat split. Qed.

Lemma touches_only_trans (P Q R : Z → Prop) (s1 s2 s3 : state T) :
  touches_only P s1 s2 → touches_only Q s2 s3 →
  (∀ a, P a → R a) → (∀ a, Q a → R a) →
  touches_only R s1 s3.
Proof.
  intros (Ht1 & Hb1 & Hd1 & Hc1) (Ht2 & Hb2 & Hd2 & Hc2) HP HQ.
  repeat split.
  - congruence.
  - congruence.
  - rewrite Hd2. apply Hd1.
  - rewrite <- Hd1. apply Hd2.
  - intros a Ha. rewrite Hc2 by (intros ?; apply Ha; auto).
    apply Hc1. intros ?. apply Ha. auto.
Qed.

Lemma touches_only_weaken (P Q : Z → Prop) (s s' : state T) :
  touches_only P s s' → (∀ a, P a → Q a) → touches_only Q s s'.
Proof.
  intros Ht HPQ.
  eapply (touches_only_trans P P Q); eauto using touches_only_refl.
Qed.

Lemma store_touches a x (s : state T) r s' :
  store a x s = (r, s') → touches_only (λ b, b = a) s s'.
Proof.
  unfold store. destruct (cells (mem s) !! a) as [y|] eqn:Ha.
  - intros [= <- <-]. repeat split; simpl.
    + intros Hs. destruct (decide (a0 = a)) as [->|Hne]; [by rewrite Ha|].
      by rewrite lookup_insert_ne in Hs.
    + intros Hs. destruct (decide (a0 = a)) as [->|Hne].
      * rewrite lookup_insert_eq. eauto.
      * by rewrite lookup_insert_ne.
    + intros b Hb. by rewrite lookup_insert_ne.
  - intros [= <- <-]. apply touches_only_refl.
Qed.

Lemma check_result c (s : state T) r s' :
  check c s = (r, s') →
  s' = s ∧ ((c = Normal ∧ r = Ret ()) ∨ (c = Raised ∧ r = Throw element_error)).
Proof. destruct c; intros [= <- <-]; eauto. Qed.

End Basics.

(** ** Assignments between cells *)

Section Cells.
Context {T : Type} `{Element T}.

Lemma copy_cell_touches dst src (s : state T) r s' :
  copy_cell dst src s = (r, s') → touches_only (λ a, a = dst) s s'.
Proof.
  unfold copy_cell, bind, load.
  destruct (cells (mem s) !! dst) as [d|]; [|intros [= <- <-]; apply touches_only_refl].
  destruct (cells (mem s) !! src) as [x|]; [|intros [= <- <-]; apply touches_only_refl].
  destruct (copy_assign d x) as [c d'].
  destruct (store dst d' s) as [[[]|e|] s1] eqn:Hst;
    pose proof (store_touches _ _ _ _ _ Hst) as Ht.
  - intros (-> & _)%check_result. done.
  - by intros [= <- <-].
  - by intros [= <- <-].
Qed.

Lemma copy_cell_run dst src (s : state T) d x :
  cells (mem s) !! dst = Some d → cells (mem s) !! src = Some x →
  ∃ s', copy_cell dst src s = (finish (copy_assign d x).1, s') ∧
        cells (mem s') !! dst = Some (copy_assign d x).2.
Proof.
  intros Hd Hx. unfold copy_cell, bind, load. rewrite Hd, Hx.
  destruct (copy_assign d x) as [c d']. unfold store. rewrite Hd. simpl.
  destruct c; simpl; eexists; (split; [reflexivity|]); simpl;
    by rewrite lookup_insert_eq.
Qed.

Lemma move_cell_touches dst src (s : state T) r s' :
  move_cell dst src s = (r, s') → touches_only (λ a, a = dst ∨ a = src) s s'.
Proof.
  unfold move_cell, bind, load.
  destruct (cells (mem s) !! dst) as [d|]; [|intros [= <- <-]; apply touches_only_refl].
  destruct (cells (mem s) !! src) as [x|]; [|intros [= <- <-]; apply touches_only_refl].
  destruct (move_assign d x) as [c [d' x']].
  destruct (store src x' s) as [[[]|e|] s1] eqn:Hst1;
    pose proof (store_touches _ _ _ _ _ Hst1) as Ht1.
  - destruct (store dst d' s1) as [[[]|e|] s2] eqn:Hst2;
      pose proof (store_touches _ _ _ _ _ Hst2) as Ht2.
    + intros (-> & _)%check_result.
      eapply touches_only_trans; eauto; simpl; auto.
    + intros [= <- <-]. eapply touches_only_trans; eauto; simpl; auto.
    + intros [= <- <-]. eapply touches_only_trans; eauto; simpl; auto.
  - intros [= <- <-]. eapply touches_only_weaken; eauto; simpl; auto.
  - intros [= <- <-]. eapply touches_only_weaken; eauto; simpl; auto.
Qed.

Lemma move_cell_run dst src (s : state T) d x :
  cells (mem s) !! dst = Some d → cells (mem s) !! src = Some x →
  ∃ s', move_cell dst src s = (finish (move_assign d x).1, s') ∧
        cells (mem s') !! dst = Some (move_assign d x).2.1.
Proof.
  intros Hd Hx. unfold move_cell, bind, load. rewrite Hd, Hx.
  destruct (move_assign d x) as [c [d' x']]. simpl.
  unfold store at 1. rewrite Hx. unfold store. simpl.
  assert (is_Some (<[src:=x']> (cells (mem s)) !! dst)) as [y ->].
  { destruct (decide (src = dst)) as [->|?].
    - rewrite lookup_insert_eq. eauto.
    - rewrite lookup_insert_ne by done. eauto. }
  destruct c; simpl; eexists; (split; [reflexivity|]); simpl;
    by rewrite lookup_insert_eq.
Qed.

Lemma assign_cell_touches dst item (s : state T) r s' :
  assign_cell dst item s = (r, s') → touches_only (λ a, a = dst) s s'.
Proof.
  unfold assign_cell, bind, load.
  destruct (cells (mem s) !! dst) as [d|]; [|intros [= <- <-]; apply touches_only_refl].
  destruct item as [x|x].
  - destruct (copy_assign d x) as [c d'].
    destruct (store dst d' s) as [[[]|e|] s1] eqn:Hst;
      pose proof (store_touches _ _ _ _ _ Hst) as Ht.
    + intros (-> & _)%check_result. done.
    + by intros [= <- <-].
    + by intros [= <- <-].
  - destruct (move_assign d x) as [c [d' x']].
    destruct (store dst d' s) as [[[]|e|] s1] eqn:Hst;
      pose proof (store_touches _ _ _ _ _ Hst) as Ht.
    + intros (-> & _)%check_result. done.
    + by intros [= <- <-].
    + by intros [= <- <-].
Qed.

Lemma assign_cell_run dst item (s : state T) d :
  cells (mem s) !! dst = Some d →
  ∃ s', assign_cell dst item s = (finish (assigned d item).1, s') ∧
        cells (mem s') !! dst = Some (assigned d item).2.
Proof.
  intros Hd. unfold assign_cell, bind, load. rewrite Hd.
  destruct item as [x|x]; simpl.
  - destruct (copy_assign d x) as [c d']. unfold store. rewrite Hd. simpl.
    destruct c; simpl; eexists; (split; [reflexivity|]); simpl;
      by rewrite lookup_insert_eq.
  - destruct (move_assign d x) as [c [d' x']]. unfold store. rewrite Hd. simpl.
    destruct c; simpl; eexists; (split; [reflexivity|]); simpl;
      by rewrite lookup_insert_eq.
Qed.

Lemma assign_cell_unmapped dst item (s : state T) :
  cells (mem s) !! dst = None → assign_cell dst item s = (Undefined, s).
Proof. intros Hd. unfold assign_cell, bind, load. by rewrite Hd. Qed.

Lemma assigned_value `{!ValueSemantics T} d item d' :
  assigned d item = (Normal, d') → d' = arg_value item.
Proof.
  destruct item as [x|x]; simpl.
  - apply copy_assign_value.
  - destruct (move_assign d x) as [c [e x']] eqn:Hm. simpl.
    intros [= -> ->]. by apply move_assign_value in Hm.
Qed.

Lemma finish_Ret c : finish c = Ret () → c = Normal.
Proof. by destruct c. Qed.

Lemma finish_cases c :
  finish c = Ret () ∨ finish c = Throw element_error.
Proof. destruct c; auto. Qed.

End Cells.

(** ** Loops over ranges *)

Section Loops.
Context {T : Type} `{Element T}.
Variable op : Z → Z → M T unit.
Variable touched : Z → Z → Z → Prop.
Variable may_throw : Prop.

Hypothesis op_touches : ∀ dst src s r s',
  op dst src s = (r, s') → touches_only (touched dst src) s s'.
Hypothesis touched_ends : ∀ dst src a, touched dst src a → a = dst ∨ a = src.
Hypothesis op_result : ∀ dst src s r s',
  op dst src s = (r, s') →
  is_Some (cells (mem s) !! dst) → is_Some (cells (mem s) !! src) →
  r = Ret () ∨ (r = Throw element_error ∧ may_throw).

(** Inside the address space the iterators advance by one. *)
Lemma forward_n_step n first out :
  0 ≤ first → first + Z.of_nat (S n) < POINTER_MODULUS →
  0 ≤ out → out + Z.of_nat (S n) < POINTER_MODULUS →
  forward_n op (S n) first out =
  (op out first;; forward_n op n (first + 1) (out + 1)).
Proof. intros. simpl. by rewrite !ptr_add_small by lia. Qed.

Lemma backward_n_step n last d_last :
  Z.of_nat (S n) ≤ last → last < POINTER_MODULUS →
  Z.of_nat (S n) ≤ d_last → d_last < POINTER_MODULUS →
  backward_n op (S n) last d_last =
  (op (d_last - 1) (last - 1);; backward_n op n (last - 1) (d_last - 1)).
Proof.
  intros. simpl. rewrite !ptr_add_small by lia. reflexivity.
Qed.

Lemma forward_n_touches n first out s r s' :
  0 ≤ first → first + Z.of_nat n < POINTER_MODULUS →
  0 ≤ out → out + Z.of_nat n < POINTER_MODULUS →
  forward_n op n first out s = (r, s') →
  touches_only
    (λ a, ∃ j, 0 ≤ j < Z.of_nat n ∧ touched (out + j) (first + j) a) s s'.
Proof.
  revert first out s. induction n as [|n IH]; intros first out s ? ? ? ?.
  - intros [= <- <-]. apply touches_only_refl.
  - rewrite forward_n_step by done.
    unfold bind. destruct (op out first s) as [[[]|e|] s1] eqn:Hop;
      apply op_touches in Hop.
    + intros Hrest. apply IH in Hrest; [|lia..].
      eapply touches_only_trans; [exact Hop|exact Hrest|..].
      * intros a Ha. exists 0. rewrite !Z.add_0_r. split; [lia|done].
      * intros a (j & Hj & Ha). exists (j + 1). split; [lia|].
        by rewrite !Z.add_assoc, <- !(Z.add_comm 1), !Z.add_assoc,
          !(Z.add_comm 1).
    + intros [= <- <-]. eapply touches_only_weaken; [exact Hop|].
      intros a Ha. exists 0. rewrite !Z.add_0_r. split; [lia|done].
    + intros [= <- <-]. eapply touches_only_weaken; [exact Hop|].
      intros a Ha. exists 0. rewrite !Z.add_0_r. split; [lia|done].
Qed.

Lemma backward_n_touches n last d_last s r s' :
  Z.of_nat n ≤ last → last < POINTER_MODULUS →
  Z.of_nat n ≤ d_last → d_last < POINTER_MODULUS →
  backward_n op n last d_last s = (r, s') →
  touches_only
    (λ a, ∃ j, 1 ≤ j ≤ Z.of_nat n ∧ touched (d_last - j) (last - j) a) s s'.
Proof.
  revert last d_last s. induction n as [|n IH]; intros last d_last s ? ? ? ?.
  - intros [= <- <-]. apply touches_only_refl.
  - rewrite backward_n_step by done.
    unfold bind. destruct (op (d_last - 1) (last - 1) s) as [[[]|e|] s1] eqn:Hop;
      apply op_touches in Hop.
    + intros Hrest. apply IH in Hrest; [|lia..].
      eapply touches_only_trans; [exact Hop|exact Hrest|..].
      * intros a Ha. exists 1. split; [lia|done].
      * intros a (j & Hj & Ha). exists (j + 1). split; [lia|].
        by rewrite !Z.sub_add_distr, <- !(Z.sub_add_distr _ j 1),
          !(Z.add_comm j 1), !Z.sub_add_distr.
    + intros [= <- <-]. eapply touches_only_weaken; [exact Hop|].
      intros a Ha. exists 1. split; [lia|done].
    + intros [= <- <-]. eapply touches_only_weaken; [exact Hop|].
      intros a Ha. exists 1. split; [lia|done].
Qed.

Lemma forward_n_result n first out s r s' :
  0 ≤ first → first + Z.of_nat n < POINTER_MODULUS →
  0 ≤ out → out + Z.of_nat n < POINTER_MODULUS →
  (∀ j, 0 ≤ j < Z.of_nat n →
     is_Some (cells (mem s) !! (first + j)) ∧
     is_Some (cells (mem s) !! (out + j))) →
  forward_n op n first out s = (r, s') →
  (∃ o, r = Ret o) ∨ (r = Throw element_error ∧ may_throw).
Proof.
  revert first out s. induction n as [|n IH]; intros first out s ? ? ? ? Hm.
  - intros [= <- <-]. eauto.
  - rewrite forward_n_step by done.
    unfold bind. destruct (op out first s) as [[[]|e|] s1] eqn:Hop.
    + pose proof (op_touches _ _ _ _ _ Hop) as (_ & _ & Hd & _).
      apply IH; [lia..|]. intros j Hj. rewrite !Hd.
      replace (first + 1 + j) with (first + (j + 1)) by lia.
      replace (out + 1 + j) with (out + (j + 1)) by lia.
      apply Hm. lia.
    + apply op_result in Hop as [|[? ?]]; try discriminate.
      * intros [= <- <-]. right. by simplify_eq.
      * rewrite <- (Z.add_0_r out). apply Hm. lia.
      * rewrite <- (Z.add_0_r first). apply Hm. lia.
    + apply op_result in Hop as [|[? ?]]; try discriminate.
      * rewrite <- (Z.add_0_r out). apply Hm. lia.
      * rewrite <- (Z.add_0_r first). apply Hm. lia.
Qed.

Lemma backward_n_result n last d_last s r s' :
  Z.of_nat n ≤ last → last < POINTER_MODULUS →
  Z.of_nat n ≤ d_last → d_last < POINTER_MODULUS →
  (∀ j, 1 ≤ j ≤ Z.of_nat n →
     is_Some (cells (mem s) !! (last - j)) ∧
     is_Some (cells (mem s) !! (d_last - j))) →
  backward_n op n last d_last s = (r, s') →
  (∃ o, r = Ret o) ∨ (r = Throw element_error ∧ may_throw).
Proof.
  revert last d_last s. induction n as [|n IH];
    intros last d_last s ? ? ? ? Hm.
  - intros [= <- <-]. eauto.
  - rewrite backward_n_step by done.
    unfold bind. destruct (op (d_last - 1) (last - 1) s) as [[[]|e|] s1] eqn:Hop.
    + pose proof (op_touches _ _ _ _ _ Hop) as (_ & _ & Hd & _).
      apply IH; [lia..|]. intros j Hj. rewrite !Hd.
      replace (last - 1 - j) with (last - (j + 1)) by lia.
      replace (d_last - 1 - j) with (d_last - (j + 1)) by lia.
      apply Hm. lia.
    + apply op_result in Hop as [|[? ?]]; try discriminate.
      * intros [= <- <-]. right. by simplify_eq.
      * apply Hm. lia.
      * apply Hm. lia.
    + apply op_result in Hop as [|[? ?]]; try discriminate.
      * apply Hm. lia.
      * apply Hm. lia.
Qed.

Hypothesis op_value : ∀ dst src s s' x,
  op dst src s = (Ret (), s') →
  cells (mem s) !! src = Some x → cells (mem s') !! dst = Some x.

Lemma forward_n_value n first out s o s' :
  0 ≤ first → first + Z.of_nat n < POINTER_MODULUS →
  0 ≤ out → out + Z.of_nat n < POINTER_MODULUS →
  out < first ∨ first + Z.of_nat n ≤ out →
  forward_n op n first out s = (Ret o, s') →
  ∀ j x, 0 ≤ j < Z.of_nat n →
    cells (mem s) !! (first + j) = Some x →
    cells (mem s') !! (out + j) = Some x.
Proof.
  revert first out s. induction n as [|n IH];
    intros first out s ? ? ? ? Hsep.
  - intros _ j x Hj. lia.
  - rewrite forward_n_step by done.
    intros (u & s1 & Hop & Hrest)%bind_Ret j x Hj Hx. destruct u.
    pose proof (op_touches _ _ _ _ _ Hop) as (_ & _ & _ & Hfr1).
    pose proof (forward_n_touches n (first + 1) (out + 1) s1 _ s'
                  ltac:(lia) ltac:(lia) ltac:(lia) ltac:(lia) Hrest)
      as (_ & _ & _ & Hfr2).
    destruct (decide (j = 0)) as [->|Hj0].
    + rewrite Z.add_0_r in *. rewrite Hfr2.
      * eapply op_value; eauto.
      * intros (k & Hk & [Hout|Hout]%touched_ends); lia.
    + replace (out + j) with (out + 1 + (j - 1)) by lia.
      eapply IH; [..|exact Hrest| |]; [lia..|].
      replace (first + 1 + (j - 1)) with (first + j) by lia.
      rewrite Hfr1; [done|].
      intros [Hout|Hout]%touched_ends; lia.
Qed.

Lemma backward_n_value n last d_last s o s' :
  Z.of_nat n ≤ last → last < POINTER_MODULUS →
  Z.of_nat n ≤ d_last → d_last < POINTER_MODULUS →
  last < d_last ∨ d_last ≤ last - Z.of_nat n →
  backward_n op n last d_last s = (Ret o, s') →
  ∀ j x, 1 ≤ j ≤ Z.of_nat n →
    cells (mem s) !! (last - j) = Some x →
    cells (mem s') !! (d_last - j) = Some x.
Proof.
  revert last d_last s. induction n as [|n IH];
    intros last d_last s ? ? ? ? Hsep.
  - intros _ j x Hj. lia.
  - rewrite backward_n_step by done.
    intros (u & s1 & Hop & Hrest)%bind_Ret j x Hj Hx. destruct u.
    pose proof (op_touches _ _ _ _ _ Hop) as (_ & _ & _ & Hfr1).
    pose proof (backward_n_touches n (last - 1) (d_last - 1) s1 _ s'
                  ltac:(lia) ltac:(lia) ltac:(lia) ltac:(lia) Hrest)
      as (_ & _ & _ & Hfr2).
    destruct (decide (j = 1)) as [->|Hj1].
    + rewrite Hfr2.
      * eapply op_value; eauto.
      * intros (k & Hk & [Hout|Hout]%touched_ends); lia.
    + replace (d_last - j) with (d_last - 1 - (j - 1)) by lia.
      eapply IH; [..|exact Hrest| |]; [lia..|].
      replace (last - 1 - (j - 1)) with (last - j) by lia.
      rewrite Hfr1; [done|].
      intros [Hout|Hout]%touched_ends; lia.
Qed.

End Loops.

(** ** Relocation *)

Section Relocation.
Context {T : Type} `{Element T}.

Lemma copy_cell_result dst src (s : state T) r s' :
  copy_cell dst src s = (r, s') →
  is_Some (cells (mem s) !! dst) → is_Some (cells (mem s) !! src) →
  r = Ret () ∨ (r = Throw element_error ∧ True).
Proof.
  intros Hrun [d Hd] [x Hx].
  destruct (copy_cell_run dst src s d x Hd Hx) as (s2 & Hrun2 & _).
  rewrite Hrun in Hrun2. injection Hrun2 as -> _.
  destruct (finish_cases (copy_assign d x).1) as [->| ->]; auto.
Qed.

Lemma move_cell_result dst src (s : state T) r s' :
  move_cell dst src s = (r, s') →
  is_Some (cells (mem s) !! dst) → is_Some (cells (mem s) !! src) →
  r = Ret () ∨ (r = Throw element_error ∧ True).
Proof.
  intros Hrun [d Hd] [x Hx].
  destruct (move_cell_run dst src s d x Hd Hx) as (s2 & Hrun2 & _).
  rewrite Hrun in Hrun2. injection Hrun2 as -> _.
  destruct (finish_cases (move_assign d x).1) as [->| ->]; auto.
Qed.

Lemma copy_cell_total `{!NeverThrows T} dst src (s : state T) r s' :
  copy_cell dst src s = (r, s') →
  is_Some (cells (mem s) !! dst) → is_Some (cells (mem s) !! src) →
  r = Ret () ∨ (r = Throw element_error ∧ False).
Proof.
  intros Hrun [d Hd] [x Hx].
  destruct (copy_cell_run dst src s d x Hd Hx) as (s2 & Hrun2 & _).
  rewrite Hrun in Hrun2. injection Hrun2 as -> _.
  rewrite copy_assign_normal. by left.
Qed.

Lemma move_cell_total `{!NeverThrows T} dst src (s : state T) r s' :
  move_cell dst src s = (r, s') →
  is_Some (cells (mem s) !! dst) → is_Some (cells (mem s) !! src) →
  r = Ret () ∨ (r = Throw element_error ∧ False).
Proof.
  intros Hrun [d Hd] [x Hx].
  destruct (move_cell_run dst src s d x Hd Hx) as (s2 & Hrun2 & _).
  rewrite Hrun in Hrun2. injection Hrun2 as -> _.
  rewrite move_assign_normal. by left.
Qed.

Lemma copy_cell_value `{!ValueSemantics T} dst src (s s' : state T) x :
  copy_cell dst src s = (Ret (), s') →
  cells (mem s) !! src = Some x → cells (mem s') !! dst = Some x.
Proof.
  intros Hrun Hx.
  destruct (cells (mem s) !! dst) as [d|] eqn:Hd.
  - destruct (copy_cell_run dst src s d x Hd Hx) as (s2 & Hrun2 & Hv).
    rewrite Hrun in Hrun2. injection Hrun2 as Hf <-.
    symmetry in Hf. apply finish_Ret in Hf.
    destruct (copy_assign d x) as [c d'] eqn:Hc. simpl in *. subst c.
    apply copy_assign_value in Hc. by subst.
  - unfold copy_cell, bind, load in Hrun. by rewrite Hd in Hrun.
Qed.

Lemma move_cell_value `{!ValueSemantics T} dst src (s s' : state T) x :
  move_cell dst src s = (Ret (), s') →
  cells (mem s) !! src = Some x → cells (mem s') !! dst = Some x.
Proof.
  intros Hrun Hx.
  destruct (cells (mem s) !! dst) as [d|] eqn:Hd.
  - destruct (move_cell_run dst src s d x Hd Hx) as (s2 & Hrun2 & Hv).
    rewrite Hrun in Hrun2. injection Hrun2 as Hf <-.
    symmetry in Hf. apply finish_Ret in Hf.
    destruct (move_assign d x) as [c [d' x']] eqn:Hc. simpl in *. subst c.
    apply move_assign_value in Hc. by subst.
  - unfold move_cell, bind, load in Hrun. by rewrite Hd in Hrun.
Qed.

Lemma ranged_inv first last (loop : nat → M T Z) s r s' :
  ranged first last loop s = (r, s') →
  (last < first ∧ r = Undefined ∧ s' = s) ∨
  (first ≤ last ∧ loop (Z.to_nat (last - first)) s = (r, s')).
Proof.
  unfold ranged. destruct (Z.ltb_spec last first).
  - intros [= <- <-]. by left.
  - intros ?. by right.
Qed.

Lemma void_inv {A} (m : M T A) s r s' :
  (m;; ret ()) s = (r, s') →
  ∃ r0, m s = (r0, s') ∧
        match r0 with
        | Ret _ => r = Ret ()
        | Throw e => r = Throw e
        | Undefined => r = Undefined
        end.
Proof.
  unfold bind, ret. destruct (m s) as [[a|e|] s1]; intros [= <- <-];
    (eexists; split; [reflexivity|done]).
Qed.

(** Whichever way it relocates, [DataOverwrite] changes elements only in
    the two ranges it is given. *)
Lemma DataOverwrite_touches in_first in_last out_first (s : state T) r s' :
  0 ≤ in_first ∧ in_last < POINTER_MODULUS ∧
  0 ≤ out_first ∧ out_first + (in_last - in_first) < POINTER_MODULUS →
  DataOverwrite in_first in_last out_first s = (r, s') →
  touches_only (λ a, out_first ≤ a < out_first + (in_last - in_first) ∨
                     in_first ≤ a < in_last) s s'.
Proof.
  unfold DataOverwrite. intros Hb.
  destruct (negb is_copy_assignable || is_nothrow_move_assignable).
  - intros (r0 & [(_ & _ & ->)|[Hle Hrun]]%ranged_inv & _)%void_inv;
      [apply touches_only_refl|].
    apply (forward_n_touches move_cell (λ dst src a, a = dst ∨ a = src)
             move_cell_touches) in Hrun; [|lia..].
    eapply touches_only_weaken; [exact Hrun|].
    intros a (j & Hj & [-> | ->]); lia.
  - intros (r0 & [(_ & _ & ->)|[Hle Hrun]]%ranged_inv & _)%void_inv;
      [apply touches_only_refl|].
    apply (forward_n_touches copy_cell (λ dst src a, a = dst)
             copy_cell_touches) in Hrun; [|lia..].
    eapply touches_only_weaken; [exact Hrun|].
    intros a (j & Hj & ->); lia.
Qed.

(** When it copies, only the destination range changes. *)
Lemma DataOverwrite_copy_touches in_first in_last out_first (s : state T) r s' :
  0 ≤ in_first ∧ in_last < POINTER_MODULUS ∧
  0 ≤ out_first ∧ out_first + (in_last - in_first) < POINTER_MODULUS →
  negb is_copy_assignable || is_nothrow_move_assignable = false →
  DataOverwrite in_first in_last out_first s = (r, s') →
  touches_only (λ a, out_first ≤ a < out_first + (in_last - in_first)) s s'.
Proof.
  unfold DataOverwrite. intros Hb ->.
  intros (r0 & [(_ & _ & ->)|[Hle Hrun]]%ranged_inv & _)%void_inv;
    [apply touches_only_refl|].
  apply (forward_n_touches copy_cell (λ dst src a, a = dst)
           copy_cell_touches) in Hrun; [|lia..].
  eapply touches_only_weaken; [exact Hrun|].
  intros a (j & Hj & ->); lia.
Qed.

Lemma DataOverwrite_value `{!ValueSemantics T}
    in_first in_last out_first (s s' : state T) :
  0 ≤ in_first ∧ in_last < POINTER_MODULUS ∧
  0 ≤ out_first ∧ out_first + (in_last - in_first) < POINTER_MODULUS →
  out_first < in_first ∨ in_last ≤ out_first →
  DataOverwrite in_first in_last out_first s = (Ret (), s') →
  ∀ j x, 0 ≤ j < in_last - in_first →
    cells (mem s) !! (in_first + j) = Some x →
    cells (mem s') !! (out_first + j) = Some x.
Proof.
  unfold DataOverwrite. intros Hb Hsep.
  destruct (negb is_copy_assignable || is_nothrow_move_assignable).
  - intros (r0 & [(_ & -> & _)|[Hle Hrun]]%ranged_inv & Hr0)%void_inv;
      [done|].
    destruct r0 as [o| |]; try done. intros j x Hj.
    eapply (forward_n_value move_cell (λ dst src a, a = dst ∨ a = src)
              move_cell_touches); [tauto|apply move_cell_value|..|exact Hrun|];
      lia.
  - intros (r0 & [(_ & -> & _)|[Hle Hrun]]%ranged_inv & Hr0)%void_inv;
      [done|].
    destruct r0 as [o| |]; try done. intros j x Hj.
    eapply (forward_n_value copy_cell (λ dst src a, a = dst)
              copy_cell_touches); [tauto|apply copy_cell_value|..|exact Hrun|];
      lia.
Qed.

Lemma DataOverwrite_result in_first in_last out_first (s : state T) r s' :
  0 ≤ in_first ∧ in_last < POINTER_MODULUS ∧
  0 ≤ out_first ∧ out_first + (in_last - in_first) < POINTER_MODULUS →
  in_first ≤ in_last →
  (∀ j, 0 ≤ j < in_last - in_first →
     is_Some (cells (mem s) !! (in_first + j)) ∧
     is_Some (cells (mem s) !! (out_first + j))) →
  DataOverwrite in_first in_last out_first s = (r, s') →
  r = Ret () ∨ r = Throw element_error.
Proof.
  unfold DataOverwrite. intros Hb Hle Hm.
  destruct (negb is_copy_assignable || is_nothrow_move_assignable).
  - intros (r0 & [(? & _)|[_ Hrun]]%ranged_inv & Hr0)%void_inv; [lia|].
    apply (forward_n_result move_cell (λ dst src a, a = dst ∨ a = src) True
             move_cell_touches move_cell_result) in Hrun;
      [|lia..|intros; apply Hm; lia].
    destruct Hrun as [[o ->]|[-> _]]; auto.
  - intros (r0 & [(? & _)|[_ Hrun]]%ranged_inv & Hr0)%void_inv; [lia|].
    apply (forward_n_result copy_cell (λ dst src a, a = dst) True
             copy_cell_touches copy_cell_result) in Hrun;
      [|lia..|intros; apply Hm; lia].
    destruct Hrun as [[o ->]|[-> _]]; auto.
Qed.

Lemma DataOverwrite_total `{!NeverThrows T}
    in_first in_last out_first (s : state T) r s' :
  0 ≤ in_first ∧ in_last < POINTER_MODULUS ∧
  0 ≤ out_first ∧ out_first + (in_last - in_first) < POINTER_MODULUS →
  in_first ≤ in_last →
  (∀ j, 0 ≤ j < in_last - in_first →
     is_Some (cells (mem s) !! (in_first + j)) ∧
     is_Some (cells (mem s) !! (out_first + j))) →
  DataOverwrite in_first in_last out_first s = (r, s') →
  r = Ret ().
Proof.
  unfold DataOverwrite. intros Hb Hle Hm.
  destruct (negb is_copy_assignable || is_nothrow_move_assignable).
  - intros (r0 & [(? & _)|[_ Hrun]]%ranged_inv & Hr0)%void_inv; [lia|].
    apply (forward_n_result move_cell (λ dst src a, a = dst ∨ a = src) False
             move_cell_touches move_cell_total) in Hrun;
      [|lia..|intros; apply Hm; lia].
    destruct Hrun as [[o ->]|[_ []]]; auto.
  - intros (r0 & [(? & _)|[_ Hrun]]%ranged_inv & Hr0)%void_inv; [lia|].
    apply (forward_n_result copy_cell (λ dst src a, a = dst) False
             copy_cell_touches copy_cell_total) in Hrun;
      [|lia..|intros; apply Hm; lia].
    destruct Hrun as [[o ->]|[_ []]]; auto.
Qed.

End Relocation.

(** ** The in-place right shift of [Insert] *)

Section Shift.
Context {T : Type} `{Element T}.

Lemma shift_touches first last (s : state T) r s' :
  0 ≤ first ∧ last + 1 < POINTER_MODULUS →
  (if is_nothrow_move_assignable || negb is_copy_assignable
   then std_move_backward first last (last + 1)
   else std_copy_backward first last (last + 1)) s = (r, s') →
  touches_only (λ a, first ≤ a ≤ last) s s'.
Proof.
  intros Hb.
  destruct (is_nothrow_move_assignable || negb is_copy_assignable).
  - intros [(_ & _ & ->)|[Hle Hrun]]%ranged_inv; [apply touches_only_refl|].
    apply (backward_n_touches move_cell (λ dst src a, a = dst ∨ a = src)
             move_cell_touches) in Hrun; [|lia..].
    eapply touches_only_weaken; [exact Hrun|].
    intros a (j & Hj & [-> | ->]); lia.
  - intros [(_ & _ & ->)|[Hle Hrun]]%ranged_inv; [apply touches_only_refl|].
    apply (backward_n_touches copy_cell (λ dst src a, a = dst)
             copy_cell_touches) in Hrun; [|lia..].
    eapply touches_only_weaken; [exact Hrun|].
    intros a (j & Hj & ->); lia.
Qed.

Lemma shift_value `{!ValueSemantics T} first last (s : state T) o s' :
  0 ≤ first ∧ last + 1 < POINTER_MODULUS →
  (if is_nothrow_move_assignable || negb is_copy_assignable
   then std_move_backward first last (last + 1)
   else std_copy_backward first last (last + 1)) s = (Ret o, s') →
  ∀ a x, first ≤ a < last →
    cells (mem s) !! a = Some x → cells (mem s') !! (a + 1) = Some x.
Proof.
  intros Hb.
  destruct (is_nothrow_move_assignable || negb is_copy_assignable).
  - intros [(_ & ? & _)|[Hle Hrun]]%ranged_inv a x Ha Hx; [done|].
    replace (a + 1) with (last + 1 - (last - a)) by lia.
    eapply (backward_n_value move_cell (λ dst src a, a = dst ∨ a = src)
              move_cell_touches); [tauto|apply move_cell_value|..|exact Hrun| |];
      [lia..|].
    by replace (last - (last - a)) with a by lia.
  - intros [(_ & ? & _)|[Hle Hrun]]%ranged_inv a x Ha Hx; [done|].
    replace (a + 1) with (last + 1 - (last - a)) by lia.
    eapply (backward_n_value copy_cell (λ dst src a, a = dst)
              copy_cell_touches); [tauto|apply copy_cell_value|..|exact Hrun| |];
      [lia..|].
    by replace (last - (last - a)) with a by lia.
Qed.

Lemma shift_result first last (s : state T) r s' :
  0 ≤ first ∧ last + 1 < POINTER_MODULUS →
  first ≤ last →
  (∀ a, first ≤ a ≤ last → is_Some (cells (mem s) !! a)) →
  (if is_nothrow_move_assignable || negb is_copy_assignable
   then std_move_backward first last (last + 1)
   else std_copy_backward first last (last + 1)) s = (r, s') →
  (∃ o, r = Ret o) ∨ r = Throw element_error.
Proof.
  intros Hb Hle Hm.
  destruct (is_nothrow_move_assignable || negb is_copy_assignable).
  - intros [(? & _)|[_ Hrun]]%ranged_inv; [lia|].
    apply (backward_n_result move_cell (λ dst src a, a = dst ∨ a = src) True
             move_cell_touches move_cell_result) in Hrun;
      [|lia..|intros; split; apply Hm; lia].
    destruct Hrun as [?|[-> _]]; auto.
  - intros [(? & _)|[_ Hrun]]%ranged_inv; [lia|].
    apply (backward_n_result copy_cell (λ dst src a, a = dst) True
             copy_cell_touches copy_cell_result) in Hrun;
      [|lia..|intros; split; apply Hm; lia].
    destruct Hrun as [?|[-> _]]; auto.
Qed.

Lemma shift_total `{!NeverThrows T} first last (s : state T) r s' :
  0 ≤ first ∧ last + 1 < POINTER_MODULUS →
  first ≤ last →
  (∀ a, first ≤ a ≤ last → is_Some (cells (mem s) !! a)) →
  (if is_nothrow_move_assignable || negb is_copy_assignable
   then std_move_backward first last (last + 1)
   else std_copy_backward first last (last + 1)) s = (r, s') →
  ∃ o, r = Ret o.
Proof.
  intros Hb Hle Hm.
  destruct (is_nothrow_move_assignable || negb is_copy_assignable).
  - intros [(? & _)|[_ Hrun]]%ranged_inv; [lia|].
    apply (backward_n_result move_cell (λ dst src a, a = dst ∨ a = src) False
             move_cell_touches move_cell_total) in Hrun;
      [|lia..|intros; split; apply Hm; lia].
    destruct Hrun as [?|[_ []]]; auto.
  - intros [(? & _)|[_ Hrun]]%ranged_inv; [lia|].
    apply (backward_n_result copy_cell (λ dst src a, a = dst) False
             copy_cell_touches copy_cell_total) in Hrun;
      [|lia..|intros; split; apply Hm; lia].
    destruct Hrun as [?|[_ []]]; auto.
Qed.

End Shift.

(** ** Allocation and release *)

Section Allocation.
Context {T : Type} `{Element T}.

Lemma fresh_addr_above (m : gmap Z T) a :
  is_Some (m !! a) → a < fresh_addr m.
Proof.
  unfold fresh_addr.
  cut (∀ a, is_Some (m !! a) → a ≤ map_fold (λ a _ top, Z.max a top) 0 m).
  { intros Hc Ha. apply Hc in Ha. lia. }
  clear a.
  apply (map_fold_weak_ind (λ top m, ∀ a, is_Some (m !! a) → a ≤ top)).
  - intros a [x Hx]. by rewrite lookup_empty in Hx.
  - intros i x m' top Hi IH a Ha.
    destruct (decide (i = a)) as [->|Hne]; [lia|].
    rewrite lookup_insert_ne in Ha by done. apply IH in Ha. lia.
Qed.

Lemma fresh_addr_pos (m : gmap Z T) : 0 < fresh_addr m.
Proof.
  unfold fresh_addr.
  cut (0 ≤ map_fold (λ a (_ : T) top, Z.max a top) 0 m); [lia|].
  apply (map_fold_weak_ind (λ top (_ : gmap Z T), 0 ≤ top)); [done|].
  intros. lia.
Qed.

Lemma fill_cells_lookup p n x (m : gmap Z T) a :
  fill_cells p n x m !! a =
  if decide (p ≤ a < p + Z.of_nat n) then Some x else m !! a.
Proof.
  revert p. induction n as [|n IH]; intros p; simpl.
  - case_decide; [lia|done].
  - destruct (decide (p = a)) as [->|Hne].
    + rewrite lookup_insert_eq. case_decide; [done|lia].
    + rewrite lookup_insert_ne by done. rewrite IH.
      repeat case_decide; try done; lia.
Qed.

Lemma drop_cells_lookup p n (m : gmap Z T) a :
  drop_cells p n m !! a =
  if decide (p ≤ a < p + Z.of_nat n) then None else m !! a.
Proof.
  revert p. induction n as [|n IH]; intros p; simpl.
  - case_decide; [lia|done].
  - destruct (decide (p = a)) as [->|Hne].
    + rewrite lookup_delete_eq. case_decide; [done|lia].
    + rewrite lookup_delete_ne by done. rewrite IH.
      repeat case_decide; try done; lia.
Qed.

Lemma read_array_Some (m : gmap Z T) p n l :
  read_array m p n = Some l ↔
  length l = n ∧
  ∀ (i : nat) x, l !! i = Some x → m !! (p + Z.of_nat i) = Some x.
Proof.
  unfold read_array. rewrite mapM_Some, Forall2_same_length_lookup, length_seq.
  split.
  - intros [Hlen Hall]. split; [done|]. intros i x Hx.
    apply (Hall i i x); [|done]. apply lookup_seq. split; [done|].
    rewrite Hlen. by apply lookup_lt_Some in Hx.
  - intros [Hlen Hall]. split; [done|].
    intros i k x [-> Hi]%lookup_seq Hx. simpl. by apply Hall.
Qed.

Lemma read_array_mapped (m : gmap Z T) p n :
  (∀ i, 0 ≤ i < Z.of_nat n → is_Some (m !! (p + i))) →
  ∃ l, read_array m p n = Some l.
Proof.
  revert p. unfold read_array. induction n as [|n IH]; intros p Hm.
  - by exists [].
  - destruct (Hm 0) as [x Hx]; [lia|].
    destruct (IH (p + 1)) as [l Hl].
    { intros i Hi. replace (p + 1 + i) with (p + (i + 1)) by lia.
      apply Hm. lia. }
    exists (x :: l). apply mapM_Some, Forall2_same_length_lookup.
    apply mapM_Some, Forall2_same_length_lookup in Hl as [Hlen Hall].
    rewrite length_seq in *. split; [simpl; lia|].
    intros [|i] k y Hk Hy; simpl in *.
    + injection Hk as <-. injection Hy as <-. done.
    + apply lookup_seq in Hk as [-> Hi].
      replace (p + Z.of_nat (1 + i)) with (p + 1 + Z.of_nat (0 + i)) by lia.
      apply (Hall i (0 + i)%nat y); [|done]. apply lookup_seq. done.
Qed.

Lemma wf_elements (s : state T) : wf s → ∃ l, elements s = Some l.
Proof.
  intros Hwf. apply read_array_mapped. intros i Hi.
  apply (wf_cells s Hwf). pose proof (wf_size s Hwf). lia.
Qed.

Lemma elements_length (s : state T) l :
  elements s = Some l → 0 ≤ size_ (this s) →
  Z.of_nat (length l) = size_ (this s).
Proof. intros [Hlen _]%read_array_Some ?. lia. Qed.

End Allocation.

(** ** The scope of a local buffer *)

Section Scope.
Context {T : Type} `{Element T}.

Lemma new_array_Ret n (h : heap T) p h1 :
  new_array n h = (Ret p, h1) →
  (n = 0 ∧ p = nullptr ∧ h1 = h) ∨
  (n ≠ 0 ∧ can_allocate n h = true ∧ n ≤ PTRDIFF_MAX ∧
   p = fresh_addr (cells h) ∧ p + n < POINTER_MODULUS ∧
   h1 = Heap (fill_cells p (Z.to_nat n) value_init (cells h))
             (<[p := n]> (blocks h))).
Proof.
  unfold new_array. destruct (Z.eqb_spec n 0) as [->|Hn].
  - intros [= <- <-]. by left.
  - destruct (can_allocate n h) eqn:Hcan; [|discriminate].
    unfold can_allocate in Hcan. apply andb_prop in Hcan as [H1 H2].
    apply Z.leb_le in H1. apply Z.ltb_lt in H2.
    intros [= <- <-]. right. eauto 8.
Qed.

Lemma new_array_Throw n (h : heap T) e h1 :
  new_array n h = (Throw e, h1) →
  e = bad_alloc ∧ h1 = h ∧ can_allocate n h = false.
Proof.
  unfold new_array. destruct (Z.eqb_spec n 0) as [->|Hn]; [discriminate|].
  destruct (can_allocate n h); [discriminate|].
  by intros [= <- <-].
Qed.

Lemma new_array_defined n (h : heap T) h1 : new_array n h ≠ (Undefined, h1).
Proof.
  unfold new_array. destruct (n =? 0); [discriminate|].
  destruct (negb (can_allocate n h)); discriminate.
Qed.

Lemma with_array_Throw {A} n (body : ArrayPtr → M T (A * ArrayPtr)) s e s' :
  with_array n body s = (Throw e, s') →
  (e = bad_alloc ∧ can_allocate n (mem s) = false ∧ s' = s) ∨
  (∃ p h1 s2 h3,
     new_array n (mem s) = (Ret p, h1) ∧
     body p (State h1 (this s)) = (Throw e, s2) ∧
     delete_array p (mem s2) = Some h3 ∧
     s' = State h3 (this s2)).
Proof.
  unfold with_array, bind, ArrayPtr_new.
  destruct (new_array n (mem s)) as [[p|e0|] h1] eqn:Hnew; try discriminate.
  - destruct (body p (State h1 (this s))) as [[[a0 arr']|e0|] s2] eqn:Hbody;
      try discriminate.
    + unfold ArrayPtr_delete. destruct (delete_array arr' (mem s2)); discriminate.
    + unfold ArrayPtr_delete.
      destruct (delete_array p (mem s2)) as [h3|] eqn:Hdel; [|discriminate].
      intros [= <- <-]. right. by exists p, h1, s2, h3.
  - apply new_array_Throw in Hnew as (-> & -> & Hn).
    intros [= <- <-]. left. by destruct s.
Qed.

(** Releasing the buffer of a well-formed container leaves everything at
    and above the fresh address [p] of a newer array in place. *)
Lemma release_old (s : state T) (h2 : heap T) p n :
  wf s → p = fresh_addr (cells (mem s)) →
  blocks h2 = <[p := n]> (blocks (mem s)) →
  ∃ h3, delete_array (ptr_ (this s)) h2 = Some h3 ∧
        (∀ a, p ≤ a → cells h3 !! a = cells h2 !! a) ∧
        blocks h3 !! p = Some n.
Proof.
  intros Hwf -> Hb. unfold delete_array.
  destruct (Z.eqb_spec (ptr_ (this s)) nullptr) as [Hq|Hq].
  - exists h2. rewrite Hb, lookup_insert_eq. auto.
  - assert (0 < capacity_ (this s)) as Hc.
    { pose proof (wf_size s Hwf). pose proof (wf_null s Hwf). lia. }
    destruct (wf_block s Hwf Hc) as [Hpos Hblk].
    assert (∀ i, 0 ≤ i < capacity_ (this s) →
              ptr_ (this s) + i < fresh_addr (cells (mem s))) as Hbelow.
    { intros i Hi. apply fresh_addr_above. by apply (wf_cells s Hwf). }
    pose proof (Hbelow 0 ltac:(lia)) as Hq0.
    rewrite Hb, lookup_insert_ne, Hblk by lia.
    eexists. split; [reflexivity|]. simpl. split.
    + intros a Ha. rewrite drop_cells_lookup. case_decide as Hin; [|done].
      specialize (Hbelow (a - ptr_ (this s))). lia.
    + rewrite lookup_delete_ne, lookup_insert_eq by lia. done.
Qed.

(** Releasing a freshly allocated array again gives back the old elements. *)
Lemma release_new (h : heap T) (h2 : heap T) p n :
  n ≠ 0 → 0 ≤ n → p = fresh_addr (cells h) →
  blocks h2 = <[p := n]> (blocks h) →
  (∀ a, ¬ (p ≤ a < p + n) →
     cells h2 !! a = fill_cells p (Z.to_nat n) value_init (cells h) !! a) →
  ∃ h3, delete_array p h2 = Some h3 ∧ cells h3 = cells h.
Proof.
  intros Hn0 Hn -> Hb Hc. unfold delete_array.
  pose proof (fresh_addr_pos (cells h)) as Hpos.
  destruct (Z.eqb_spec (fresh_addr (cells h)) nullptr) as [Hq|Hq];
    [unfold nullptr in Hq; lia|].
  rewrite Hb, lookup_insert_eq. eexists. split; [reflexivity|]. simpl.
  apply map_eq. intros a. rewrite drop_cells_lookup.
  case_decide as Hin.
  - symmetry. apply eq_None_not_Some. intros Ha%fresh_addr_above. lia.
  - rewrite Hc by lia. rewrite fill_cells_lookup. case_decide; [lia|done].
Qed.

End Scope.

(** ** Insert *)

Section InsertProofs.
Context {T : Type} `{Element T}.

Lemma touches_only_this P (s s' : state T) :
  touches_only P s s' → s' = State (mem s') (this s).
Proof. intros (Ht & _). destruct s'; simpl in *. by subst. Qed.

(** The block of [UniversalInsert] that fills the new buffer [p] from the
    old one [q]: the new value goes to slot [i], the prefix before it, the
    suffix behind it. *)
Lemma Insert_grow_body p q i sz n item (s1 : state T) rb sb :
  0 ≤ i ≤ sz →
  0 ≤ p ∧ p + sz + 1 < POINTER_MODULUS ∧ 0 ≤ q ∧ q + sz < POINTER_MODULUS →
  (assign_cell (p + i) item;;
   DataOverwrite q (q + i) p;;
   DataOverwrite (q + i) (q + sz) (p + i + 1);;
   array' ← ptr_swap p;
   set_capacity n;;
   ret ((), array')) s1 = (rb, sb) →
  touches_only (λ a, p ≤ a < p + sz + 1 ∨ q ≤ a < q + sz)
    s1 (State (mem sb) (this s1)) ∧
  (negb is_copy_assignable || is_nothrow_move_assignable = false →
   touches_only (λ a, p ≤ a < p + sz + 1) s1 (State (mem sb) (this s1))) ∧
  match rb with
  | Ret (_, arr') =>
      arr' = ptr_ (this s1) ∧
      this sb = Vec p (size_ (this s1)) n ∧
      (ValueSemantics T → q + sz ≤ p →
       cells (mem sb) !! (p + i) = Some (arg_value item) ∧
       (∀ k y, 0 ≤ k < i → cells (mem s1) !! (q + k) = Some y →
               cells (mem sb) !! (p + k) = Some y) ∧
       (∀ k y, i ≤ k < sz → cells (mem s1) !! (q + k) = Some y →
               cells (mem sb) !! (p + k + 1) = Some y))
  | _ => this sb = this s1
  end.
Proof.
  intros Hi Hb. unfold bind at 1.
  destruct (assign_cell (p + i) item s1) as [r1 sA] eqn:HA.
  pose proof (assign_cell_touches _ _ _ _ _ HA) as HtA.
  assert (touches_only (λ a, p ≤ a < p + sz + 1) s1 sA) as HtA'.
  { eapply touches_only_weaken; [exact HtA|]. simpl. intros; lia. }
  destruct r1 as [[]|e|]; cycle 1.
  { intros [= <- <-]. rewrite <- (touches_only_this _ _ _ HtA).
    split; [|split; [intros _; exact HtA'|apply HtA]].
    eapply touches_only_weaken; [exact HtA'|]. simpl. auto. }
  { intros [= <- <-]. rewrite <- (touches_only_this _ _ _ HtA).
    split; [|split; [intros _; exact HtA'|apply HtA]].
    eapply touches_only_weaken; [exact HtA'|]. simpl. auto. }
  unfold bind at 1.
  destruct (DataOverwrite q (q + i) p sA) as [r2 sB] eqn:HB.
  pose proof (DataOverwrite_touches q (q + i) p sA _ sB ltac:(lia) HB) as HtB.
  assert (touches_only (λ a, p ≤ a < p + sz + 1 ∨ q ≤ a < q + sz) s1 sB)
    as HtB1.
  { eapply touches_only_trans; [exact HtA|exact HtB|..]; simpl; intros; lia. }
  assert (negb is_copy_assignable || is_nothrow_move_assignable = false →
          touches_only (λ a, p ≤ a < p + sz + 1) s1 sB) as HtB2.
  { intros Hpol.
    pose proof (DataOverwrite_copy_touches q (q + i) p sA _ sB
                  ltac:(lia) Hpol HB).
    eapply touches_only_trans; [exact HtA|eassumption|..]; simpl; intros; lia. }
  destruct r2 as [[]|e|]; cycle 1.
  { intros [= <- <-]. rewrite <- (touches_only_this _ _ _ HtB1).
    split; [exact HtB1|split; [exact HtB2|apply HtB1]]. }
  { intros [= <- <-]. rewrite <- (touches_only_this _ _ _ HtB1).
    split; [exact HtB1|split; [exact HtB2|apply HtB1]]. }
  unfold bind at 1.
  destruct (DataOverwrite (q + i) (q + sz) (p + i + 1) sB) as [r3 sC] eqn:HC.
  pose proof (DataOverwrite_touches (q + i) (q + sz) (p + i + 1) sB _ sC
                ltac:(lia) HC) as HtC.
  assert (touches_only (λ a, p ≤ a < p + sz + 1 ∨ q ≤ a < q + sz) s1 sC)
    as HtC1.
  { eapply touches_only_trans; [exact HtB1|exact HtC|..]; simpl; intros; lia. }
  assert (negb is_copy_assignable || is_nothrow_move_assignable = false →
          touches_only (λ a, p ≤ a < p + sz + 1) s1 sC) as HtC2.
  { intros Hpol.
    pose proof (DataOverwrite_copy_touches (q + i) (q + sz) (p + i + 1) sB _ sC
                  ltac:(lia) Hpol HC).
    eapply touches_only_trans; [exact (HtB2 Hpol)|eassumption|..]; simpl;
      intros; lia. }
  destruct r3 as [[]|e|]; cycle 1.
  { intros [= <- <-]. rewrite <- (touches_only_this _ _ _ HtC1).
    split; [exact HtC1|split; [exact HtC2|apply HtC1]]. }
  { intros [= <- <-]. rewrite <- (touches_only_this _ _ _ HtC1).
    split; [exact HtC1|split; [exact HtC2|apply HtC1]]. }
  unfold bind, ptr_swap, get_this, set_ptr, set_capacity, ret. simpl.
  intros [= <- <-]. simpl.
  rewrite <- (touches_only_this _ _ _ HtC1).
  assert (this sC = this s1) as HthisC by apply HtC1.
  split; [exact HtC1|]. split; [exact HtC2|].
  split; [by rewrite HthisC|]. split; [by rewrite HthisC|].
  intros VS Hsep.
  destruct HtA as (_ & _ & _ & HfA). destruct HtB as (_ & _ & _ & HfB).
  destruct HtC as (_ & _ & _ & HfC).
  split; [|split].
  - rewrite HfC, HfB by lia.
    destruct (cells (mem s1) !! (p + i)) as [d|] eqn:Hd.
    + destruct (assign_cell_run (p + i) item s1 d Hd) as (sA' & HA' & Hv).
      rewrite HA in HA'. injection HA' as Hf <-.
      symmetry in Hf. apply finish_Ret in Hf.
      destruct (assigned d item) as [c d'] eqn:Hasg. simpl in *. subst c.
      apply assigned_value in Hasg. by subst.
    + rewrite assign_cell_unmapped in HA by done. discriminate.
  - intros k y Hk Hy. rewrite HfC by lia.
    eapply (DataOverwrite_value q (q + i) p); [lia|lia|exact HB|lia|].
    rewrite HfA by lia. done.
  - intros k y Hk Hy.
    replace (p + k + 1) with (p + i + 1 + (k - i)) by lia.
    eapply (DataOverwrite_value (q + i) (q + sz) (p + i + 1));
      [lia|lia|exact HC|lia|].
    replace (q + i + (k - i)) with (q + k) by lia.
    rewrite HfB, HfA by lia. done.
Qed.

Lemma assign_cell_result dst item (s : state T) r s' :
  assign_cell dst item s = (r, s') →
  is_Some (cells (mem s) !! dst) →
  r = Ret () ∨ r = Throw element_error.
Proof.
  intros Hrun [d Hd].
  destruct (assign_cell_run dst item s d Hd) as (s2 & Hrun2 & _).
  rewrite Hrun in Hrun2. injection Hrun2 as -> _. apply finish_cases.
Qed.

Lemma assign_cell_total `{!NeverThrows T} dst item (s : state T) r s' :
  assign_cell dst item s = (r, s') →
  is_Some (cells (mem s) !! dst) →
  r = Ret ().
Proof.
  intros Hrun [d Hd].
  destruct (assign_cell_run dst item s d Hd) as (s2 & Hrun2 & _).
  rewrite Hrun in Hrun2. injection Hrun2 as -> _.
  destruct item; simpl; [rewrite copy_assign_normal|rewrite move_assign_normal];
    done.
Qed.

(** With every slot involved in place, the block returns or an element
    operation has thrown. *)
Lemma Insert_grow_body_result p q i sz n item (s1 : state T) rb sb :
  0 ≤ i ≤ sz →
  0 ≤ p ∧ p + sz + 1 < POINTER_MODULUS ∧ 0 ≤ q ∧ q + sz < POINTER_MODULUS →
  (∀ a, p ≤ a < p + sz + 1 ∨ q ≤ a < q + sz → is_Some (cells (mem s1) !! a)) →
  (assign_cell (p + i) item;;
   DataOverwrite q (q + i) p;;
   DataOverwrite (q + i) (q + sz) (p + i + 1);;
   array' ← ptr_swap p;
   set_capacity n;;
   ret ((), array')) s1 = (rb, sb) →
  ((∃ x, rb = Ret x) ∨ rb = Throw element_error) ∧
  (NeverThrows T → ∃ x, rb = Ret x).
Proof.
  intros Hi Hb Hm. unfold bind at 1.
  destruct (assign_cell (p + i) item s1) as [r1 sA] eqn:HA.
  pose proof (assign_cell_touches _ _ _ _ _ HA) as (_ & _ & HdA & _).
  pose proof (assign_cell_result _ _ _ _ _ HA (Hm (p + i) ltac:(lia))) as HrA.
  assert (NeverThrows T → r1 = Ret ()) as HnA.
  { intros NT. eapply assign_cell_total; [exact HA|]. apply Hm. lia. }
  destruct r1 as [[]|e|]; cycle 1.
  { intros [= <- <-]. destruct HrA as [?|[= ->]]; [done|].
    split; [by right|]. intros NT. by apply HnA in NT. }
  { destruct HrA; discriminate. }
  clear HrA HnA. unfold bind at 1.
  destruct (DataOverwrite q (q + i) p sA) as [r2 sB] eqn:HB.
  pose proof (DataOverwrite_touches q (q + i) p sA _ sB ltac:(lia) HB)
    as (_ & _ & HdB & _).
  assert (∀ j, 0 ≤ j < q + i - q →
            is_Some (cells (mem sA) !! (q + j)) ∧
            is_Some (cells (mem sA) !! (p + j))) as HmB.
  { intros j Hj. rewrite !HdA. split; apply Hm; lia. }
  pose proof (DataOverwrite_result q (q + i) p sA r2 sB ltac:(lia)
                ltac:(lia) HmB HB) as HrB.
  assert (NeverThrows T → r2 = Ret ()) as HnB.
  { intros NT. eapply DataOverwrite_total; [| | |exact HB];
      [lia|lia|exact HmB]. }
  destruct r2 as [[]|e|]; cycle 1.
  { intros [= <- <-]. destruct HrB as [?|[= ->]]; [done|].
    split; [by right|]. intros NT. by apply HnB in NT. }
  { destruct HrB; discriminate. }
  clear HrB HnB. unfold bind at 1.
  destruct (DataOverwrite (q + i) (q + sz) (p + i + 1) sB) as [r3 sC] eqn:HC.
  assert (∀ j, 0 ≤ j < q + sz - (q + i) →
            is_Some (cells (mem sB) !! (q + i + j)) ∧
            is_Some (cells (mem sB) !! (p + i + 1 + j))) as HmC.
  { intros j Hj. rewrite !HdB, !HdA. split; apply Hm; lia. }
  pose proof (DataOverwrite_result (q + i) (q + sz) (p + i + 1) sB r3 sC
                ltac:(lia) ltac:(lia) HmC HC) as HrC.
  assert (NeverThrows T → r3 = Ret ()) as HnC.
  { intros NT. eapply DataOverwrite_total; [| | |exact HC];
      [lia|lia|exact HmC]. }
  destruct r3 as [[]|e|]; cycle 1.
  { intros [= <- <-]. destruct HrC as [?|[= ->]]; [done|].
    split; [by right|]. intros NT. by apply HnC in NT. }
  { destruct HrC; discriminate. }
  unfold bind, ptr_swap, get_this, set_ptr, set_capacity, ret. simpl.
  intros [= <- <-]. split; eauto.
Qed.

(** The in-place branch of [UniversalInsert]: the suffix moves one slot to
    the right, then the new value is written. *)
Lemma Insert_inplace_body q i sz item (s : state T) rb sb :
  0 ≤ i ≤ sz →
  0 ≤ q ∧ q + sz + 1 < POINTER_MODULUS →
  ((if is_nothrow_move_assignable || negb is_copy_assignable
    then std_move_backward (q + i) (q + sz) (q + sz + 1)
    else std_copy_backward (q + i) (q + sz) (q + sz + 1));;
   assign_cell (q + i) item) s = (rb, sb) →
  touches_only (λ a, q + i ≤ a ≤ q + sz) s sb ∧
  (rb = Ret () → ValueSemantics T →
   cells (mem sb) !! (q + i) = Some (arg_value item) ∧
   (∀ k y, i ≤ k < sz → cells (mem s) !! (q + k) = Some y →
           cells (mem sb) !! (q + k + 1) = Some y)) ∧
  ((∀ a, q + i ≤ a ≤ q + sz → is_Some (cells (mem s) !! a)) →
   (rb = Ret () ∨ rb = Throw element_error) ∧
   (NeverThrows T → rb = Ret ())).
Proof.
  intros Hi Hb. unfold bind at 1.
  match goal with |- context [?m s] =>
    destruct (m s) as [r1 sA] eqn:HA end.
  pose proof (shift_touches (q + i) (q + sz) s _ sA ltac:(lia) HA) as HtA.
  destruct r1 as [o|e|]; cycle 1.
  { intros [= <- <-]. split; [exact HtA|]. split; [done|]. intros Hm.
    destruct (shift_result (q + i) (q + sz) s _ _ ltac:(lia) ltac:(lia) Hm HA)
      as [[? ?]|[= ->]]; [done|].
    split; [by right|]. intros NT.
    by destruct (shift_total (q + i) (q + sz) s _ _ ltac:(lia) ltac:(lia)
                   Hm HA). }
  { intros [= <- <-]. split; [exact HtA|]. split; [done|]. intros Hm.
    by destruct (shift_result (q + i) (q + sz) s _ _ ltac:(lia) ltac:(lia)
                   Hm HA) as [[? ?]|?]. }
  intros HB. pose proof (assign_cell_touches _ _ _ _ _ HB) as HtB.
  split; [|split].
  - eapply touches_only_trans; [exact HtA|exact HtB|..]; simpl; intros; lia.
  - intros -> VS. destruct HtB as (_ & _ & _ & HfB). split.
    + destruct (cells (mem sA) !! (q + i)) as [d|] eqn:Hd.
      * destruct (assign_cell_run (q + i) item sA d Hd) as (sB' & HB' & Hv).
        rewrite HB in HB'. injection HB' as Hf <-.
        symmetry in Hf. apply finish_Ret in Hf.
        destruct (assigned d item) as [c d'] eqn:Hasg. simpl in *. subst c.
        apply assigned_value in Hasg. by subst.
      * rewrite assign_cell_unmapped in HB by done. discriminate.
    + intros k y Hk Hy. rewrite HfB by lia.
      replace (q + k + 1) with ((q + k) + 1) by lia.
      eapply shift_value; [|exact HA|lia|done]. lia.
  - intros Hm.
    assert (is_Some (cells (mem sA) !! (q + i))) as HmA.
    { destruct HtA as (_ & _ & HdA & _). rewrite HdA. apply Hm. lia. }
    split.
    + eapply assign_cell_result; eauto.
    + intros NT. eapply assign_cell_total; eauto.
Qed.

Lemma Insert_tail {A} (m : M T A) idx (s : state T) :
  (m;; incr_size;; v' ← get_this; ret (vec_begin v' +ₚ idx)) s =
  match m s with
  | (Ret _, s2) =>
      (Ret (ptr_ (this s2) +ₚ idx),
       State (mem s2) (Vec (ptr_ (this s2)) (size_wrap (size_ (this s2) + 1))
                           (capacity_ (this s2))))
  | (Throw e, s2) => (Throw e, s2)
  | (Undefined, s2) => (Undefined, s2)
  end.
Proof. unfold bind at 1. by destruct (m s) as [[a|e|] s2]. Qed.

Lemma grown_wf c : 0 ≤ c ≤ PTRDIFF_MAX → grown c = Z.max 1 (2 * c).
Proof.
  intros Hc. unfold grown. destruct (Z.eqb_spec c 0) as [->|Hne]; [done|].
  rewrite size_wrap_small; [lia|]. pose proof PTRDIFF_MAX_lt. lia.
Qed.

Lemma with_array_run {A} n (body : ArrayPtr → M T (A * ArrayPtr)) s :
  with_array n body s =
  match new_array n (mem s) with
  | (Ret p, h1) =>
      match body p (State h1 (this s)) with
      | (Ret (a, arr'), s2) =>
          match delete_array arr' (mem s2) with
          | Some h3 => (Ret a, State h3 (this s2))
          | None => (Undefined, s2)
          end
      | (Throw e, s2) =>
          match delete_array p (mem s2) with
          | Some h3 => (Throw e, State h3 (this s2))
          | None => (Undefined, s2)
          end
      | (Undefined, s2) => (Undefined, s2)
      end
  | (Throw e, h1) => (Throw e, State h1 (this s))
  | (Undefined, h1) => (Undefined, State h1 (this s))
  end.
Proof.
  unfold with_array, bind, ArrayPtr_new.
  destruct (new_array n (mem s)) as [[p|e|] h1]; try done.
  destruct (body p (State h1 (this s))) as [[[a arr']|e|] s2]; try done;
    unfold ArrayPtr_delete.
  - by destruct (delete_array arr' (mem s2)).
  - by destruct (delete_array p (mem s2)).
Qed.

Lemma delete_array_live (h : heap T) p n :
  blocks h !! p = Some n → p ≠ nullptr →
  delete_array p h =
  Some (Heap (drop_cells p (Z.to_nat n) (cells h)) (delete p (blocks h))).
Proof.
  intros Hb Hp. unfold delete_array.
  destruct (Z.eqb_spec p nullptr); [done|]. by rewrite Hb.
Qed.

Lemma elements_intro (s : state T) L :
  size_ (this s) = Z.of_nat (length L) →
  (∀ (k : nat) y, L !! k = Some y →
     cells (mem s) !! (ptr_ (this s) + Z.of_nat k) = Some y) →
  elements s = Some L.
Proof.
  intros Hsz Hall. apply read_array_Some. split; [lia|done].
Qed.

Lemma elements_lookup (s : state T) l (k : nat) y :
  elements s = Some l → l !! k = Some y →
  cells (mem s) !! (ptr_ (this s) + Z.of_nat k) = Some y.
Proof. intros [_ Hall]%read_array_Some. apply Hall. Qed.

Lemma inserted_content (m m' : gmap Z T) q p (l : list T) (i : nat) x :
  (i ≤ length l)%nat →
  (∀ (k : nat) y, l !! k = Some y → m !! (q + Z.of_nat k) = Some y) →
  m' !! (p + Z.of_nat i) = Some x →
  (∀ k y, 0 ≤ k < Z.of_nat i → m !! (q + k) = Some y → m' !! (p + k) = Some y) →
  (∀ k y, Z.of_nat i ≤ k < Z.of_nat (length l) →
     m !! (q + k) = Some y → m' !! (p + k + 1) = Some y) →
  ∀ (k : nat) y, (take i l ++ x :: drop i l) !! k = Some y →
    m' !! (p + Z.of_nat k) = Some y.
Proof.
  intros Hi Hl Hx Hpre Hsuf k y Hk.
  assert (length (take i l) = i) as Hlen by (rewrite length_take; lia).
  destruct (decide (k < i)%nat) as [Hlt|Hge].
  - rewrite lookup_app_l in Hk by lia. rewrite lookup_take_lt in Hk by done.
    apply Hpre; [lia|]. by apply Hl.
  - rewrite lookup_app_r in Hk by lia. rewrite Hlen in Hk.
    destruct (k - i)%nat as [|j] eqn:Hj; simpl in Hk.
    + injection Hk as <-. by replace k with i by lia.
    + rewrite lookup_drop in Hk. pose proof (lookup_lt_Some _ _ _ Hk).
      replace (p + Z.of_nat k) with (p + Z.of_nat (i + j) + 1) by lia.
      apply Hsuf; [lia|]. by apply Hl.
Qed.

Lemma Insert_out_of_range pos item (s : state T) :
  0 ≤ ptr_ (this s) + size_ (this s) < POINTER_MODULUS →
  pos < ptr_ (this s) ∨ ptr_ (this s) + size_ (this s) < pos →
  Insert pos item s = (Throw out_of_range, s).
Proof.
  intros Hb Hout.
  unfold Insert, UniversalInsert, bind, get_this, IteratorChecking,
    cbegin, cend. rewrite ptr_add_small by done.
  destruct (Z.ltb_spec pos (ptr_ (this s))),
    (Z.ltb_spec (ptr_ (this s) + size_ (this s)) pos); simpl; try done; lia.
Qed.

Lemma Insert_in_range pos item (s : state T) :
  0 ≤ ptr_ (this s) → ptr_ (this s) + size_ (this s) < POINTER_MODULUS →
  ptr_ (this s) ≤ pos ≤ ptr_ (this s) + size_ (this s) →
  size_ (this s) < SIZE_MODULUS →
  Insert pos item s =
  (let q := ptr_ (this s) in
   let sz := size_ (this s) in
   let idx := pos - q in
   (if sz =? capacity_ (this s) then
      let new_capacity := grown (capacity_ (this s)) in
      with_array new_capacity (λ array,
        assign_cell (array +ₚ idx) item;;
        DataOverwrite q (q + idx) array;;
        DataOverwrite (q + idx) (q + sz) (array +ₚ idx +ₚ 1);;
        array' ← ptr_swap array;
        set_capacity new_capacity;;
        ret ((), array'))
    else
      (if is_nothrow_move_assignable || negb is_copy_assignable
       then std_move_backward (q + idx) (q + sz) ((q + sz) +ₚ 1)
       else std_copy_backward (q + idx) (q + sz) ((q + sz) +ₚ 1));;
      assign_cell (q + idx) item);;
   incr_size;;
   v' ← get_this;
   ret (vec_begin v' +ₚ idx)) s.
Proof.
  intros Hq Hb Hin Hsz. unfold Insert, UniversalInsert.
  unfold bind at 1. unfold get_this at 1. unfold bind at 1.
  unfold IteratorChecking, cbegin, cend, vec_begin, vec_end.
  rewrite (ptr_add_small (ptr_ (this s)) (size_ (this s))) by lia.
  destruct (Z.ltb_spec pos (ptr_ (this s))); [lia|].
  destruct (Z.ltb_spec (ptr_ (this s) + size_ (this s)) pos); [lia|].
  simpl. rewrite size_wrap_small by lia.
  rewrite (ptr_add_small (ptr_ (this s)) (pos - ptr_ (this s))) by lia.
  done.
Qed.

Lemma wf_ptr (s : state T) : wf s → 0 ≤ ptr_ (this s).
Proof.
  intros Hwf. destruct (decide (capacity_ (this s) = 0)) as [Hz|Hnz].
  - rewrite (wf_null s Hwf Hz). done.
  - pose proof (wf_size s Hwf). destruct (wf_block s Hwf); lia.
Qed.

(** [Insert] into a full container: a new buffer of the grown capacity. *)
Lemma Insert_growth pos item (s : state T) r s' :
  wf s → size_ (this s) = capacity_ (this s) →
  ptr_ (this s) ≤ pos ≤ ptr_ (this s) + size_ (this s) →
  Insert pos item s = (r, s') →
  let i := pos - ptr_ (this s) in
  let n := Z.max 1 (2 * capacity_ (this s)) in
  (r = Throw bad_alloc ∧ s' = s ∧ can_allocate n (mem s) = false) ∨
  (r = Throw element_error ∧ this s' = this s ∧
   (negb is_copy_assignable || is_nothrow_move_assignable = false →
    cells (mem s') = cells (mem s)) ∧
   ¬ NeverThrows T) ∨
  (r = Ret (ptr_ (this s') + i) ∧ can_allocate n (mem s) = true ∧
   size_ (this s') = size_ (this s) + 1 ∧ capacity_ (this s') = n ∧
   wf s' ∧
   (ValueSemantics T → ∀ l, elements s = Some l →
      elements s' =
      Some (take (Z.to_nat i) l ++ arg_value item :: drop (Z.to_nat i) l))).
Proof.
  intros Hwf Hfull Hin.
  pose proof (wf_size s Hwf) as Hsz. pose proof (wf_capacity s Hwf) as Hcap.
  pose proof (wf_space s Hwf) as Hspace. pose proof (wf_ptr s Hwf) as Hq.
  pose proof PTRDIFF_MAX_lt as Hmax.
  rewrite Insert_in_range by lia. cbv zeta.
  rewrite Insert_tail. rewrite (proj2 (Z.eqb_eq _ _) Hfull).
  rewrite with_array_run, grown_wf by lia.
  set (q := ptr_ (this s)) in *. set (sz := size_ (this s)) in *.
  set (c := capacity_ (this s)) in *. set (i := pos - q).
  set (n := Z.max 1 (2 * c)). intros Hrun.
  destruct (new_array n (mem s)) as [[p|e|] h1] eqn:Hnew; cycle 1.
  { apply new_array_Throw in Hnew as (-> & -> & Hn).
    injection Hrun as <- <-. left. by destruct s. }
  { by apply new_array_defined in Hnew. }
  apply new_array_Ret in Hnew
    as [(Hn & _)|(_ & Hcan & Hn & Hp & Hpn & ->)]; [lia|].
  assert (0 < p) as Hppos by (rewrite Hp; apply fresh_addr_pos).
  assert (∀ a, p ≤ a → cells (mem s) !! a = None) as Hfresh.
  { intros a Ha. apply eq_None_not_Some. intros Hs%fresh_addr_above. lia. }
  assert (q + sz ≤ p) as Hsep.
  { destruct (decide (sz = 0)) as [Hz|Hnz].
    - pose proof (wf_null s Hwf) as Hnull.
      fold c q in Hnull. unfold nullptr in Hnull. lia.
    - pose proof (wf_cells s Hwf (sz - 1)) as Hlast. fold c q in Hlast.
      apply fresh_addr_above in Hlast; lia. }
  cbv beta in Hrun.
  rewrite (ptr_add_small p i), (ptr_add_small (p + i) 1) in Hrun by lia.
  set (s1 := State _ (this s)) in Hrun.
  assert (∀ a, p ≤ a < p + n → cells (mem s1) !! a = Some value_init) as Hnewc.
  { intros a Ha. simpl. rewrite fill_cells_lookup. case_decide; [done|lia]. }
  assert (∀ a, a < p → cells (mem s1) !! a = cells (mem s) !! a) as Holdc.
  { intros a Ha. simpl. rewrite fill_cells_lookup. case_decide; [lia|done]. }
  match type of Hrun with context [?m s1] =>
    destruct (m s1) as [rb sb] eqn:Hbody end.
  pose proof (Insert_grow_body p q i sz n item s1 rb sb ltac:(lia) ltac:(lia)
                Hbody) as (Ht & Htcopy & Hres).
  assert (∀ a, p ≤ a < p + sz + 1 ∨ q ≤ a < q + sz →
            is_Some (cells (mem s1) !! a)) as Hmapped.
  { intros a [Ha|Ha].
    - rewrite Hnewc by lia. eauto.
    - rewrite Holdc by lia. replace a with (q + (a - q)) by lia.
      apply (wf_cells s Hwf). lia. }
  pose proof (Insert_grow_body_result p q i sz n item s1 rb sb ltac:(lia)
                ltac:(lia) Hmapped Hbody) as (Hcls & Hnt).
  destruct Ht as (_ & Hblk & Hdom & Hframe). simpl in Hblk, Hdom, Hframe.
  destruct rb as [[[] arr']|e|]; cycle 1.
  - (* an element operation threw while the new buffer was filled *)
    destruct Hcls as [[? ?]|[= ->]]; [done|].
    rewrite (delete_array_live _ p n) in Hrun; cycle 1.
    { rewrite Hblk. apply lookup_insert_eq. }
    { unfold nullptr. lia. }
    injection Hrun as <- <-. right. left. simpl.
    split; [done|]. split; [done|]. split.
    + intros Hpol. destruct (Htcopy Hpol) as (_ & _ & _ & Hfc). simpl in Hfc.
      apply map_eq. intros a. rewrite drop_cells_lookup. case_decide as Ha.
      * by rewrite Hfresh by lia.
      * rewrite Hfc by lia. rewrite fill_cells_lookup.
        case_decide; [lia|done].
    + intros NT. by destruct (Hnt NT).
  - destruct Hcls as [[? ?]|?]; done.
  - (* the new buffer is complete and takes the place of the old one *)
    destruct Hres as (-> & Hthis & Hcontent).
    destruct (release_old s (mem sb) p n Hwf Hp) as (h3 & Hdel & Hkeep & Hb3).
    { by rewrite Hblk. }
    change (ptr_ (this s1)) with (ptr_ (this s)) in Hrun.
    rewrite Hdel in Hrun. rewrite Hthis in Hrun. simpl in Hrun.
    rewrite ptr_add_small in Hrun by lia.
    injection Hrun as <- <-. simpl. right. right.
    change (size_ (this s)) with sz. rewrite size_wrap_small by lia.
    split; [done|]. split; [done|]. split; [done|]. split; [done|].
    split.
    + constructor; simpl; [lia|lia|lia|lia|..].
      * intros _. split; [lia|done].
      * intros j Hj. rewrite Hkeep by lia. apply Hdom.
        rewrite fill_cells_lookup. case_decide; [eauto|lia].
    + intros VS l Hl.
      pose proof (elements_length s l Hl ltac:(lia)) as Hlen. fold sz in Hlen.
      destruct (Hcontent VS Hsep) as (Hx & Hpre & Hsuf).
      apply elements_intro; simpl.
      * rewrite length_app, length_take. simpl. rewrite length_drop. lia.
      * intros k y Hk. rewrite Hkeep by lia.
        eapply (inserted_content (cells (mem s1)) (cells (mem sb)) q p l
                  (Z.to_nat i)); try exact Hk.
        -- lia.
        -- intros k' y' Hk'. pose proof (lookup_lt_Some _ _ _ Hk').
           rewrite Holdc by lia. by apply (elements_lookup s l).
        -- by replace (Z.of_nat (Z.to_nat i)) with i by lia.
        -- intros k' y' Hk'. apply Hpre. lia.
        -- intros k' y' Hk'. apply Hsuf. lia.
Qed.

(** [Insert] with room to spare: the buffer stays, the suffix shifts. *)
Lemma Insert_inplace pos item (s : state T) r s' :
  wf s → size_ (this s) ≠ capacity_ (this s) →
  ptr_ (this s) ≤ pos ≤ ptr_ (this s) + size_ (this s) →
  Insert pos item s = (r, s') →
  let i := pos - ptr_ (this s) in
  touches_only (λ a, pos ≤ a ≤ ptr_ (this s) + size_ (this s))
    s (State (mem s') (this s)) ∧
  ((r = Throw element_error ∧ this s' = this s ∧ ¬ NeverThrows T) ∨
   (r = Ret pos ∧
    this s' = Vec (ptr_ (this s)) (size_ (this s) + 1) (capacity_ (this s)) ∧
    wf s' ∧
    (ValueSemantics T → ∀ l, elements s = Some l →
       elements s' =
       Some (take (Z.to_nat i) l ++ arg_value item :: drop (Z.to_nat i) l)))).
Proof.
  intros Hwf Hroom Hin.
  pose proof (wf_size s Hwf) as Hsz. pose proof (wf_capacity s Hwf) as Hcap.
  pose proof (wf_space s Hwf) as Hspace. pose proof (wf_ptr s Hwf) as Hq.
  pose proof PTRDIFF_MAX_lt as Hmax.
  rewrite Insert_in_range by lia. cbv zeta.
  rewrite Insert_tail. rewrite (proj2 (Z.eqb_neq _ _) Hroom).
  set (q := ptr_ (this s)) in *. set (sz := size_ (this s)) in *.
  set (c := capacity_ (this s)) in *. set (i := pos - q).
  rewrite (ptr_add_small (q + sz) 1) by lia.
  replace pos with (q + i) by lia.
  match goal with |- context [?m s] =>
    destruct (m s) as [rb sb] eqn:Hbody end.
  pose proof (Insert_inplace_body q i sz item s rb sb ltac:(lia) ltac:(lia)
                Hbody) as (Ht & Hval & Hres).
  destruct Hres as [Hcls Hnt].
  { intros a Ha. replace a with (q + (a - q)) by lia.
    apply (wf_cells s Hwf). fold c. lia. }
  pose proof Ht as (Hthis & Hblk & Hdom & Hframe).
  destruct rb as [[]|e|]; cycle 1.
  - destruct Hcls as [?|[= ->]]; [done|]. intros [= <- <-].
    rewrite <- Hthis at 2. split; [by destruct sb|]. left.
    split; [done|]. split; [done|]. intros NT. by specialize (Hnt NT).
  - by destruct Hcls.
  - rewrite Hthis. fold q. rewrite ptr_add_small by lia.
    intros [= <- <-]. simpl. split.
    { rewrite <- Hthis. by destruct sb. }
    right. fold sz c. rewrite size_wrap_small by lia.
    split; [done|]. split; [done|]. split.
    + constructor; simpl; fold q sz c; [lia|lia|lia|..].
      * intros Hz. apply (wf_null s Hwf). done.
      * intros Hpos. rewrite Hblk. apply (wf_block s Hwf). done.
      * intros j Hj. rewrite Hdom. apply (wf_cells s Hwf). done.
    + intros VS l Hl.
      pose proof (elements_length s l Hl ltac:(lia)) as Hlen. fold sz in Hlen.
      destruct (Hval eq_refl VS) as (Hx & Hsuf).
      apply elements_intro; simpl.
      * rewrite length_app, length_take. simpl. rewrite length_drop. lia.
      * intros k y Hk.
        eapply (inserted_content (cells (mem s)) (cells (mem sb)) q q l
                  (Z.to_nat i)); try exact Hk.
        -- lia.
        -- intros k' y' Hk'. by apply (elements_lookup s l).
        -- by replace (Z.of_nat (Z.to_nat i)) with i by lia.
        -- intros k' y' Hk' Hy'. rewrite Hframe by lia. done.
        -- intros k' y' Hk'. apply Hsuf. lia.
Qed.

(** Every way a call of [Insert] on a well-formed container can end. *)
Lemma Insert_spec pos item (s : state T) r s' :
  wf s → Insert pos item s = (r, s') →
  let q := ptr_ (this s) in
  let sz := size_ (this s) in
  let c := capacity_ (this s) in
  ((pos < q ∨ q + sz < pos) ∧ r = Throw out_of_range ∧ s' = s) ∨
  (q ≤ pos ≤ q + sz ∧
   ((r = Throw bad_alloc ∧ s' = s ∧ sz = c ∧
     can_allocate (Z.max 1 (2 * c)) (mem s) = false) ∨
    (r = Throw element_error ∧ this s' = this s ∧ ¬ NeverThrows T) ∨
    (r = Ret (ptr_ (this s') + (pos - q)) ∧
     size_ (this s') = sz + 1 ∧
     capacity_ (this s') = (if sz =? c then Z.max 1 (2 * c) else c) ∧
     wf s' ∧
     (ValueSemantics T → ∀ l, elements s = Some l →
        elements s' =
        Some (take (Z.to_nat (pos - q)) l ++
              arg_value item :: drop (Z.to_nat (pos - q)) l))))).
Proof.
  intros Hwf Hrun q sz c.
  pose proof (wf_size s Hwf) as Hsz. pose proof (wf_space s Hwf) as Hspace.
  pose proof (wf_ptr s Hwf) as Hq.
  destruct (decide (q ≤ pos ≤ q + sz)) as [Hin|Hout].
  - right. split; [done|].
    destruct (decide (sz = c)) as [Hfull|Hroom].
    + destruct (Insert_growth pos item s r s' Hwf Hfull Hin Hrun)
        as [(-> & -> & Hn)|[(-> & Hthis & _ & Hnt)|
                            (-> & Hn & Hsz' & Hcap & Hwf' & Hl)]].
      * left. done.
      * right. left. done.
      * right. right. rewrite (proj2 (Z.eqb_eq sz c) Hfull). done.
    + destruct (Insert_inplace pos item s r s' Hwf Hroom Hin Hrun)
        as (_ & [(-> & Hthis & Hnt)|(-> & Hthis & Hwf' & Hl)]).
      * right. left. done.
      * right. right. rewrite Hthis. simpl.
        rewrite (proj2 (Z.eqb_neq sz c) Hroom).
        split; [f_equal; unfold q; lia|]. done.
  - left. rewrite Insert_out_of_range in Hrun by (unfold q, sz in *; lia).
    injection Hrun as <- <-. split; [lia|done].
Qed.

End InsertProofs.

(** ** PushBack *)

Section PushBackProofs.
Context {T : Type} `{Element T}.

Lemma DataOverwrite_empty a out (s : state T) :
  DataOverwrite a a out s = (Ret (), s).
Proof.
  unfold DataOverwrite, std_move, std_copy, ranged, bind.
  rewrite Z.ltb_irrefl, Z.sub_diag. simpl.
  by destruct (negb is_copy_assignable || is_nothrow_move_assignable).
Qed.

Lemma with_array_ext {A} n (body1 body2 : ArrayPtr → M T (A * ArrayPtr)) s :
  (∀ p s1, body1 p s1 = body2 p s1) →
  with_array n body1 s = with_array n body2 s.
Proof.
  intros Hext. rewrite !with_array_run.
  destruct (new_array n (mem s)) as [[p|e|] h1]; try done. by rewrite Hext.
Qed.

(** [PushBack(item)] does what [Insert(end(), item)] does. *)
Lemma PushBack_as_Insert item (s : state T) :
  0 ≤ ptr_ (this s) → ptr_ (this s) + size_ (this s) < POINTER_MODULUS →
  0 ≤ size_ (this s) < SIZE_MODULUS →
  PushBack item s =
  (Insert (ptr_ (this s) + size_ (this s)) item;; ret ()) s.
Proof.
  intros Hq Hb Hsz. unfold bind at 1.
  rewrite Insert_in_range by lia. cbv zeta.
  replace (ptr_ (this s) + size_ (this s) - ptr_ (this s))
    with (size_ (this s)) by lia.
  rewrite Insert_tail.
  unfold PushBack, UniversalPushBack. unfold bind at 1. unfold get_this at 1.
  unfold bind at 1. unfold vec_begin, vec_end.
  rewrite (ptr_add_small (ptr_ (this s)) (size_ (this s))) by lia.
  destruct (size_ (this s) =? capacity_ (this s)).
  - rewrite (with_array_ext _ _
      (λ array,
         assign_cell (array +ₚ size_ (this s)) item;;
         DataOverwrite (ptr_ (this s)) (ptr_ (this s) + size_ (this s)) array;;
         DataOverwrite (ptr_ (this s) + size_ (this s))
           (ptr_ (this s) + size_ (this s)) (array +ₚ size_ (this s) +ₚ 1);;
         array' ← ptr_swap array;
         set_capacity (grown (capacity_ (this s)));;
         ret ((), array'))).
    + by destruct (with_array _ _ s) as [[[]|e|] s2].
    + intros p s1. apply bind_ext. intros _ sA. apply bind_ext. intros _ sB.
      symmetry. unfold bind at 1. by rewrite DataOverwrite_empty.
  - unfold bind.
    assert (∀ d s0,
      (if is_nothrow_move_assignable || negb is_copy_assignable
       then std_move_backward (ptr_ (this s) + size_ (this s))
              (ptr_ (this s) + size_ (this s)) d
       else std_copy_backward (ptr_ (this s) + size_ (this s))
              (ptr_ (this s) + size_ (this s)) d) s0 =
      (Ret d, s0 : state T)) as ->.
    { intros d s0. unfold std_move_backward, std_copy_backward, ranged.
      rewrite Z.ltb_irrefl, Z.sub_diag. simpl.
      by destruct (is_nothrow_move_assignable || negb is_copy_assignable). }
    by destruct (assign_cell _ item s) as [[[]|e|] s2].
Qed.

(** Every way a call of [PushBack] on a well-formed container can end. *)
Lemma PushBack_spec item (s : state T) r s' :
  wf s → PushBack item s = (r, s') →
  let sz := size_ (this s) in
  let c := capacity_ (this s) in
  (r = Throw bad_alloc ∧ s' = s ∧ sz = c ∧
   can_allocate (Z.max 1 (2 * c)) (mem s) = false) ∨
  (r = Throw element_error ∧ this s' = this s ∧ ¬ NeverThrows T) ∨
  (r = Ret () ∧
   size_ (this s') = sz + 1 ∧
   capacity_ (this s') = (if sz =? c then Z.max 1 (2 * c) else c) ∧
   wf s' ∧
   (ValueSemantics T → ∀ l, elements s = Some l →
      elements s' = Some (l ++ [arg_value item]))).
Proof.
  intros Hwf Hrun sz c.
  pose proof (wf_size s Hwf) as Hsz. pose proof (wf_capacity s Hwf) as Hcap.
  pose proof (wf_space s Hwf) as Hspace. pose proof (wf_ptr s Hwf) as Hq.
  pose proof PTRDIFF_MAX_lt as Hmax.
  rewrite PushBack_as_Insert in Hrun by lia.
  apply void_inv in Hrun as (r0 & Hrun & Hr).
  pose proof (Insert_spec _ _ _ _ _ Hwf Hrun) as Hspec. cbv zeta in Hspec.
  destruct Hspec as [(Hout & _)|(_ & Hin)]; [lia|].
  destruct Hin as [(-> & ?)|[(-> & ?)|(-> & Hs & Hc & Hwf' & Hl)]];
    subst r; auto.
  right. right. split; [done|]. repeat (split; [done|]).
  intros VS l Hel. rewrite (Hl VS l Hel).
  pose proof (elements_length s l Hel ltac:(lia)) as Hlen.
  replace (Z.to_nat (ptr_ (this s) + size_ (this s) - ptr_ (this s)))
    with (length l) by lia.
  by rewrite take_ge, drop_ge by lia.
Qed.

(** [PushBack] with room to spare is one assignment into slot [size]. *)
Lemma PushBack_room item (s : state T) :
  size_ (this s) ≠ capacity_ (this s) →
  PushBack item s =
  (assign_cell (ptr_ (this s) +ₚ size_ (this s)) item;; incr_size) s.
Proof.
  intros Hroom. unfold PushBack, UniversalPushBack.
  unfold bind at 1. unfold get_this at 1.
  by rewrite (proj2 (Z.eqb_neq _ _) Hroom).
Qed.

End PushBackProofs.

(** ** Erase *)

Section EraseProofs.
Context {T : Type} `{Element T}.

(** The bound [cend() - 1] is the last element as long as the container is
    not both empty and without a buffer. *)
Lemma Erase_out_of_range pos (s : state T) :
  0 < ptr_ (this s) + size_ (this s) < POINTER_MODULUS →
  pos < ptr_ (this s) ∨ ptr_ (this s) + size_ (this s) ≤ pos →
  Erase pos s = (Throw out_of_range, s).
Proof.
  intros Hb Hout.
  unfold Erase, bind, get_this, IteratorChecking, cbegin, cend.
  rewrite (ptr_add_small (ptr_ (this s)) (size_ (this s))) by lia.
  rewrite ptr_add_small by lia.
  destruct (Z.ltb_spec pos (ptr_ (this s))),
    (Z.ltb_spec (ptr_ (this s) + size_ (this s) + -1) pos);
    simpl; try done; lia.
Qed.

Lemma Erase_in_range pos (s : state T) :
  0 ≤ ptr_ (this s) → ptr_ (this s) + size_ (this s) < POINTER_MODULUS →
  ptr_ (this s) ≤ pos < ptr_ (this s) + size_ (this s) →
  Erase pos s =
  (DataOverwrite (pos + 1) (ptr_ (this s) + size_ (this s)) pos;;
   decr_size;; ret pos) s.
Proof.
  intros Hq Hb Hin. unfold Erase.
  unfold bind at 1. unfold get_this at 1. unfold bind at 1.
  unfold IteratorChecking, cbegin, cend, vec_end.
  rewrite (ptr_add_small (ptr_ (this s)) (size_ (this s))) by lia.
  rewrite !ptr_add_small by lia.
  destruct (Z.ltb_spec pos (ptr_ (this s))); [lia|].
  destruct (Z.ltb_spec (ptr_ (this s) + size_ (this s) + -1) pos); [lia|].
  done.
Qed.

Lemma erased_content (m m' : gmap Z T) q (l : list T) (i : nat) :
  (i < length l)%nat →
  (∀ (k : nat) y, l !! k = Some y → m !! (q + Z.of_nat k) = Some y) →
  (∀ a, a < q + Z.of_nat i → m' !! a = m !! a) →
  (∀ k y, Z.of_nat i ≤ k < Z.of_nat (length l) - 1 →
     m !! (q + k + 1) = Some y → m' !! (q + k) = Some y) →
  ∀ (k : nat) y, (take i l ++ drop (S i) l) !! k = Some y →
    m' !! (q + Z.of_nat k) = Some y.
Proof.
  intros Hi Hl Hpre Hsuf k y Hk.
  assert (length (take i l) = i) as Hlen by (rewrite length_take; lia).
  destruct (decide (k < i)%nat) as [Hlt|Hge].
  - rewrite lookup_app_l in Hk by lia. rewrite lookup_take_lt in Hk by done.
    rewrite Hpre by lia. by apply Hl.
  - rewrite lookup_app_r in Hk by lia. rewrite Hlen in Hk.
    rewrite lookup_drop in Hk. pose proof (lookup_lt_Some _ _ _ Hk).
    apply Hsuf; [lia|].
    replace (q + Z.of_nat k + 1) with (q + Z.of_nat (S i + (k - i))) by lia.
    by apply Hl.
Qed.

(** Every way a call of [Erase] can end on a well-formed container that has
    a buffer. *)
Lemma Erase_spec pos (s : state T) r s' :
  wf s → 0 < capacity_ (this s) → Erase pos s = (r, s') →
  let q := ptr_ (this s) in
  let sz := size_ (this s) in
  ((pos < q ∨ q + sz ≤ pos) ∧ r = Throw out_of_range ∧ s' = s) ∨
  (q ≤ pos < q + sz ∧
   touches_only (λ a, pos ≤ a < q + sz) s (State (mem s') (this s)) ∧
   ((r = Throw element_error ∧ this s' = this s ∧ ¬ NeverThrows T) ∨
    (r = Ret pos ∧
     this s' = Vec q (sz - 1) (capacity_ (this s)) ∧
     wf s' ∧
     (ValueSemantics T → ∀ l, elements s = Some l →
        elements s' =
        Some (take (Z.to_nat (pos - q)) l ++
              drop (S (Z.to_nat (pos - q))) l))))).
Proof.
  intros Hwf Hbuf Hrun q sz.
  pose proof (wf_size s Hwf) as Hsz. pose proof (wf_capacity s Hwf) as Hcap.
  pose proof (wf_space s Hwf) as Hspace.
  destruct (wf_block s Hwf Hbuf) as [Hq _].
  pose proof PTRDIFF_MAX_lt as Hmax.
  destruct (decide (q ≤ pos < q + sz)) as [Hin|Hout]; cycle 1.
  { left. rewrite Erase_out_of_range in Hrun by (unfold q, sz in *; lia).
    injection Hrun as <- <-. split; [lia|done]. }
  right. split; [done|].
  rewrite Erase_in_range in Hrun by (unfold q, sz in *; lia).
  fold q sz in Hrun, Hq, Hspace.
  unfold bind at 1 in Hrun.
  destruct (DataOverwrite (pos + 1) (q + sz) pos s) as [rb sb] eqn:Hbody.
  pose proof (DataOverwrite_touches (pos + 1) (q + sz) pos s _ sb
                ltac:(lia) Hbody) as Ht.
  assert (touches_only (λ a, pos ≤ a < q + sz) s sb) as Ht'.
  { eapply touches_only_weaken; [exact Ht|]. simpl. intros; lia. }
  pose proof Ht' as (Hthis & Hblk & Hdom & Hframe).
  assert (∀ j, 0 ≤ j < q + sz - (pos + 1) →
            is_Some (cells (mem s) !! (pos + 1 + j)) ∧
            is_Some (cells (mem s) !! (pos + j))) as Hmapped.
  { intros j Hj. split.
    - replace (pos + 1 + j) with (q + (pos + 1 + j - q)) by lia.
      apply (wf_cells s Hwf). fold sz. lia.
    - replace (pos + j) with (q + (pos + j - q)) by lia.
      apply (wf_cells s Hwf). fold sz. lia. }
  pose proof (DataOverwrite_result (pos + 1) (q + sz) pos s rb sb ltac:(lia)
                ltac:(lia) Hmapped Hbody) as Hcls.
  destruct rb as [[]|e|]; cycle 1.
  - destruct Hcls as [?|[= ->]]; [done|]. injection Hrun as <- <-.
    rewrite <- Hthis at 2. split; [by destruct sb|]. left.
    split; [done|]. split; [done|]. intros NT.
    by pose proof (DataOverwrite_total (pos + 1) (q + sz) pos s _ sb
                     ltac:(lia) ltac:(lia) Hmapped Hbody).
  - by destruct Hcls.
  - unfold bind, decr_size, get_this, set_size, ret in Hrun. simpl in Hrun.
    injection Hrun as <- <-. simpl. split.
    { rewrite <- Hthis. by destruct sb. }
    right. rewrite Hthis. fold q sz. rewrite size_wrap_small by lia.
    split; [done|]. split; [done|]. split.
    + constructor; simpl; fold q sz; [lia|lia|lia|..].
      * intros Hz. apply (wf_null s Hwf). done.
      * intros Hpos. rewrite Hblk. apply (wf_block s Hwf). done.
      * intros j Hj. rewrite Hdom. apply (wf_cells s Hwf). done.
    + intros VS l Hl.
      pose proof (elements_length s l Hl ltac:(lia)) as Hlen. fold sz in Hlen.
      apply elements_intro; simpl.
      * rewrite length_app, length_take, length_drop. lia.
      * intros k y Hk.
        eapply (erased_content (cells (mem s)) (cells (mem sb)) q l
                  (Z.to_nat (pos - q))); try exact Hk.
        -- lia.
        -- intros k' y' Hk'. by apply (elements_lookup s l).
        -- intros a Ha. apply Hframe. lia.
        -- intros k' y' Hk' Hy'.
           replace (q + k') with (pos + (q + k' - pos)) by lia.
           eapply (DataOverwrite_value (pos + 1) (q + sz) pos);
             [lia|lia|exact Hbody|lia|].
           by replace (pos + 1 + (q + k' - pos)) with (q + k' + 1) by lia.
Qed.

End EraseProofs.

(** ** Reserve and Resize *)

Section ReserveProofs.
Context {T : Type} `{Element T}.

(** A relocation into a new buffer that throws while it only writes to the
    new buffer leaves the object and every stored element as they were. *)
Lemma scope_throw_restores {A} n (body : ArrayPtr → M T (A * ArrayPtr))
    (s : state T) e s' :
  n ≠ 0 → 0 ≤ n →
  (∀ p s1 e' sb, 0 < p → p + n < POINTER_MODULUS →
     body p s1 = (Throw e', sb) →
     touches_only (λ a, p ≤ a < p + n) s1 sb) →
  with_array n body s = (Throw e, s') →
  this s' = this s ∧ cells (mem s') = cells (mem s).
Proof.
  intros Hn0 Hn Hbody
    [(_ & _ & ->)|(p & h1 & sb & h3 & Hnew & Hrun & Hdel & ->)]%with_array_Throw;
    [done|].
  apply new_array_Ret in Hnew as [(? & _)|(_ & _ & _ & Hp & Hpn & ->)]; [done|].
  apply Hbody in Hrun as (Hthis & Hblk & _ & Hframe);
    [|rewrite Hp; apply fresh_addr_pos|done].
  simpl in *. split; [done|].
  destruct (release_new (mem s) (mem sb) p n Hn0 Hn Hp Hblk) as (h3' & Hdel' & Hc).
  { intros a Ha. by apply Hframe. }
  rewrite Hdel in Hdel'. by injection Hdel' as <-.
Qed.

Lemma std_generate_touches first last (s : state T) r s' :
  0 ≤ first ∧ last < POINTER_MODULUS →
  std_generate first last s = (r, s') →
  touches_only (λ a, first ≤ a < last) s s'.
Proof.
  unfold std_generate. intros Hb.
  intros (r0 & [(_ & _ & ->)|[Hle Hrun]]%ranged_inv & _)%void_inv;
    [apply touches_only_refl|].
  apply (forward_n_touches _ (λ dst src a, a = dst)) in Hrun; [| |lia..].
  - eapply touches_only_weaken; [exact Hrun|]. intros a (j & Hj & ->). lia.
  - intros dst src s0 r1 s1. apply assign_cell_touches.
Qed.

Lemma Reserve_enough new_capacity (s : state T) :
  new_capacity ≤ capacity_ (this s) → Reserve new_capacity s = (Ret (), s).
Proof.
  intros Hle. unfold Reserve, bind, get_this.
  by rewrite (proj2 (Z.leb_le _ _) Hle).
Qed.

Lemma Reserve_more new_capacity (s : state T) :
  0 ≤ ptr_ (this s) + size_ (this s) < POINTER_MODULUS →
  capacity_ (this s) < new_capacity →
  Reserve new_capacity s =
  with_array new_capacity (λ array,
    DataOverwrite (ptr_ (this s)) (ptr_ (this s) + size_ (this s)) array;;
    array' ← ptr_swap array;
    set_capacity new_capacity;;
    ret ((), array')) s.
Proof.
  intros Hb Hlt. unfold Reserve. unfold bind at 1. unfold get_this at 1.
  rewrite (proj2 (Z.leb_gt _ _) Hlt). unfold vec_begin, vec_end.
  by rewrite ptr_add_small by done.
Qed.

(** Every way a call of [Reserve] on a well-formed container can end. *)
Lemma Reserve_spec n (s : state T) r s' :
  wf s → Reserve n s = (r, s') →
  let c := capacity_ (this s) in
  (n ≤ c ∧ r = Ret () ∧ s' = s) ∨
  (c < n ∧
   ((r = Throw bad_alloc ∧ s' = s ∧ can_allocate n (mem s) = false) ∨
    (r = Throw element_error ∧ this s' = this s ∧
     (negb is_copy_assignable || is_nothrow_move_assignable = false →
      cells (mem s') = cells (mem s)) ∧
     ¬ NeverThrows T) ∨
    (r = Ret () ∧ can_allocate n (mem s) = true ∧
     size_ (this s') = size_ (this s) ∧ capacity_ (this s') = n ∧
     wf s' ∧
     (ValueSemantics T → ∀ l, elements s = Some l → elements s' = Some l)))).
Proof.
  intros Hwf Hrun c.
  pose proof (wf_size s Hwf) as Hsz. pose proof (wf_capacity s Hwf) as Hcap.
  pose proof (wf_space s Hwf) as Hspace. pose proof (wf_ptr s Hwf) as Hq.
  destruct (decide (n ≤ c)) as [Hle|Hgt].
  { left. rewrite Reserve_enough in Hrun by done. by injection Hrun as <- <-. }
  right. split; [lia|].
  rewrite Reserve_more in Hrun by (fold c; lia).
  set (q := ptr_ (this s)) in *. set (sz := size_ (this s)) in *.
  fold c in Hsz, Hcap, Hspace.
  pose proof Hrun as Hrun0. rewrite with_array_run in Hrun.
  destruct (new_array n (mem s)) as [[p|e|] h1] eqn:Hnew; cycle 1.
  { apply new_array_Throw in Hnew as (-> & -> & Hn).
    injection Hrun as <- <-. left. by destruct s. }
  { by apply new_array_defined in Hnew. }
  apply new_array_Ret in Hnew
    as [(Hn & _)|(_ & Hcan & Hn & Hp & Hpn & ->)]; [lia|].
  assert (0 < p) as Hppos by (rewrite Hp; apply fresh_addr_pos).
  assert (q + sz ≤ p) as Hsep.
  { destruct (decide (sz = 0)) as [Hz|Hnz].
    - destruct (decide (c = 0)) as [Hc0|Hc0].
      + pose proof (wf_null s Hwf Hc0) as Hnull. fold q in Hnull.
        unfold nullptr in Hnull. lia.
      + pose proof (wf_cells s Hwf 0 ltac:(fold c; lia)) as Hfirst.
        fold q in Hfirst. apply fresh_addr_above in Hfirst. lia.
    - pose proof (wf_cells s Hwf (sz - 1) ltac:(fold c; lia)) as Hlast.
      fold q in Hlast. apply fresh_addr_above in Hlast; lia. }
  set (s1 := State _ (this s)) in Hrun.
  assert (∀ a, p ≤ a < p + n → cells (mem s1) !! a = Some value_init) as Hnewc.
  { intros a Ha. simpl. rewrite fill_cells_lookup. case_decide; [done|lia]. }
  assert (∀ a, a < p → cells (mem s1) !! a = cells (mem s) !! a) as Holdc.
  { intros a Ha. simpl. rewrite fill_cells_lookup. case_decide; [lia|done]. }
  unfold bind at 1 in Hrun.
  destruct (DataOverwrite q (q + sz) p s1) as [rb sb] eqn:Hbody.
  pose proof (DataOverwrite_touches q (q + sz) p s1 _ sb ltac:(lia) Hbody)
    as (Hthis & Hblk & Hdom & Hframe).
  assert (∀ j, 0 ≤ j < q + sz - q →
            is_Some (cells (mem s1) !! (q + j)) ∧
            is_Some (cells (mem s1) !! (p + j))) as Hmapped.
  { intros j Hj. split.
    - rewrite Holdc by lia. apply (wf_cells s Hwf). fold c. lia.
    - rewrite Hnewc by lia. eauto. }
  pose proof (DataOverwrite_result q (q + sz) p s1 rb sb ltac:(lia) ltac:(lia)
                Hmapped Hbody) as Hcls.
  destruct rb as [[]|e|]; cycle 1.
  - destruct Hcls as [?|[= ->]]; [done|].
    rewrite (delete_array_live _ p n) in Hrun; cycle 1.
    { rewrite Hblk. apply lookup_insert_eq. }
    { unfold nullptr. lia. }
    injection Hrun as <- <-. right. left. simpl.
    split; [done|]. split; [done|]. split.
    + intros Hpol.
      refine (proj2 (scope_throw_restores n _ s _ _ _ _ _ Hrun0)); [lia|lia|].
      intros p' s1' e' sb' Hp' Hpn' Hb'. unfold bind at 1 in Hb'.
      destruct (DataOverwrite q (q + sz) p' s1') as [rb' sb''] eqn:Hb''.
      pose proof (DataOverwrite_copy_touches q (q + sz) p' s1' _ sb''
                    ltac:(lia) Hpol Hb'') as Ht.
      destruct rb' as [[]|e''|]; try done.
      injection Hb' as _ <-.
      eapply touches_only_weaken; [exact Ht|]. simpl. intros; lia.
    + intros NT.
      by pose proof (DataOverwrite_total q (q + sz) p s1 _ sb ltac:(lia)
                       ltac:(lia) Hmapped Hbody).
  - by destruct Hcls.
  - unfold bind, ptr_swap, get_this, set_ptr, set_capacity, ret in Hrun.
    simpl in Hrun. rewrite Hthis in Hrun. simpl in Hrun.
    destruct (release_old s (mem sb) p n Hwf Hp) as (h3 & Hdel & Hkeep & Hb3).
    { by rewrite Hblk. }
    unfold q in Hdel. rewrite Hdel in Hrun. injection Hrun as <- <-. simpl.
    right. right. fold sz.
    split; [done|]. split; [done|]. split; [done|]. split; [done|]. split.
    + constructor; simpl; fold sz; [lia|lia|lia|lia|..].
      * intros _. split; [lia|done].
      * intros j Hj. rewrite Hkeep by lia. apply Hdom.
        rewrite Hnewc by lia. eauto.
    + intros VS l Hl.
      pose proof (elements_length s l Hl ltac:(lia)) as Hlen. fold sz in Hlen.
      apply elements_intro; simpl; [fold sz; lia|].
      intros k y Hk. pose proof (lookup_lt_Some _ _ _ Hk).
      rewrite Hkeep by lia.
      eapply (DataOverwrite_value q (q + sz) p); [lia|lia|exact Hbody|lia|].
      rewrite Holdc by lia. by apply (elements_lookup s l).
Qed.

Lemma Resize_more new_size (s : state T) :
  0 ≤ ptr_ (this s) + size_ (this s) < POINTER_MODULUS →
  capacity_ (this s) < new_size →
  Resize new_size s =
  with_array new_size (λ array,
    DataOverwrite (ptr_ (this s)) (ptr_ (this s) + size_ (this s)) array;;
    std_generate (array +ₚ size_ (this s)) (array +ₚ new_size);;
    array' ← ptr_swap array;
    set_size new_size;;
    set_capacity new_size;;
    ret ((), array')) s.
Proof.
  intros Hb Hlt. unfold Resize. unfold bind at 1. unfold get_this at 1.
  rewrite (proj2 (Z.leb_gt _ _) Hlt). unfold vec_begin, vec_end.
  by rewrite ptr_add_small by done.
Qed.


End ReserveProofs.

(** ** Concrete states and the element types of the tests *)

Section Checks.
Context {T : Type} `{Element T}.

Lemma wf_check_sound (s : state T) : wf_check s = true → wf s.
Proof.
  unfold wf_check. cbv zeta.
  intros ((((H1 & H2)%andb_prop & H3)%andb_prop & H4)%andb_prop & H5)%andb_prop.
  apply Z.leb_le in H1, H2, H3. apply Z.ltb_lt in H4.
  destruct (Z.eqb_spec (capacity_ (this s)) 0) as [Hz|Hnz].
  - apply Z.eqb_eq in H5. constructor; [lia|lia|lia|done|lia|].
    intros i Hi. lia.
  - apply andb_prop in H5 as ((H5 & H6)%andb_prop & H7).
    apply Z.ltb_lt in H5. apply bool_decide_eq_true in H6.
    constructor; [lia|lia|lia|lia|done|].
    + intros i Hi. rewrite forallb_forall in H7.
      specialize (H7 (Z.to_nat i)).
      replace (Z.of_nat (Z.to_nat i)) with i in H7 by lia.
      eapply bool_decide_eq_true, H7. apply in_seq. lia.
Qed.

Lemma wf_initial : wf (initial (T:=T)).
Proof. by apply wf_check_sound. Qed.

Lemma read_array_ext (m m' : gmap Z T) p n :
  (∀ i, 0 ≤ i < Z.of_nat n → m' !! (p + i) = m !! (p + i)) →
  read_array m' p n = read_array m p n.
Proof.
  intros Hext. unfold read_array. apply Forall_mapM_ext, Forall_forall.
  intros i Hi%list_elem_of_In%in_seq. apply Hext. lia.
Qed.

End Checks.

Lemma int_value_semantics : ValueSemantics Z.
Proof. split; simpl; intros; congruence. Qed.

Lemma int_never_throws : NeverThrows Z.
Proof. split; done. Qed.

Lemma X_value_semantics : ValueSemantics X.
Proof. split; simpl; intros; congruence. Qed.

#[export] Existing Instances
  int_value_semantics int_never_throws X_value_semantics.

(** * The claims *)

Section Growth.
Context {T : Type} `{Element T}.

Lemma push_all_invariant items (s s' : state T) :
  wf s → push_all items s = (Ret (), s') →
  (capacity_ (this s) = 0 ∨ ∃ j : nat, capacity_ (this s) = 2 ^ Z.of_nat j) →
  wf s' ∧
  size_ (this s') = size_ (this s) + Z.of_nat (length items) ∧
  (capacity_ (this s') = 0 ∨ ∃ j : nat, capacity_ (this s') = 2 ^ Z.of_nat j).
Proof.
  revert s. induction items as [|x rest IH]; intros s Hwf; simpl.
  - intros [= <-] Hpow. split; [done|]. split; [lia|done].
  - intros ([] & s1 & Hpush & Hrest)%bind_Ret Hpow.
    pose proof (PushBack_spec x s _ s1 Hwf Hpush) as Hspec. cbv zeta in Hspec.
    destruct Hspec as [(? & _)|[(? & _)|(_ & Hsz & Hcap & Hwf1 & _)]];
      [done|done|].
    destruct (IH s1 Hwf1 Hrest) as (Hwf' & Hsz' & Hpow').
    + rewrite Hcap. destruct (size_ (this s) =? capacity_ (this s)); [|done].
      right. destruct Hpow as [->|[j ->]].
      * by exists 0%nat.
      * exists (S j). rewrite Nat2Z.inj_succ, Z.pow_succ_r by lia.
        pose proof (Z.pow_pos_nonneg 2 (Z.of_nat j)). lia.
    + split; [done|]. split; [lia|done].
Qed.

(** C3. When [PushBack] or [Insert] is called on a full container
    ([size == capacity]) and returns, the capacity is
    [max(1, 2 * old_capacity)]; so after [k >= 1] calls of [PushBack] on a
    default-constructed container the capacity is a power of two
    (1, 2, 4, 8, ...) and at least [k]. *)
Theorem C3_growth_policy :
  (∀ (s : state T) item s',
     wf s → size_ (this s) = capacity_ (this s) →
     PushBack item s = (Ret (), s') →
     GetCapacity (this s') = Z.max 1 (2 * GetCapacity (this s))) ∧
  (∀ (s : state T) pos item r s',
     wf s → size_ (this s) = capacity_ (this s) →
     Insert pos item s = (Ret r, s') →
     GetCapacity (this s') = Z.max 1 (2 * GetCapacity (this s))) ∧
  (∀ (items : list (arg T)) s',
     (1 ≤ length items)%nat →
     push_all items initial = (Ret (), s') →
     (∃ j : nat, GetCapacity (this s') = 2 ^ Z.of_nat j) ∧
     Z.of_nat (length items) ≤ GetCapacity (this s')).
Proof.
  unfold GetCapacity. split; [|split].
  - intros s item s' Hwf Hfull Hrun.
    pose proof (PushBack_spec item s _ s' Hwf Hrun) as Hspec.
    cbv zeta in Hspec.
    destruct Hspec as [(? & _)|[(? & _)|(_ & _ & Hcap & _)]]; [done|done|].
    by rewrite Hcap, (proj2 (Z.eqb_eq _ _) Hfull).
  - intros s pos item r s' Hwf Hfull Hrun.
    pose proof (Insert_spec pos item s _ s' Hwf Hrun) as Hspec.
    cbv zeta in Hspec.
    destruct Hspec as [(_ & ? & _)|(_ & [(? & _)|[(? & _)|(_ & _ & Hcap & _)]])];
      [done|done|done|].
    by rewrite Hcap, (proj2 (Z.eqb_eq _ _) Hfull).
  - intros items s' Hk Hrun.
    destruct (push_all_invariant items initial s' wf_initial Hrun)
      as (Hwf' & Hsz & Hpow); [by left|].
    simpl in Hsz. pose proof (wf_size s' Hwf') as Hle.
    split; [|lia]. destruct Hpow as [Hz|Hpow]; [lia|done].
Qed.

End Growth.

(** A full container of two [int]s grows to 4 slots on [PushBack] and on
    [Insert]; three appends to a default-constructed container end at 4. *)
Lemma C3_witness :
  GetCapacity (this (PushBack (ByCopy 7) (state_of [1; 2] 0)).2) = 4 ∧
  GetCapacity (this (Insert 2 (ByCopy 7) (state_of [1; 2] 0)).2) = 4 ∧
  (∃ j : nat,
     GetCapacity
       (this (push_all [ByCopy 1; ByCopy 2; ByCopy 3] (initial (T:=Z))).2) =
     2 ^ Z.of_nat j) ∧
  3 ≤ GetCapacity
        (this (push_all [ByCopy 1; ByCopy 2; ByCopy 3] (initial (T:=Z))).2).
Proof.
  destruct (C3_growth_policy (T:=Z)) as (Hpush & Hinsert & Hall).
  split; [|split].
  - apply (Hpush (state_of [1; 2] 0) (ByCopy 7)).
    + apply wf_check_sound. vm_compute. reflexivity.
    + reflexivity.
    + vm_compute. reflexivity.
  - eapply (Hinsert (state_of [1; 2] 0) 2 (ByCopy 7)).
    + apply wf_check_sound. vm_compute. reflexivity.
    + reflexivity.
    + vm_compute. reflexivity.
  - apply (Hall [ByCopy 1; ByCopy 2; ByCopy 3]).
    + simpl. lia.
    + vm_compute. reflexivity.
Defined.

Section Positional.
Context {T : Type} `{Element T}.


End Positional.


Section EraseClaims.
Context {T : Type} `{Element T}.

(** [Erase] on a well-formed container that has a buffer: it fails with an
    out-of-range error exactly for positions outside [[begin, end)]; when it
    returns, the elements behind the erased one have moved one slot to the
    left, the size is one less, and the result is the erased position, which
    now holds the next element or is [end()]. *)
Lemma Erase_with_buffer (s : state T) pos :
  wf s → 0 < capacity_ (this s) →
  ((Erase pos s).1 = Throw out_of_range ↔
   pos < vec_begin (this s) ∨ vec_end (this s) ≤ pos) ∧
  (∀ r s', Erase pos s = (Ret r, s') →
     GetSize (this s') = GetSize (this s) - 1 ∧
     r = pos ∧ vec_begin (this s') = vec_begin (this s) ∧
     (ValueSemantics T → ∀ l, elements s = Some l →
        let i := Z.to_nat (pos - vec_begin (this s)) in
        elements s' = Some (take i l ++ drop (S i) l) ∧
        (pos < vec_end (this s') → cells (mem s') !! r = l !! S i) ∧
        (¬ pos < vec_end (this s') → r = vec_end (this s')))).
Proof.
  intros Hwf Hbuf. unfold vec_begin, vec_end, GetSize.
  pose proof (wf_size s Hwf) as Hsz. pose proof (wf_space s Hwf) as Hspace.
  pose proof (wf_ptr s Hwf) as Hq.
  rewrite ptr_add_small by lia.
  destruct (Erase pos s) as [r0 s0] eqn:Hrun.
  pose proof (Erase_spec pos s r0 s0 Hwf Hbuf Hrun) as Hspec.
  cbv zeta in Hspec. simpl. split.
  - split.
    + intros ->. destruct Hspec as [(Hout & _)|(_ & _ & [(? & _)|(? & _)])]; done.
    + intros Hout. destruct Hspec as [(_ & -> & _)|(Hin & _)]; [done|lia].
  - intros r s' [= -> ->].
    destruct Hspec as [(_ & ? & _)|(Hin & _ & [(? & _)|Hret])]; [done|done|].
    destruct Hret as ([= ->] & Hthis & Hwf' & Hl). rewrite Hthis. simpl.
    split; [done|]. split; [done|]. split; [done|].
    intros VS l Hel. cbv zeta.
    pose proof (Hl VS l Hel) as Hel'. split; [done|].
    pose proof (elements_length s l Hel ltac:(lia)) as Hlen.
    rewrite ptr_add_small by lia. split; [|lia].
    intros Hlt.
    assert (is_Some (l !! S (Z.to_nat (pos - ptr_ (this s))))) as [y Hy].
    { apply lookup_lt_is_Some. lia. }
    rewrite Hy.
    replace pos
      with (ptr_ (this s') + Z.of_nat (Z.to_nat (pos - ptr_ (this s)))) at 1
      by (rewrite Hthis; simpl; lia).
    apply (elements_lookup s' _ _ _ Hel').
    rewrite lookup_app_r; rewrite length_take; [|lia].
    rewrite lookup_drop, <- Hy. f_equal. lia.
Qed.

(** Without a buffer the bound [cend() - 1] wraps to the top of the address
    space: no position at all is rejected. *)
Lemma Erase_without_buffer (s : state T) pos e :
  wf s → capacity_ (this s) = 0 → 0 ≤ pos < POINTER_MODULUS →
  (Erase pos s).1 ≠ Throw e.
Proof.
  intros Hwf Hcap Hpos.
  pose proof (wf_size s Hwf) as Hsz. pose proof (wf_null s Hwf Hcap) as Hnull.
  assert (size_ (this s) = 0) as Hz by lia.
  unfold Erase. unfold bind at 1. unfold get_this at 1. unfold bind at 1.
  unfold IteratorChecking, cbegin, cend, vec_end.
  rewrite Hnull, Hz. unfold nullptr.
  change (0 +ₚ 0) with 0. change (0 +ₚ -1) with (POINTER_MODULUS - 1).
  destruct (Z.ltb_spec pos 0); [lia|].
  destruct (Z.ltb_spec (POINTER_MODULUS - 1) pos); [lia|]. simpl.
  unfold bind at 1.
  unfold DataOverwrite, std_move, std_copy, ranged.
  destruct (Z.ltb_spec 0 (pos +ₚ 1)) as [Hlt|Hge].
  - by destruct (negb is_copy_assignable || is_nothrow_move_assignable).
  - assert (pos +ₚ 1 = 0) as ->.
    { pose proof (Z.mod_pos_bound (pos + 1) POINTER_MODULUS ltac:(done)).
      unfold ptr_add in *. lia. }
    by destruct (negb is_copy_assignable || is_nothrow_move_assignable).
Qed.

End EraseClaims.

(** C5. [Erase(position)] is to fail with an out-of-range error exactly when
    [position] lies outside [[begin, end)].  On a default-constructed
    [SimpleVector<int>] the position [begin()] lies outside the empty range
    [[begin, end)], yet [Erase(begin())] does not fail with an out-of-range
    error: the bound [cend() - 1] is computed from the null pointer, nothing
    is rejected, and the call goes on to relocate an inverted range. *)
Theorem C5_Erase_default_constructed :
  wf (initial (T:=Z)) ∧
  vec_begin default_vector = vec_end default_vector ∧
  Erase (T:=Z) (vec_begin default_vector) initial = (Undefined, initial).
Proof. split; [apply wf_initial|]. split; reflexivity. Qed.

Section RoundTrip.
Context {T : Type} `{Element T}.

Lemma insert_then_erase (l : list T) (i : nat) x :
  (i ≤ length l)%nat →
  take i (take i l ++ x :: drop i l) ++
  drop (S i) (take i l ++ x :: drop i l) = l.
Proof.
  intros Hi.
  assert (length (take i l) = i) as Hlen by (rewrite length_take; lia).
  rewrite take_app_length' by done.
  rewrite (drop_app_ge (take i l)) by lia.
  rewrite Hlen. replace (S i - i)%nat with 1%nat by lia. simpl.
  rewrite drop_0. apply take_drop.
Qed.

(** C8. For every container and every index [i] in [[0, size]],
    [Insert(begin() + i, v)] followed by [Erase(begin() + i)] gives back the
    original sequence: the same size and the same elements in the same
    order.  For an element type that never throws the [Erase] returns. *)
Theorem C8_Insert_Erase_round_trip (s : state T) i item l r1 s1 :
  ValueSemantics T → wf s → elements s = Some l →
  0 ≤ i ≤ GetSize (this s) →
  Insert (vec_begin (this s) +ₚ i) item s = (Ret r1, s1) →
  (∀ r2 s2, Erase (vec_begin (this s1) +ₚ i) s1 = (Ret r2, s2) →
     elements s2 = Some l ∧ GetSize (this s2) = GetSize (this s)) ∧
  (NeverThrows T → ∃ r2 s2, Erase (vec_begin (this s1) +ₚ i) s1 = (Ret r2, s2)).
Proof.
  intros VS Hwf Hel Hi Hins. unfold vec_begin, GetSize in *.
  pose proof (wf_size s Hwf) as Hsz. pose proof (wf_space s Hwf) as Hspace.
  pose proof (wf_ptr s Hwf) as Hq.
  pose proof (elements_length s l Hel ltac:(lia)) as Hlen.
  rewrite ptr_add_small in Hins by lia.
  pose proof (Insert_spec _ item s _ s1 Hwf Hins) as Hspec. cbv zeta in Hspec.
  destruct Hspec as [(_ & ? & _)|(_ & [(? & _)|[(? & _)|Hret]])];
    [done|done|done|].
  destruct Hret as (_ & Hsize1 & _ & Hwf1 & Hl1).
  pose proof (Hl1 VS l Hel) as Hel1. clear Hl1.
  replace (ptr_ (this s) + i - ptr_ (this s)) with i in Hel1 by lia.
  pose proof (wf_size s1 Hwf1) as Hsz1. pose proof (wf_space s1 Hwf1) as Hspace1.
  pose proof (wf_ptr s1 Hwf1) as Hq1.
  rewrite ptr_add_small by lia.
  destruct (Erase (ptr_ (this s1) + i) s1) as [r0 s0] eqn:Hers.
  pose proof (Erase_spec _ s1 r0 s0 Hwf1 ltac:(lia) Hers) as Hspec.
  cbv zeta in Hspec.
  destruct Hspec as [(Hout & _)|(_ & _ & [(-> & _ & Hnt)|Hret])]; [lia|..].
  - split; [done|]. intros NT. done.
  - destruct Hret as (-> & Hthis2 & _ & Hl2). split; [|eauto].
    intros r2 s2 [= <- <-]. rewrite Hthis2. simpl. split; [|lia].
    rewrite (Hl2 VS _ Hel1).
    replace (ptr_ (this s1) + i - ptr_ (this s1)) with i by lia.
    f_equal. apply insert_then_erase. lia.
Qed.

End RoundTrip.

(** [{1, 2, 3}], [Insert(begin() + 1, 99)], [Erase(begin() + 1)]:
    [{1, 2, 3}] again. *)
Lemma C8_witness :
  ∃ r1 s1 r2 s2,
    Insert (T:=Z) (vec_begin (this (state_of [1; 2; 3] 0)) +ₚ 1) (ByCopy 99)
      (state_of [1; 2; 3] 0) = (Ret r1, s1) ∧
    Erase (vec_begin (this s1) +ₚ 1) s1 = (Ret r2, s2) ∧
    elements s2 = Some [1; 2; 3] ∧ GetSize (this s2) = 3.
Proof.
  assert (wf (state_of (T:=Z) [1; 2; 3] 0)) as Hwf.
  { apply wf_check_sound. vm_compute. reflexivity. }
  assert (∃ r1 s1,
    Insert (T:=Z) (vec_begin (this (state_of [1; 2; 3] 0)) +ₚ 1) (ByCopy 99)
      (state_of [1; 2; 3] 0) = (Ret r1, s1)) as (r1 & s1 & Hins).
  { do 2 eexists. vm_compute. reflexivity. }
  destruct (C8_Insert_Erase_round_trip (state_of [1; 2; 3] 0) 1 (ByCopy 99)
              [1; 2; 3] r1 s1) as (Hback & Hret); try done.
  { exact _. }
  destruct Hret as (r2 & s2 & Hers); [exact _|].
  destruct (Hback r2 s2 Hers) as (Hel & Hsz).
  by exists r1, s1, r2, s2.
Defined.

Section Failures.
Context {T : Type} `{Element T}.

(** The in-place branch of [Insert], statement by statement. *)
Lemma Insert_in_place_shift (s : state T) pos item :
  wf s → size_ (this s) < capacity_ (this s) →
  vec_begin (this s) ≤ pos ≤ vec_end (this s) →
  Insert pos item s =
  (((if is_nothrow_move_assignable || negb is_copy_assignable
     then std_move_backward pos (vec_end (this s)) (vec_end (this s) + 1)
     else std_copy_backward pos (vec_end (this s)) (vec_end (this s) + 1));;
    assign_cell pos item);;
   incr_size;;
   ret pos) s.
Proof.
  intros Hwf Hroom. unfold vec_begin, vec_end.
  pose proof (wf_size s Hwf) as Hsz. pose proof (wf_space s Hwf) as Hspace.
  pose proof (wf_ptr s Hwf) as Hq. pose proof (wf_capacity s Hwf) as Hcap.
  pose proof PTRDIFF_MAX_lt as Hmax.
  rewrite ptr_add_small by lia. intros Hin.
  rewrite Insert_in_range by lia. cbv zeta.
  rewrite (proj2 (Z.eqb_neq _ _)) by lia.
  rewrite (ptr_add_small (ptr_ (this s) + size_ (this s)) 1) by lia.
  replace (ptr_ (this s) + (pos - ptr_ (this s))) with pos by lia.
  unfold bind at 1 5.
  match goal with |- context [?m s] =>
    destruct (m s) as [rb sb] eqn:Hbody end.
  replace pos with (ptr_ (this s) + (pos - ptr_ (this s))) in Hbody by lia.
  apply Insert_inplace_body in Hbody as ((Hthis & _) & _); [|lia..].
  destruct rb as [[]|e|]; try done.
  unfold bind, incr_size, get_this, set_size, ret, vec_begin. simpl.
  rewrite Hthis, ptr_add_small by lia. do 2 f_equal. lia.
Qed.

(** C6. In an [Insert] without reallocation ([size < capacity]) the size is
    incremented only after the right shift of the suffix and the write of
    the new value are complete: the call is the shift, then the write, then
    [++size_]; when it returns the size is one more, and when an element
    operation throws on the way, [GetSize()] (with the capacity and the
    buffer) is what it was before the call, wherever the shift had got
    to. *)
Theorem C6_Insert_in_place_size (s : state T) pos item :
  wf s → size_ (this s) < capacity_ (this s) →
  (vec_begin (this s) ≤ pos ≤ vec_end (this s) →
   Insert pos item s =
   (((if is_nothrow_move_assignable || negb is_copy_assignable
      then std_move_backward pos (vec_end (this s)) (vec_end (this s) + 1)
      else std_copy_backward pos (vec_end (this s)) (vec_end (this s) + 1));;
     assign_cell pos item);;
    incr_size;;
    ret pos) s) ∧
  (∀ r s', Insert pos item s = (Ret r, s') →
     GetSize (this s') = GetSize (this s) + 1) ∧
  (∀ e s', Insert pos item s = (Throw e, s') →
     GetSize (this s') = GetSize (this s) ∧ this s' = this s).
Proof.
  intros Hwf Hroom. unfold GetSize. split; [|split].
  - by apply Insert_in_place_shift.
  - intros r s' Hrun.
    pose proof (Insert_spec pos item s _ s' Hwf Hrun) as Hspec.
    cbv zeta in Hspec.
    destruct Hspec as [(_ & ? & _)|(_ & [(? & _)|[(? & _)|(_ & Hsz & _)]])];
      done.
  - intros e s' Hrun.
    pose proof (Insert_spec pos item s _ s' Hwf Hrun) as Hspec.
    cbv zeta in Hspec.
    destruct Hspec as [(_ & _ & ->)|(_ & [(_ & -> & _)|[(_ & -> & _)|(? & _)]])];
      done.
Qed.

(** C7. When a [PushBack] without growth ([size < capacity]) fails while it
    writes the new element into slot [size], the container is as it was
    before the call: size, capacity and buffer are the same, the buffer is
    still allocated, and every live element, at positions [[0, size)], is
    unchanged. *)
Theorem C7_PushBack_failure_keeps_state (s : state T) item e s' :
  wf s → size_ (this s) < capacity_ (this s) →
  PushBack item s = (Throw e, s') →
  this s' = this s ∧
  blocks (mem s') = blocks (mem s) ∧
  (∀ i, 0 ≤ i < size_ (this s) →
     cells (mem s') !! (ptr_ (this s) + i) =
     cells (mem s) !! (ptr_ (this s) + i)) ∧
  elements s' = elements s.
Proof.
  intros Hwf Hroom Hrun.
  pose proof (wf_size s Hwf) as Hsz. pose proof (wf_space s Hwf) as Hspace.
  pose proof (wf_ptr s Hwf) as Hq.
  rewrite PushBack_room in Hrun by lia.
  rewrite ptr_add_small in Hrun by lia.
  unfold bind in Hrun.
  destruct (assign_cell _ item s) as [[[]|e0|] s0] eqn:Hassign;
    try discriminate.
  injection Hrun as -> ->.
  apply assign_cell_touches in Hassign as (Hthis & Hblk & _ & Hframe).
  assert (∀ i, 0 ≤ i < size_ (this s) →
            cells (mem s') !! (ptr_ (this s) + i) =
            cells (mem s) !! (ptr_ (this s) + i)) as Hsame.
  { intros i Hi. apply Hframe. lia. }
  split; [done|]. split; [done|]. split; [done|].
  unfold elements. rewrite Hthis. apply read_array_ext.
  intros i Hi. apply Hsame. lia.
Qed.

(** C9. [Reserve(c)] with [c <= GetCapacity()] changes nothing: the object
    and the whole memory, hence size, capacity, element values and element
    addresses, stay as they are.  [Reserve(c)] with [c > GetCapacity()],
    when it returns, has set the capacity to exactly [c] and left the size
    and the element values unchanged; it returns whenever the element type
    never throws and the buffer can be allocated. *)
Theorem C9_Reserve (s : state T) c :
  wf s →
  (c ≤ GetCapacity (this s) → Reserve c s = (Ret (), s)) ∧
  (GetCapacity (this s) < c →
   (∀ s', Reserve c s = (Ret (), s') →
      GetCapacity (this s') = c ∧
      GetSize (this s') = GetSize (this s) ∧
      (ValueSemantics T → elements s' = elements s)) ∧
   (NeverThrows T → can_allocate c (mem s) = true →
    ∃ s', Reserve c s = (Ret (), s'))).
Proof.
  intros Hwf. unfold GetCapacity, GetSize. split.
  - apply Reserve_enough.
  - intros Hgt.
    destruct (Reserve c s) as [r0 s0] eqn:Hrun.
    pose proof (Reserve_spec c s r0 s0 Hwf Hrun) as Hspec. cbv zeta in Hspec.
    destruct Hspec as [(? & _)|(_ & Hcases)]; [lia|]. split.
    + intros s' [= -> ->].
      destruct Hcases as [(? & _)|[(? & _)|(_ & _ & Hsz & Hcap & _ & Hl)]];
        [done|done|].
      split; [done|]. split; [done|]. intros VS.
      destruct (wf_elements s Hwf) as [l Hel]. by rewrite (Hl VS l Hel).
    + intros NT Hcan.
      destruct Hcases as [(_ & _ & Hno)|[(_ & _ & _ & Hnt)|(-> & _)]].
      * by rewrite Hcan in Hno.
      * done.
      * eauto.
Qed.

End Failures.

(** The test [TestMoveableThrowableInsertWithoutRealloc]: ten elements, room
    for eleven, and an [Insert] at index 2 of a value whose move throws.
    The suffix has been shifted, the size is still 10. *)
Lemma C6_witness :
  let s := state_of (map (λ n, MkMT n false) [1; 2; 3; 4; 5; 6; 7; 8; 9; 10]) 1 in
  GetSize (this (Insert 3 (ByMove (MkMT 11 true)) s).2) = 10 ∧
  option_map (map num) (elements (Insert 3 (ByMove (MkMT 11 true)) s).2) =
    Some [1; 2; -1; 3; 4; 5; 6; 7; 8; 9] ∧
  GetSize (this (Insert 3 (ByMove (MkMT 11 false)) s).2) = 11.
Proof.
  intros s.
  assert (wf s) as Hwf by (apply wf_check_sound; vm_compute; reflexivity).
  assert (size_ (this s) < capacity_ (this s)) as Hroom
    by (vm_compute; reflexivity).
  split; [|split].
  - apply (proj2 (proj2 (C6_Insert_in_place_size s 3 (ByMove (MkMT 11 true))
                            Hwf Hroom)) element_error).
    vm_compute. reflexivity.
  - vm_compute. reflexivity.
  - eapply (proj1 (proj2 (C6_Insert_in_place_size s 3 (ByMove (MkMT 11 false))
                            Hwf Hroom))).
    vm_compute. reflexivity.
Defined.

(** The test [TestMoveableThrowablePushBackWithoutRealloc] in small: two
    elements, room for three, and a [PushBack] of a value whose move
    throws. *)
Lemma C7_witness :
  let s := state_of [MkMT 1 false; MkMT 2 false] 1 in
  this (PushBack (ByMove (MkMT 11 true)) s).2 = this s ∧
  elements (PushBack (ByMove (MkMT 11 true)) s).2 = elements s.
Proof.
  intros s.
  destruct (C7_PushBack_failure_keeps_state s (ByMove (MkMT 11 true))
              element_error (PushBack (ByMove (MkMT 11 true)) s).2)
    as (Hthis & _ & _ & Hel).
  - apply wf_check_sound. vm_compute. reflexivity.
  - vm_compute. reflexivity.
  - vm_compute. reflexivity.
  - by split.
Defined.

(** The test [TestReserveMethod] in small: [Reserve(1)] on a container of
    capacity 3 does nothing, [Reserve(100)] gives capacity 100 and keeps
    the elements. *)
Lemma C9_witness :
  let s := state_of (T:=Z) [1; 2; 3] 0 in
  Reserve 1 s = (Ret (), s) ∧
  GetCapacity (this (Reserve 100 s).2) = 100 ∧
  GetSize (this (Reserve 100 s).2) = 3 ∧
  elements (Reserve 100 s).2 = Some [1; 2; 3].
Proof.
  intros s.
  assert (wf s) as Hwf by (apply wf_check_sound; vm_compute; reflexivity).
  destruct (C9_Reserve s 1 Hwf) as (Hsame & _).
  destruct (C9_Reserve s 100 Hwf) as (_ & Hmore).
  destruct Hmore as (Hret & Htotal); [vm_compute; reflexivity|].
  destruct Htotal as (s' & Hrun); [exact _|vm_compute; reflexivity|].
  destruct (Hret s' Hrun) as (Hcap & Hsz & Hel).
  rewrite Hrun. simpl. split; [|split; [|split]].
  - apply Hsame. vm_compute. discriminate.
  - exact Hcap.
  - exact Hsz.
  - rewrite Hel by exact _. vm_compute. reflexivity.
Defined.

Section NoFail.
Context {T : Type} `{Element T}.

Lemma PushBack_room_result item (s : state T) :
  wf s → size_ (this s) < capacity_ (this s) →
  ∃ d, cells (mem s) !! (ptr_ (this s) + size_ (this s)) = Some d ∧
       (PushBack item s).1 = finish (assigned d item).1.
Proof.
  intros Hwf Hroom.
  pose proof (wf_size s Hwf) as Hsz. pose proof (wf_space s Hwf) as Hspace.
  pose proof (wf_ptr s Hwf) as Hq.
  destruct (wf_cells s Hwf (size_ (this s)) ltac:(lia)) as [d Hd].
  exists d. split; [done|].
  rewrite PushBack_room, ptr_add_small by lia.
  destruct (assign_cell_run _ item s d Hd) as (s1 & Hrun & _).
  unfold bind. rewrite Hrun. by destruct (assigned d item).1.
Qed.

(** C2 (amended). [PopBack], on an empty container and on any other,
    [Clear] and [swap] never fail.  A [PushBack] with [size < capacity]
    fails exactly when the assignment of the new value to slot [size]
    throws; for an element type whose assignments never throw it never
    fails. *)
Theorem C2_operations_that_never_fail (s : state T) :
  (PopBack s).1 = Ret () ∧
  (size_ (this s) = 0 → PopBack s = (Ret (), s)) ∧
  (Clear s).1 = Ret () ∧
  (∀ (w : world T) a b e, (swap a b w).1 ≠ Throw e) ∧
  (∀ (w : world T) a b,
     is_Some (objects w !! a) → is_Some (objects w !! b) →
     (swap a b w).1 = Ret ()) ∧
  (wf s → size_ (this s) < capacity_ (this s) →
   ∀ item,
     (∃ d, cells (mem s) !! (ptr_ (this s) + size_ (this s)) = Some d ∧
           (PushBack item s).1 = finish (assigned d item).1) ∧
     (NeverThrows T → (PushBack item s).1 = Ret ())).
Proof.
  split; [|split; [|split; [|split; [|split]]]].
  - unfold PopBack, bind, get_this, decr_size.
    by destruct (size_ (this s) =? 0).
  - intros Hz. unfold PopBack, bind, get_this. by rewrite Hz.
  - done.
  - intros w a b e. unfold swap.
    by destruct (objects w !! a), (objects w !! b).
  - intros w a b [va Ha] [vb Hb]. unfold swap. by rewrite Ha, Hb.
  - intros Hwf Hroom item.
    destruct (PushBack_room_result item s Hwf Hroom) as (d & Hd & Hres).
    split; [eauto|]. intros NT. rewrite Hres.
    destruct item; simpl; [rewrite copy_assign_normal|rewrite move_assign_normal];
      done.
Qed.

End NoFail.

(** C2 as stated fails.  The test
    [TestMoveableThrowablePushBackWithoutRealloc]: the container has room
    ([size < capacity]) and [PushBack] of a value whose move throws fails. *)
Lemma C2_counterexample :
  let s := state_of (T:=MoveableThrowable) [] 1 in
  wf s ∧ size_ (this s) < capacity_ (this s) ∧
  (PushBack (ByMove (MkMT 11 true)) s).1 = Throw element_error.
Proof.
  intros s. split; [|split].
  - apply wf_check_sound. vm_compute. reflexivity.
  - vm_compute. reflexivity.
  - vm_compute. reflexivity.
Qed.

(** A growth-free [PushBack] of an [int]. *)
Lemma C2_witness :
  let s := state_of (T:=Z) [1; 2] 1 in
  (PushBack (ByCopy 3) s).1 = Ret ().
Proof.
  intros s.
  destruct (C2_operations_that_never_fail s) as (_ & _ & _ & _ & _ & Hpush).
  apply Hpush.
  - apply wf_check_sound. vm_compute. reflexivity.
  - vm_compute. reflexivity.
  - exact _.
Defined.

Section Assignment.
Context {T : Type} `{Element T}.

(** Move assignment from another object releases the buffer of the target
    and leaves the source empty. *)
Lemma assign_move_other (w : world T) a b va vb h :
  a ≠ b → objects w !! a = Some va → objects w !! b = Some vb →
  delete_array (ptr_ va) (heap_of w) = Some h →
  assign_move a b w =
  (Ret (), World h (<[b := default_vector]>
                    (<[a := Vec (ptr_ vb) (size_ vb) (capacity_ vb)]>
                       (objects w)))).
Proof.
  intros Hne Ha Hb Hdel. unfold assign_move, ArrayPtr_move_assign.
  destruct (decide (a = b)); [done|]. by rewrite Ha, Hb, Hdel.
Qed.

(** C10. Move-assigning a container to itself, [v = std::move(v)], is a
    no-op: every object and the whole memory are as before, so size,
    capacity and all element values are unchanged and the buffer is not
    released. *)
Theorem C10_self_move_assignment (w : world T) v :
  assign_move v v w = (Ret (), w).
Proof. unfold assign_move. by destruct (decide (v = v)). Qed.

End Assignment.

Section Policy.
Context {T : Type} `{Element T}.


End Policy.



(** * Further properties of the container *)

(** ** Element access *)

Section AccessProofs.
Context {T : Type} `{Element T}.

Lemma wf_no_wrap (s : state T) i :
  wf s → 0 ≤ i ≤ capacity_ (this s) →
  ptr_ (this s) +ₚ i = ptr_ (this s) + i.
Proof.
  intros Hwf Hi. pose proof (wf_space s Hwf). pose proof (wf_ptr s Hwf).
  apply ptr_add_small. lia.
Qed.

Lemma wf_end (s : state T) :
  wf s → vec_end (this s) = ptr_ (this s) + size_ (this s).
Proof.
  intros Hwf. pose proof (wf_size s Hwf). unfold vec_end.
  apply wf_no_wrap; [done|lia].
Qed.

(** X1. Checked access: on a well-formed container [At(index)] fails with
    [out_of_range] exactly when [index >= size]; it then leaves the state as
    it was.  For [index < size] it returns the reference [begin() + index],
    the slot that holds element [index], and changes nothing. *)
Theorem At_checked (s : state T) index l :
  wf s → elements s = Some l → 0 ≤ index →
  ((At index s).1 = Throw out_of_range ↔ GetSize (this s) ≤ index) ∧
  (GetSize (this s) ≤ index → At index s = (Throw out_of_range, s)) ∧
  (index < GetSize (this s) →
   ∃ x, l !! Z.to_nat index = Some x ∧
        At index s = (Ret (vec_begin (this s) + index), s) ∧
        cells (mem s) !! (vec_begin (this s) + index) = Some x).
Proof.
  intros Hwf Hl Hidx. unfold At, bind, get_this, GetSize, vec_begin.
  pose proof (wf_size s Hwf) as Hsz.
  pose proof (elements_length s l Hl ltac:(lia)) as Hlen.
  destruct (Z.leb_spec (size_ (this s)) index) as [Hge|Hlt]; simpl.
  - split; [done|]. split; [done|]. lia.
  - split; [split; [done|lia]|]. split; [lia|]. intros _.
    destruct (lookup_lt_is_Some_2 l (Z.to_nat index)) as [x Hx]; [lia|].
    exists x. split; [done|]. rewrite wf_no_wrap by (done || lia).
    split; [done|].
    replace index with (Z.of_nat (Z.to_nat index)) at 1 by lia.
    by apply (elements_lookup s l).
Qed.

Lemma elements_update (s s' : state T) l (i : nat) x :
  elements s = Some l → (i < length l)%nat →
  this s' = this s →
  cells (mem s') !! (ptr_ (this s) + Z.of_nat i) = Some x →
  (∀ a, a ≠ ptr_ (this s) + Z.of_nat i →
     cells (mem s') !! a = cells (mem s) !! a) →
  elements s' = Some (<[i := x]> l).
Proof.
  intros Hl Hi Hthis Hx Hframe.
  pose proof Hl as [Hlen _]%read_array_Some.
  apply elements_intro.
  - rewrite Hthis, length_insert. lia.
  - intros k y Hk. rewrite Hthis.
    destruct (decide (k = i)) as [->|Hne].
    + rewrite list_lookup_insert_eq in Hk by done. by injection Hk as <-.
    + rewrite list_lookup_insert_ne in Hk by done.
      rewrite Hframe by lia. by apply (elements_lookup s l).
Qed.

Lemma touches_only_wf P (s s' : state T) :
  touches_only P s s' → wf s → wf s'.
Proof.
  intros (Hthis & Hblk & Hdom & _) Hwf.
  constructor; rewrite ?Hthis, ?Hblk; try apply Hwf.
  intros i Hi. rewrite Hdom. by apply (wf_cells s Hwf).
Qed.

(** X2. Unchecked access: for [index < size] the reference [v[index]] is
    the one [At(index)] gives, and assigning through it replaces element
    [index] and nothing else; the container stays well formed whether the
    assignment returns or throws. *)
Theorem operator_index_assign (s : state T) index x l :
  wf s → elements s = Some l → 0 ≤ index < GetSize (this s) →
  operator_index index s = At index s ∧
  ∀ r s', (a ← operator_index index; assign_cell a (ByCopy x)) s = (r, s') →
    (r = Ret () ∨ r = Throw element_error) ∧
    (NeverThrows T → r = Ret ()) ∧
    this s' = this s ∧ wf s' ∧
    (ValueSemantics T → r = Ret () →
     elements s' = Some (<[Z.to_nat index := x]> l)).
Proof.
  intros Hwf Hl Hidx. unfold GetSize in Hidx.
  pose proof (wf_size s Hwf) as Hsz.
  pose proof (elements_length s l Hl ltac:(lia)) as Hlen.
  split.
  { unfold operator_index, At, bind, get_this.
    by destruct (Z.leb_spec (size_ (this s)) index); [lia|]. }
  intros r s'. unfold operator_index. unfold bind at 1. unfold get_this at 1.
  unfold bind at 1, ret. rewrite wf_no_wrap by (done || lia).
  intros Hrun.
  pose proof (assign_cell_touches _ _ _ _ _ Hrun) as Ht.
  pose proof Ht as (Hthis & _ & _ & Hframe).
  assert (is_Some (cells (mem s) !! (ptr_ (this s) + index))) as Hm.
  { apply (wf_cells s Hwf). lia. }
  split; [by apply (assign_cell_result _ _ _ _ _ Hrun)|].
  split; [intros NT; by apply (assign_cell_total _ _ _ _ _ Hrun)|].
  split; [done|]. split; [by apply (touches_only_wf _ _ _ Ht)|].
  intros VS ->. destruct Hm as [d Hd].
  destruct (assign_cell_run _ (ByCopy x) s d Hd) as (s2 & Hrun2 & Hv).
  rewrite Hrun in Hrun2. injection Hrun2 as Hfin <-.
  symmetry in Hfin. apply finish_Ret in Hfin.
  simpl in Hfin, Hv. destruct (copy_assign d x) as [c d'] eqn:Ha.
  simpl in Hfin, Hv. subst c. apply copy_assign_value in Ha. subst d'.
  apply (elements_update s s' l (Z.to_nat index) x); try done.
  - lia.
  - by replace (Z.of_nat (Z.to_nat index)) with index by lia.
  - intros a Ha. apply Hframe. lia.
Qed.

End AccessProofs.

(** ** The end of the sequence *)

Section BackProofs.
Context {T : Type} `{Element T}.

Lemma elements_take (s s' : state T) l (n : nat) :
  elements s = Some l → (n ≤ length l)%nat →
  ptr_ (this s') = ptr_ (this s) → size_ (this s') = Z.of_nat n →
  (∀ i, 0 ≤ i < Z.of_nat n →
     cells (mem s') !! (ptr_ (this s) + i) = cells (mem s) !! (ptr_ (this s) + i)) →
  elements s' = Some (take n l).
Proof.
  intros Hl Hn Hptr Hsz Hframe. apply elements_intro.
  - rewrite length_take. lia.
  - intros k y Hk. pose proof (lookup_lt_Some _ _ _ Hk) as Hlt.
    rewrite length_take in Hlt. rewrite lookup_take_lt in Hk by lia.
    rewrite Hptr, Hframe by lia. by apply (elements_lookup s l).
Qed.

Lemma PopBack_run (s : state T) :
  0 ≤ size_ (this s) < SIZE_MODULUS →
  PopBack s =
  (Ret (), State (mem s) (Vec (ptr_ (this s)) (Z.max 0 (size_ (this s) - 1))
                              (capacity_ (this s)))).
Proof.
  intros Hsz. unfold PopBack, decr_size, bind, get_this, set_size, ret.
  destruct (Z.eqb_spec (size_ (this s)) 0) as [Hz|Hnz].
  - destruct s as [m [p sz c]]. simpl in *. by subst.
  - cbv beta.
    rewrite size_wrap_small by lia. do 3 f_equal. lia.
Qed.

Lemma wf_size_small (s : state T) : wf s → 0 ≤ size_ (this s) < SIZE_MODULUS.
Proof.
  intros Hwf. pose proof (wf_size s Hwf). pose proof (wf_capacity s Hwf).
  pose proof PTRDIFF_MAX_lt. lia.
Qed.

Lemma wf_shrink (s : state T) n :
  wf s → 0 ≤ n ≤ size_ (this s) →
  wf (State (mem s) (Vec (ptr_ (this s)) n (capacity_ (this s)))).
Proof.
  intros Hwf Hn. pose proof (wf_size s Hwf).
  constructor; simpl; try apply Hwf. lia.
Qed.

(** X3. [PopBack] on a well-formed container always returns; it drops the
    last element and nothing else: the elements before it, the buffer, the
    capacity and the memory are as before, and on an empty container nothing
    changes at all. *)
Theorem PopBack_drops_last (s : state T) l :
  wf s → elements s = Some l →
  ∃ s', PopBack s = (Ret (), s') ∧ wf s' ∧ mem s' = mem s ∧
        vec_begin (this s') = vec_begin (this s) ∧
        GetCapacity (this s') = GetCapacity (this s) ∧
        GetSize (this s') = Z.of_nat (length l - 1) ∧
        elements s' = Some (take (length l - 1) l) ∧
        (l = [] → s' = s).
Proof.
  intros Hwf Hl. pose proof (wf_size_small s Hwf) as Hsz.
  pose proof (elements_length s l Hl ltac:(lia)) as Hlen.
  rewrite PopBack_run by done. eexists. split; [reflexivity|].
  unfold vec_begin, GetCapacity, GetSize. simpl.
  split; [apply wf_shrink; [done|lia]|].
  split; [done|]. split; [done|]. split; [done|]. split; [lia|]. split.
  - apply (elements_take s _ l); simpl; try done; lia.
  - intros ->. simpl in Hlen. destruct s as [m [p sz c]]. simpl in *.
    by replace sz with 0 by lia.
Qed.

(** X4. [PushBack] that returns has appended the value: the elements are
    the old ones followed by the new one, the size is one more, and the
    container is well formed.  When there was room, [begin()] and the
    capacity are unchanged, so the old elements have kept their
    addresses. *)
Theorem PushBack_appends `{!ValueSemantics T} (s : state T) item l s' :
  wf s → elements s = Some l → PushBack item s = (Ret (), s') →
  elements s' = Some (l ++ [arg_value item]) ∧
  GetSize (this s') = GetSize (this s) + 1 ∧
  wf s' ∧
  (GetSize (this s) < GetCapacity (this s) →
   vec_begin (this s') = vec_begin (this s) ∧
   GetCapacity (this s') = GetCapacity (this s) ∧
   ∀ i, 0 ≤ i < GetSize (this s) →
     cells (mem s') !! (vec_begin (this s) + i) =
     cells (mem s) !! (vec_begin (this s) + i)).
Proof.
  intros Hwf Hl Hrun. unfold GetSize, GetCapacity, vec_begin.
  pose proof (PushBack_spec item s _ _ Hwf Hrun) as Hspec. cbv zeta in Hspec.
  destruct Hspec as [(? & _)|[(? & _)|(_ & Hsz & Hcap & Hwf' & Hel)]];
    [done|done|].
  split; [by apply Hel|]. split; [done|]. split; [done|].
  intros Hroom.
  pose proof (wf_size s Hwf) as Hs. pose proof (wf_space s Hwf) as Hspace.
  pose proof (wf_ptr s Hwf) as Hq.
  rewrite PushBack_room in Hrun by lia.
  apply bind_Ret in Hrun as ([] & s1 & Hassign & Hincr).
  apply assign_cell_touches in Hassign as (Hthis & _ & _ & Hframe).
  unfold incr_size, bind, get_this, set_size in Hincr.
  injection Hincr as <-. simpl. rewrite Hthis.
  split; [done|]. split; [done|].
  intros i Hi. apply Hframe. rewrite ptr_add_small by lia. lia.
Qed.

(** X5. [PushBack] followed by [PopBack] gives back the original sequence
    and size; the capacity never shrinks (it stays what [PushBack] left,
    which is at least the old one). *)
Theorem PushBack_then_PopBack `{!ValueSemantics T} (s : state T) item l s1 :
  wf s → elements s = Some l → PushBack item s = (Ret (), s1) →
  ∃ s2, PopBack s1 = (Ret (), s2) ∧
        elements s2 = Some l ∧
        GetSize (this s2) = GetSize (this s) ∧
        GetCapacity (this s2) = GetCapacity (this s1) ∧
        GetCapacity (this s) ≤ GetCapacity (this s2) ∧
        wf s2.
Proof.
  intros Hwf Hl Hrun. unfold GetSize, GetCapacity.
  pose proof (PushBack_spec item s _ _ Hwf Hrun) as Hspec. cbv zeta in Hspec.
  destruct Hspec as [(? & _)|[(? & _)|(_ & Hsz & Hcap & Hwf' & Hel)]];
    [done|done|].
  specialize (Hel _ l Hl).
  pose proof (wf_size s Hwf) as Hs.
  pose proof (elements_length s l Hl ltac:(lia)) as Hlen.
  rewrite PopBack_run by (by apply wf_size_small).
  eexists. split; [reflexivity|]. simpl.
  split; [|split; [lia|split; [done|split]]].
  - rewrite (elements_take s1 _ (l ++ [arg_value item]) (length l) Hel);
      simpl; try done.
    + by rewrite take_app_length.
    + rewrite length_app. lia.
    + lia.
  - rewrite Hcap. destruct (size_ (this s) =? capacity_ (this s)); lia.
  - apply wf_shrink; [done|lia].
Qed.

(** X6. On a well-formed container [PushBack(item)] does exactly what
    [Insert(end(), item)] does, whatever the outcome: the same result
    (up to the returned position) and the same final state. *)
Theorem PushBack_is_Insert_at_end (s : state T) item :
  wf s →
  PushBack item s = (Insert (vec_end (this s)) item;; ret ()) s.
Proof.
  intros Hwf. pose proof (wf_size_small s Hwf).
  pose proof (wf_space s Hwf). pose proof (wf_size s Hwf).
  rewrite (wf_end s Hwf). apply PushBack_as_Insert; [by apply wf_ptr|lia|lia].
Qed.

(** X7. On a non-empty well-formed container, erasing the last element,
    [Erase(end() - 1)], does exactly what [PopBack] does, and returns the
    new [end()]. *)
Theorem Erase_last_is_PopBack (s : state T) :
  wf s → 0 < GetSize (this s) →
  ∃ s', PopBack s = (Ret (), s') ∧
        Erase (vec_end (this s) +ₚ -1) s = (Ret (vec_end (this s')), s').
Proof.
  intros Hwf Hpos. unfold GetSize in Hpos.
  pose proof (wf_size_small s Hwf) as Hsmall.
  pose proof (wf_space s Hwf) as Hspace. pose proof (wf_size s Hwf) as Hsz.
  pose proof (wf_ptr s Hwf) as Hq.
  rewrite PopBack_run by done. eexists. split; [reflexivity|].
  rewrite (wf_end s Hwf), ptr_add_small by lia.
  rewrite Erase_in_range by lia.
  replace (ptr_ (this s) + size_ (this s) + -1 + 1)
    with (ptr_ (this s) + size_ (this s)) by lia.
  unfold bind at 1. rewrite DataOverwrite_empty.
  unfold bind, decr_size, get_this, set_size, ret. simpl.
  rewrite size_wrap_small by lia. unfold vec_end. simpl.
  replace (Z.max 0 (size_ (this s) - 1)) with (size_ (this s) - 1) by lia.
  rewrite ptr_add_small by lia. do 2 f_equal. lia.
Qed.

End BackProofs.

(** ** Filling a range with one value *)

Section Fill.
Context {T : Type} `{Element T}.

Lemma assign_cell_value `{!ValueSemantics T} dst item (s s' : state T) :
  assign_cell dst item s = (Ret (), s') →
  cells (mem s') !! dst = Some (arg_value item).
Proof.
  intros Hrun. destruct (cells (mem s) !! dst) as [d|] eqn:Hd.
  - destruct (assign_cell_run dst item s d Hd) as (s2 & Hrun2 & Hv).
    rewrite Hrun in Hrun2. injection Hrun2 as Hfin <-.
    symmetry in Hfin. apply finish_Ret in Hfin.
    destruct (assigned d item) as [c d'] eqn:Ha. simpl in Hfin, Hv. subst c.
    apply assigned_value in Ha. by subst d'.
  - by rewrite assign_cell_unmapped in Hrun.
Qed.

Lemma fill_touches item n first out (s : state T) r s' :
  0 ≤ first → first + Z.of_nat n < POINTER_MODULUS →
  0 ≤ out → out + Z.of_nat n < POINTER_MODULUS →
  forward_n (λ dst _, assign_cell dst item) n first out s = (r, s') →
  touches_only (λ a, out ≤ a < out + Z.of_nat n) s s'.
Proof.
  intros ? ? ? ? Hrun.
  apply (forward_n_touches _ (λ dst src a, a = dst)) in Hrun; [| |lia..].
  - eapply touches_only_weaken; [exact Hrun|]. intros a (j & Hj & ->). lia.
  - intros dst src s0 r1 s1. apply assign_cell_touches.
Qed.

Lemma fill_result item n first out (s : state T) r s' :
  0 ≤ first → first + Z.of_nat n < POINTER_MODULUS →
  0 ≤ out → out + Z.of_nat n < POINTER_MODULUS →
  (∀ a, out ≤ a < out + Z.of_nat n → is_Some (cells (mem s) !! a)) →
  forward_n (λ dst _, assign_cell dst item) n first out s = (r, s') →
  ((∃ o, r = Ret o) ∨ r = Throw element_error) ∧
  (NeverThrows T → ∃ o, r = Ret o).
Proof.
  revert first out s. induction n as [|n IH]; intros first out s ? ? ? ? Hm.
  - intros [= <- <-]. eauto.
  - rewrite forward_n_step by done. unfold bind.
    destruct (assign_cell out item s) as [r1 s1] eqn:Hop.
    pose proof (assign_cell_touches _ _ _ _ _ Hop) as (_ & _ & Hd & _).
    assert (is_Some (cells (mem s) !! out)) as Hout by (apply Hm; lia).
    pose proof (assign_cell_result _ _ _ _ _ Hop Hout) as Hcls.
    destruct r1 as [[]|e|].
    + apply IH; [lia..|]. intros a Ha. rewrite Hd. apply Hm. lia.
    + destruct Hcls as [?|[= ->]]; [done|]. intros [= <- <-].
      split; [by right|]. intros NT.
      by pose proof (assign_cell_total _ _ _ _ _ Hop Hout).
    + by destruct Hcls.
Qed.

Lemma fill_value `{!ValueSemantics T} item n first out (s : state T) o s' :
  0 ≤ first → first + Z.of_nat n < POINTER_MODULUS →
  0 ≤ out → out + Z.of_nat n < POINTER_MODULUS →
  forward_n (λ dst _, assign_cell dst item) n first out s = (Ret o, s') →
  ∀ a, out ≤ a < out + Z.of_nat n →
    cells (mem s') !! a = Some (arg_value item).
Proof.
  revert first out s. induction n as [|n IH]; intros first out s ? ? ? ?.
  - intros _ a Ha. lia.
  - rewrite forward_n_step by done.
    intros ([] & s1 & Hop & Hrest)%bind_Ret a Ha.
    destruct (decide (a = out)) as [->|Hne].
    + pose proof (fill_touches item n (first + 1) (out + 1) s1 _ s'
                    ltac:(lia) ltac:(lia) ltac:(lia) ltac:(lia) Hrest)
        as (_ & _ & _ & Hframe).
      rewrite Hframe by lia. by apply (assign_cell_value _ _ s).
    + apply (IH (first + 1) (out + 1) s1); [lia..|done|lia].
Qed.

(** [std::generate] with [Type()] over mapped slots. *)
Lemma std_generate_spec first last (s : state T) r s' :
  0 ≤ first ≤ last → last < POINTER_MODULUS →
  (∀ a, first ≤ a < last → is_Some (cells (mem s) !! a)) →
  std_generate first last s = (r, s') →
  touches_only (λ a, first ≤ a < last) s s' ∧
  (r = Ret () ∨ r = Throw element_error) ∧
  (NeverThrows T → r = Ret ()) ∧
  (ValueSemantics T → r = Ret () →
   ∀ a, first ≤ a < last → cells (mem s') !! a = Some value_init).
Proof.
  intros Hb Hlast Hm Hrun.
  split; [apply (std_generate_touches first last s r s'); [lia|done]|].
  unfold std_generate in Hrun.
  apply void_inv in Hrun as (r0 & [(? & _)|[_ Hrun]]%ranged_inv & Hr0); [lia|].
  pose proof (fill_result (ByMove value_init) (Z.to_nat (last - first))
                first first s r0 s' ltac:(lia) ltac:(lia)
                ltac:(lia) ltac:(lia)) as Hres.
  destruct Hres as (Hcls & Hnt); [|exact Hrun|].
  { intros a Ha. apply Hm. lia. }
  split; [|split].
  - destruct Hcls as [[o ->]| ->]; auto.
  - intros NT. destruct (Hnt NT) as [o ->]. done.
  - intros VS -> a Ha. destruct r0 as [o| |]; try done.
    change value_init with (arg_value (ByMove value_init)).
    eapply (fill_value _ (Z.to_nat (last - first)) first first s o s');
      [lia..|exact Hrun|lia].
Qed.

(** [std::fill_n] over mapped slots. *)
Lemma std_fill_n_spec first count value (s : state T) r s' :
  0 ≤ first → 0 ≤ count → first + count < POINTER_MODULUS →
  (∀ a, first ≤ a < first + count → is_Some (cells (mem s) !! a)) →
  std_fill_n first count value s = (r, s') →
  touches_only (λ a, first ≤ a < first + count) s s' ∧
  ((∃ o, r = Ret o) ∨ r = Throw element_error) ∧
  (NeverThrows T → ∃ o, r = Ret o) ∧
  (ValueSemantics T → (∃ o, r = Ret o) →
   ∀ a, first ≤ a < first + count → cells (mem s') !! a = Some value).
Proof.
  intros Hf Hc Hb Hm Hrun. unfold std_fill_n in Hrun.
  pose proof (fill_touches (ByCopy value) (Z.to_nat count) first first s r s'
                ltac:(lia) ltac:(lia) ltac:(lia) ltac:(lia) Hrun) as Ht.
  pose proof (fill_result (ByCopy value) (Z.to_nat count) first first s r s'
                ltac:(lia) ltac:(lia) ltac:(lia) ltac:(lia)) as Hres.
  destruct Hres as (Hcls & Hnt); [|exact Hrun|].
  { intros a Ha. apply Hm. lia. }
  split; [|split; [done|split; [done|]]].
  - eapply touches_only_weaken; [exact Ht|]. simpl. intros; lia.
  - intros VS [o ->] a Ha.
    change value with (arg_value (ByCopy value)).
    eapply (fill_value _ (Z.to_nat count) first first s o s');
      [lia..|exact Hrun|lia].
Qed.

End Fill.

(** ** Every outcome of the mutating operations *)

Section Outcomes.
Context {T : Type} `{Element T}.

Lemma touches_only_any P (s s' : state T) :
  touches_only P s s' → touches_only (λ _, True) s s'.
Proof. intros Ht. by eapply touches_only_weaken. Qed.

(** A local buffer whose scope is left by an exception is released, and the
    container is as well formed as it was. *)
Lemma scope_throw_wf {A} n (body : ArrayPtr → M T (A * ArrayPtr))
    (s : state T) e s' :
  wf s → n ≠ 0 →
  (∀ p s1 e' sb, 0 < p → p + n < POINTER_MODULUS →
     body p s1 = (Throw e', sb) → touches_only (λ _, True) s1 sb) →
  with_array n body s = (Throw e, s') →
  wf s' ∧ this s' = this s.
Proof.
  intros Hwf Hn Hbody
    [(_ & _ & ->)|(p & h1 & sb & h3 & Hnew & Hrun & Hdel & ->)]%with_array_Throw;
    [done|].
  apply new_array_Ret in Hnew as [(? & _)|(_ & _ & _ & Hp & Hpn & ->)]; [done|].
  assert (0 < p) as Hppos by (rewrite Hp; apply fresh_addr_pos).
  apply Hbody in Hrun as (Hthis & Hblk & Hdom & _); [|done..].
  simpl in Hthis, Hblk, Hdom.
  rewrite (delete_array_live _ p n) in Hdel; cycle 1.
  { rewrite Hblk. apply lookup_insert_eq. }
  { unfold nullptr. lia. }
  injection Hdel as <-. simpl. split; [|done].
  pose proof (wf_size s Hwf) as Hsz.
  assert (∀ i, 0 ≤ i < capacity_ (this s) → ptr_ (this s) + i < p) as Hbelow.
  { intros i Hi. rewrite Hp. apply fresh_addr_above. by apply (wf_cells s Hwf). }
  constructor; simpl; rewrite Hthis; try apply Hwf.
  - intros Hc. destruct (wf_block s Hwf Hc) as [Hq Hb]. split; [done|].
    pose proof (Hbelow 0 ltac:(lia)).
    rewrite Hblk, lookup_delete_ne, lookup_insert_ne by lia. done.
  - intros i Hi. pose proof (Hbelow i Hi).
    rewrite drop_cells_lookup. case_decide; [lia|].
    rewrite Hdom, fill_cells_lookup. case_decide; [lia|].
    by apply (wf_cells s Hwf).
Qed.

Lemma bind_Throw {A B} (m : M T A) (k : A → M T B) s e s' :
  bind m k s = (Throw e, s') →
  m s = (Throw e, s') ∨ ∃ a s1, m s = (Ret a, s1) ∧ k a s1 = (Throw e, s').
Proof.
  unfold bind. destruct (m s) as [[a|e0|] s1];
    [intros Hk; right; eauto|intros [= <- <-]; by left|discriminate].
Qed.

Lemma Insert_outcome pos item (s : state T) r s' :
  wf s → Insert pos item s = (r, s') → r ≠ Undefined ∧ wf s'.
Proof.
  intros Hwf Hrun.
  pose proof (wf_size s Hwf) as Hsz. pose proof (wf_capacity s Hwf) as Hcap.
  pose proof (wf_space s Hwf) as Hspace. pose proof (wf_ptr s Hwf) as Hq.
  pose proof PTRDIFF_MAX_lt as Hmax.
  pose proof (Insert_spec pos item s r s' Hwf Hrun) as Hspec.
  cbv zeta in Hspec.
  destruct Hspec as [(_ & -> & ->)|(Hin & [(-> & -> & _)|[(-> & Hthis & _)|
                                                         (-> & _ & _ & Hwf' & _)]])];
    try done.
  split; [done|].
  destruct (decide (size_ (this s) = capacity_ (this s))) as [Hfull|Hroom].
  - rewrite Insert_in_range in Hrun by lia. cbv zeta in Hrun.
    rewrite Insert_tail in Hrun. rewrite (proj2 (Z.eqb_eq _ _) Hfull) in Hrun.
    rewrite grown_wf in Hrun by lia.
    match type of Hrun with context [with_array ?n ?b s] =>
      destruct (with_array n b s) as [[a|e|] s2] eqn:Hw end; try done.
    injection Hrun as -> ->.
    eapply (scope_throw_wf _ _ s); [done| |..|exact Hw]; [lia|].
    intros p s1 e' sb Hp Hpn. cbv beta. rewrite !ptr_add_small by lia.
    intros Hb.
    pose proof (Insert_grow_body p (ptr_ (this s)) (pos - ptr_ (this s))
                  (size_ (this s)) _ item s1 _ sb ltac:(lia) ltac:(lia) Hb)
      as (Ht & _ & Hres).
    simpl in Hres. rewrite <- Hres in Ht.
    destruct sb as [mb tb]. by apply (touches_only_any _ _ _ Ht).
  - destruct (Insert_inplace pos item s _ s' Hwf Hroom Hin Hrun) as (Ht & _).
    rewrite <- Hthis in Ht. destruct s' as [m' t'].
    by apply (touches_only_wf _ _ _ Ht).
Qed.

Lemma PushBack_outcome item (s : state T) r s' :
  wf s → PushBack item s = (r, s') → r ≠ Undefined ∧ wf s'.
Proof.
  intros Hwf Hrun.
  pose proof (wf_size_small s Hwf). pose proof (wf_space s Hwf).
  pose proof (wf_size s Hwf). pose proof (wf_ptr s Hwf).
  rewrite PushBack_as_Insert in Hrun by lia.
  apply void_inv in Hrun as (r0 & Hrun & Hr).
  apply Insert_outcome in Hrun as [Hdef Hwf']; [|done].
  split; [|done]. by destruct r0; subst r.
Qed.

Lemma Erase_outcome pos (s : state T) r s' :
  wf s → 0 < capacity_ (this s) → Erase pos s = (r, s') →
  r ≠ Undefined ∧ wf s'.
Proof.
  intros Hwf Hbuf Hrun.
  pose proof (Erase_spec pos s r s' Hwf Hbuf Hrun) as Hspec.
  cbv zeta in Hspec.
  destruct Hspec as [(_ & -> & ->)|(_ & Ht & [(-> & Hthis & _)|
                                               (-> & _ & Hwf' & _)])];
    try done.
  split; [done|]. rewrite <- Hthis in Ht. destruct s' as [m' t'].
  by apply (touches_only_wf _ _ _ Ht).
Qed.

Lemma Reserve_outcome n (s : state T) r s' :
  wf s → Reserve n s = (r, s') → r ≠ Undefined ∧ wf s'.
Proof.
  intros Hwf Hrun.
  pose proof (wf_size s Hwf) as Hsz. pose proof (wf_space s Hwf) as Hspace.
  pose proof (wf_ptr s Hwf) as Hq.
  pose proof (Reserve_spec n s r s' Hwf Hrun) as Hspec. cbv zeta in Hspec.
  destruct Hspec as [(_ & -> & ->)|(Hlt & [(-> & -> & _)|[(-> & Hthis & _)|
                                                         (-> & _ & _ & _ & Hwf' & _)]])];
    try done.
  split; [done|]. rewrite Reserve_more in Hrun by lia.
  eapply (scope_throw_wf _ _ s); [done| |..|exact Hrun]; [lia|].
  intros p s1 e' sb Hp Hpn [Hb|(a & sA & Hb & Hrest)]%bind_Throw.
  - apply DataOverwrite_touches in Hb; [|lia]. by apply touches_only_any in Hb.
  - by unfold bind, ptr_swap, get_this, set_ptr, set_capacity, ret in Hrest.
Qed.

(** Every way a call of [Resize] on a well-formed container can end. *)
Lemma Resize_spec n (s : state T) r s' :
  wf s → 0 ≤ n → Resize n s = (r, s') →
  let q := ptr_ (this s) in
  let sz := size_ (this s) in
  let c := capacity_ (this s) in
  (r = Throw bad_alloc ∧ s' = s ∧ c < n ∧ can_allocate n (mem s) = false) ∨
  (r = Throw element_error ∧ this s' = this s ∧ wf s' ∧ sz < n ∧
   (n ≤ c → touches_only (λ a, q + sz ≤ a < q + n) s s') ∧
   ¬ NeverThrows T) ∨
  (r = Ret () ∧
   (c < n → can_allocate n (mem s) = true) ∧
   size_ (this s') = n ∧
   capacity_ (this s') = (if n <=? c then c else n) ∧
   (n ≤ c → ptr_ (this s') = q ∧ blocks (mem s') = blocks (mem s)) ∧
   wf s' ∧
   (ValueSemantics T → ∀ l, elements s = Some l →
      elements s' =
      Some (take (Z.to_nat n) l ++
            replicate (Z.to_nat n - length l) value_init))).
Proof.
  intros Hwf Hn Hrun q sz c.
  pose proof (wf_size s Hwf) as Hsz. pose proof (wf_capacity s Hwf) as Hcap.
  pose proof (wf_space s Hwf) as Hspace. pose proof (wf_ptr s Hwf) as Hq.
  fold q sz c in Hsz, Hcap, Hspace, Hq.
  destruct (decide (n ≤ c)) as [Hle|Hgt].
  - (* within the capacity *)
    unfold Resize in Hrun. unfold bind at 1 in Hrun.
    unfold get_this at 1 in Hrun. fold q sz c in Hrun.
    rewrite (proj2 (Z.leb_le _ _) Hle) in Hrun.
    rewrite !ptr_add_small in Hrun by lia.
    destruct (Z.ltb_spec sz n) as [Hgrow|Hshrink].
    + unfold bind at 1 in Hrun.
      destruct (std_generate (q + sz) (q + n) s) as [rg sg] eqn:Hgen.
      assert (∀ a, q + sz ≤ a < q + n → is_Some (cells (mem s) !! a)) as Hm.
      { intros a Ha. replace a with (q + (a - q)) by lia.
        apply (wf_cells s Hwf). fold c. lia. }
      pose proof (std_generate_spec (q + sz) (q + n) s _ _ ltac:(lia)
                    ltac:(lia) Hm Hgen)
        as (Ht & Hcls & Hnt & Hval).
      pose proof Ht as (Hthis & Hblk & Hdom & Hframe).
      destruct rg as [[]|e|]; cycle 1.
      * destruct Hcls as [?|[= ->]]; [done|]. injection Hrun as <- <-.
        right. left. split; [done|]. split; [done|].
        split; [by apply (touches_only_wf _ _ _ Ht)|]. split; [done|].
        split; [done|]. intros NT. by specialize (Hnt NT).
      * by destruct Hcls.
      * unfold set_size in Hrun. injection Hrun as <- <-. simpl.
        rewrite Hthis. fold q c. right. right.
        rewrite (proj2 (Z.leb_le _ _) Hle).
        split; [done|]. split; [lia|]. split; [done|]. split; [done|].
        split; [done|]. split.
        -- constructor; simpl; fold q c; [lia|lia|lia|..].
           ++ apply (wf_null s Hwf).
           ++ rewrite Hblk. apply (wf_block s Hwf).
           ++ intros i Hi. rewrite Hdom. by apply (wf_cells s Hwf).
        -- intros VS l Hl.
           pose proof (elements_length s l Hl ltac:(lia)) as Hlen.
           fold sz in Hlen. rewrite take_ge by lia.
           apply elements_intro; simpl.
           ++ rewrite length_app, length_replicate. lia.
           ++ fold q. intros k y Hk.
              destruct (decide (k < length l)%nat) as [Hlt|Hge].
              ** rewrite lookup_app_l in Hk by done.
                 rewrite Hframe by lia. by apply (elements_lookup s l).
              ** rewrite lookup_app_r in Hk by lia.
                 apply lookup_replicate in Hk as [-> Hk].
                 apply Hval; [done..|lia].
    + unfold bind, ret, set_size in Hrun. injection Hrun as <- <-. simpl.
      fold q c. right. right. rewrite (proj2 (Z.leb_le _ _) Hle).
      split; [done|]. split; [lia|]. split; [done|]. split; [done|].
      split; [done|]. split; [apply wf_shrink; [done|fold sz; lia]|].
      intros VS l Hl.
      pose proof (elements_length s l Hl ltac:(lia)) as Hlen. fold sz in Hlen.
      replace (Z.to_nat n - length l)%nat with 0%nat by lia.
      simpl. rewrite app_nil_r.
      apply (elements_take s _ l); simpl; try done; lia.
  - (* a new buffer *)
    assert (c < n) as Hlt by lia.
    rewrite Resize_more in Hrun by (fold q sz c; lia).
    fold q sz in Hrun. pose proof Hrun as Hrun0.
    rewrite with_array_run in Hrun.
    destruct (new_array n (mem s)) as [[p|e|] h1] eqn:Hnew; cycle 1.
    { apply new_array_Throw in Hnew as (-> & -> & Hcan).
      injection Hrun as <- <-. left. by destruct s. }
    { by apply new_array_defined in Hnew. }
    apply new_array_Ret in Hnew
      as [(Hn0 & _)|(_ & Hcan & Hnmax & Hp & Hpn & ->)]; [lia|].
    assert (0 < p) as Hppos by (rewrite Hp; apply fresh_addr_pos).
    assert (q + sz ≤ p) as Hsep.
    { destruct (decide (sz = 0)) as [Hz|Hnz].
      - destruct (decide (c = 0)) as [Hc0|Hc0].
        + pose proof (wf_null s Hwf Hc0) as Hnull. fold q in Hnull.
          unfold nullptr in Hnull. lia.
        + pose proof (wf_cells s Hwf 0 ltac:(fold c; lia)) as Hfirst.
          fold q in Hfirst. apply fresh_addr_above in Hfirst. lia.
      - pose proof (wf_cells s Hwf (sz - 1) ltac:(fold c; lia)) as Hlast.
        fold q in Hlast. apply fresh_addr_above in Hlast; lia. }
    assert (∀ e, r = Throw e → wf s' ∧ this s' = this s) as Hthrow.
    { intros e ->.
      eapply (scope_throw_wf _ _ s); [done| |..|exact Hrun0]; [lia|].
      intros p' s1' e' sb' Hp' Hpn' [Hb|([] & sA & Hb & Hrest)]%bind_Throw.
      - apply DataOverwrite_touches in Hb; [|lia].
        by apply touches_only_any in Hb.
      - apply DataOverwrite_touches in Hb; [|lia].
        rewrite !ptr_add_small in Hrest by lia.
        apply bind_Throw in Hrest as [Hg|([] & sB & Hg & Hrest)].
        + apply std_generate_touches in Hg; [|lia].
          eapply touches_only_trans; [exact Hb|exact Hg|done..].
        + by unfold bind, ptr_swap, get_this, set_ptr, set_size,
            set_capacity, ret in Hrest. }
    set (s1 := State _ (this s)) in Hrun.
    assert (∀ a, p ≤ a < p + n → cells (mem s1) !! a = Some value_init) as Hnewc.
    { intros a Ha. simpl. rewrite fill_cells_lookup. case_decide; [done|lia]. }
    assert (∀ a, a < p → cells (mem s1) !! a = cells (mem s) !! a) as Holdc.
    { intros a Ha. simpl. rewrite fill_cells_lookup. case_decide; [lia|done]. }
    unfold bind at 1 in Hrun.
    destruct (DataOverwrite q (q + sz) p s1) as [rb sb] eqn:Hbody.
    pose proof (DataOverwrite_touches q (q + sz) p s1 _ sb ltac:(lia) Hbody)
      as (Hthis & Hblk & Hdom & Hframe).
    assert (∀ j, 0 ≤ j < q + sz - q →
              is_Some (cells (mem s1) !! (q + j)) ∧
              is_Some (cells (mem s1) !! (p + j))) as Hmapped.
    { intros j Hj. split.
      - rewrite Holdc by lia. apply (wf_cells s Hwf). fold c. lia.
      - rewrite Hnewc by lia. eauto. }
    pose proof (DataOverwrite_result q (q + sz) p s1 rb sb ltac:(lia) ltac:(lia)
                  Hmapped Hbody) as Hcls.
    destruct rb as [[]|e|]; cycle 1.
    { destruct Hcls as [?|[= ->]]; [done|].
      rewrite (delete_array_live _ p n) in Hrun; cycle 1.
      { rewrite Hblk. apply lookup_insert_eq. }
      { unfold nullptr. lia. }
      injection Hrun as <- <-. right. left.
      destruct (Hthrow element_error eq_refl) as [Hwf' Hthis'].
      split; [done|]. split; [done|]. split; [done|]. split; [lia|].
      split; [lia|]. intros NT.
      by pose proof (DataOverwrite_total q (q + sz) p s1 _ sb ltac:(lia)
                       ltac:(lia) Hmapped Hbody). }
    { by destruct Hcls. }
    unfold bind at 1 in Hrun. rewrite !ptr_add_small in Hrun by lia.
    destruct (std_generate (p + sz) (p + n) sb) as [rg sg] eqn:Hgen.
    assert (∀ a, p + sz ≤ a < p + n → is_Some (cells (mem sb) !! a)) as Hm.
    { intros a Ha. rewrite Hdom, Hnewc by lia. eauto. }
    pose proof (std_generate_spec (p + sz) (p + n) sb _ _ ltac:(lia)
                  ltac:(lia) Hm Hgen)
      as ((Hthis2 & Hblk2 & Hdom2 & Hframe2) & Hcls2 & Hnt2 & Hval2).
    destruct rg as [[]|e|]; cycle 1.
    { destruct Hcls2 as [?|[= ->]]; [done|].
      rewrite (delete_array_live _ p n) in Hrun; cycle 1.
      { rewrite Hblk2, Hblk. apply lookup_insert_eq. }
      { unfold nullptr. lia. }
      injection Hrun as <- <-. right. left.
      destruct (Hthrow element_error eq_refl) as [Hwf' Hthis'].
      split; [done|]. split; [done|]. split; [done|]. split; [lia|].
      split; [lia|]. intros NT. by specialize (Hnt2 NT). }
    { by destruct Hcls2. }
    unfold bind, ptr_swap, get_this, set_ptr, set_size, set_capacity, ret
      in Hrun.
    simpl in Hrun. rewrite Hthis2, Hthis in Hrun. simpl in Hrun.
    destruct (release_old s (mem sg) p n Hwf Hp) as (h3 & Hdel & Hkeep & Hb3).
    { by rewrite Hblk2, Hblk. }
    rewrite Hdel in Hrun. injection Hrun as <- <-. simpl.
    right. right. rewrite (proj2 (Z.leb_gt _ _) Hlt).
    split; [done|]. split; [done|]. split; [done|]. split; [done|].
    split; [lia|]. split.
    + constructor; simpl; [lia|lia|lia|lia|..].
      * intros _. split; [lia|done].
      * intros j Hj. rewrite Hkeep by lia. apply Hdom2, Hdom.
        rewrite Hnewc by lia. eauto.
    + intros VS l Hl.
      pose proof (elements_length s l Hl ltac:(lia)) as Hlen. fold sz in Hlen.
      rewrite take_ge by lia.
      apply elements_intro; simpl.
      * rewrite length_app, length_replicate. lia.
      * intros k y Hk. rewrite Hkeep by lia.
        destruct (decide (k < length l)%nat) as [Hklt|Hkge].
        -- rewrite lookup_app_l in Hk by done. rewrite Hframe2 by lia.
           eapply (DataOverwrite_value q (q + sz) p); [lia|lia|exact Hbody|lia|].
           rewrite Holdc by lia. by apply (elements_lookup s l).
        -- rewrite lookup_app_r in Hk by lia.
           apply lookup_replicate in Hk as [-> Hk].
           apply Hval2; [done..|lia].
Qed.

Lemma Resize_outcome n (s : state T) r s' :
  wf s → 0 ≤ n → Resize n s = (r, s') → r ≠ Undefined ∧ wf s'.
Proof.
  intros Hwf Hn Hrun.
  pose proof (Resize_spec n s r s' Hwf Hn Hrun) as Hspec. cbv zeta in Hspec.
  destruct Hspec as [(-> & -> & _)|[(-> & _ & Hwf' & _)|
                                    (-> & _ & _ & _ & _ & Hwf' & _)]];
    done.
Qed.

End Outcomes.

Section OutcomeTheorems.
Context {T : Type} `{Element T}.

(** [PushBack] with room: one slot behind the live elements is written. *)
Lemma PushBack_in_place item (s : state T) r s' :
  wf s → size_ (this s) < capacity_ (this s) → PushBack item s = (r, s') →
  touches_only (λ a, a = ptr_ (this s) + size_ (this s))
    s (State (mem s') (this s)) ∧
  ptr_ (this s') = ptr_ (this s) ∧ capacity_ (this s') = capacity_ (this s).
Proof.
  intros Hwf Hroom.
  pose proof (wf_size s Hwf) as Hsz. pose proof (wf_space s Hwf) as Hspace.
  pose proof (wf_ptr s Hwf) as Hq.
  rewrite PushBack_room, ptr_add_small by lia. unfold bind.
  destruct (assign_cell _ item s) as [r1 s1] eqn:Hassign.
  pose proof (assign_cell_touches _ _ _ _ _ Hassign) as Ht.
  pose proof Ht as (Hthis & _).
  destruct r1 as [[]|e|].
  - unfold incr_size, bind, get_this, set_size. intros [= <- <-]. simpl.
    rewrite <- (touches_only_this _ _ _ Ht). by rewrite Hthis.
  - intros [= <- <-]. rewrite <- (touches_only_this _ _ _ Ht).
    by rewrite Hthis.
  - intros [= <- <-]. rewrite <- (touches_only_this _ _ _ Ht).
    by rewrite Hthis.
Qed.

(** A run of [PushBack] calls that fits into the spare capacity. *)
Lemma push_all_in_place (items : list (arg T)) (s : state T) r s' :
  wf s →
  size_ (this s) + Z.of_nat (length items) ≤ capacity_ (this s) →
  push_all items s = (r, s') →
  ptr_ (this s') = ptr_ (this s) ∧
  capacity_ (this s') = capacity_ (this s) ∧
  blocks (mem s') = blocks (mem s) ∧
  (∀ i, 0 ≤ i < size_ (this s) →
     cells (mem s') !! (ptr_ (this s) + i) =
     cells (mem s) !! (ptr_ (this s) + i)) ∧
  (NeverThrows T → r = Ret ()) ∧
  (r = Ret () →
   size_ (this s') = size_ (this s) + Z.of_nat (length items) ∧
   wf s' ∧
   (ValueSemantics T → ∀ l, elements s = Some l →
      elements s' = Some (l ++ map arg_value items))).
Proof.
  revert s. induction items as [|x rest IH]; intros s Hwf Hfit.
  - intros [= <- <-]. simpl. repeat (split; [done|]).
    intros _. split; [lia|]. split; [done|].
    intros _ l Hl. by rewrite app_nil_r.
  - simpl in Hfit. simpl push_all. unfold bind at 1.
    destruct (PushBack x s) as [r1 s1] eqn:Hpush.
    pose proof (wf_size s Hwf) as Hsz.
    destruct (PushBack_in_place x s r1 s1 Hwf ltac:(lia) Hpush)
      as ((_ & Hblk & _ & Hframe) & Hptr & Hcap).
    simpl in Hblk, Hframe.
    pose proof (PushBack_spec x s r1 s1 Hwf Hpush) as Hspec.
    cbv zeta in Hspec.
    destruct Hspec as [(_ & _ & ? & _)|[(-> & _ & Hnt)|
                                        (-> & Hsz1 & _ & Hwf1 & Hel1)]];
      [lia|..].
    + intros [= <- <-]. repeat (split; [done|]). split.
      * intros i Hi. apply Hframe. lia.
      * split; [intros NT; by destruct Hnt|done].
    + intros Hrest.
      destruct (IH s1 Hwf1 ltac:(lia) Hrest)
        as (Hptr' & Hcap' & Hblk' & Hframe' & Hnt' & Hret').
      rewrite Hptr in Hptr', Hframe'. rewrite Hcap in Hcap'.
      rewrite Hblk in Hblk'.
      split; [done|]. split; [done|]. split; [done|]. split.
      * intros i Hi. rewrite Hframe' by lia. apply Hframe. lia.
      * split; [done|]. intros Hr.
        destruct (Hret' Hr) as (Hsz' & Hwf' & Hel').
        split; [simpl length; lia|]. split; [done|].
        intros VS l Hl. rewrite (Hel' VS _ (Hel1 VS l Hl)).
        by rewrite <- app_assoc.
Qed.

(** X8. Appending within the capacity never reallocates.  When the values
    pushed one after the other fit into the spare capacity, then, however
    the sequence of [PushBack] calls ends, [begin()] and the capacity are
    what they were, no array has been allocated or released, and the
    elements that were there have not been touched; no call fails for an
    element type that never throws; and when all calls return, the size has
    grown by their number and the values follow the old elements. *)
Theorem PushBack_within_capacity (items : list (arg T)) (s : state T) r s' :
  wf s →
  GetSize (this s) + Z.of_nat (length items) ≤ GetCapacity (this s) →
  push_all items s = (r, s') →
  vec_begin (this s') = vec_begin (this s) ∧
  GetCapacity (this s') = GetCapacity (this s) ∧
  blocks (mem s') = blocks (mem s) ∧
  (∀ i, 0 ≤ i < GetSize (this s) →
     cells (mem s') !! (vec_begin (this s) + i) =
     cells (mem s) !! (vec_begin (this s) + i)) ∧
  (NeverThrows T → r = Ret ()) ∧
  (r = Ret () →
   GetSize (this s') = GetSize (this s) + Z.of_nat (length items) ∧
   wf s' ∧
   (ValueSemantics T → ∀ l, elements s = Some l →
      elements s' = Some (l ++ map arg_value items))).
Proof. apply push_all_in_place. Qed.

(** X9. Memory safety.  On a well-formed container no call of [PushBack],
    [Insert], [PopBack], [Clear], [Resize], [Reserve] or [At] runs into
    undefined behaviour, whatever the arguments and whatever the element
    type does; [Erase] does not either as long as the container has a
    buffer. *)
Theorem no_undefined_behaviour (s : state T) :
  wf s →
  (∀ item, (PushBack item s).1 ≠ Undefined) ∧
  (∀ pos item, (Insert pos item s).1 ≠ Undefined) ∧
  (PopBack s).1 ≠ Undefined ∧
  (Clear s).1 ≠ Undefined ∧
  (∀ n, 0 ≤ n → (Resize n s).1 ≠ Undefined) ∧
  (∀ n, (Reserve n s).1 ≠ Undefined) ∧
  (∀ index, (At index s).1 ≠ Undefined) ∧
  (0 < GetCapacity (this s) → ∀ pos, (Erase pos s).1 ≠ Undefined).
Proof.
  intros Hwf. split; [|split; [|split; [|split; [|split; [|split; [|split]]]]]].
  - intros item. destruct (PushBack item s) as [r s'] eqn:Hrun.
    by apply (PushBack_outcome item s r s').
  - intros pos item. destruct (Insert pos item s) as [r s'] eqn:Hrun.
    by apply (Insert_outcome pos item s r s').
  - by rewrite PopBack_run by (by apply wf_size_small).
  - done.
  - intros n Hn. destruct (Resize n s) as [r s'] eqn:Hrun.
    by apply (Resize_outcome n s r s').
  - intros n. destruct (Reserve n s) as [r s'] eqn:Hrun.
    by apply (Reserve_outcome n s r s').
  - intros index. unfold At, bind, get_this.
    by destruct (size_ (this s) <=? index).
  - intros Hbuf pos. destruct (Erase pos s) as [r s'] eqn:Hrun.
    by apply (Erase_outcome pos s r s').
Qed.

(** X10. The class invariant is kept.  Whatever way a call of [PushBack],
    [Insert], [PopBack], [Clear], [Resize] or [Reserve] on a well-formed
    container ends, by returning or by throwing, the container is well
    formed afterwards: [0 <= size <= capacity] and the buffer is a live
    array of [capacity] slots.  The same holds for [Erase] on a container
    that has a buffer. *)
Theorem invariant_kept (s : state T) :
  wf s →
  (∀ item, wf (PushBack item s).2) ∧
  (∀ pos item, wf (Insert pos item s).2) ∧
  wf (PopBack s).2 ∧
  wf (Clear s).2 ∧
  (∀ n, 0 ≤ n → wf (Resize n s).2) ∧
  (∀ n, wf (Reserve n s).2) ∧
  (0 < GetCapacity (this s) → ∀ pos, wf (Erase pos s).2).
Proof.
  intros Hwf. split; [|split; [|split; [|split; [|split; [|split]]]]].
  - intros item. destruct (PushBack item s) as [r s'] eqn:Hrun.
    by apply (PushBack_outcome item s r s').
  - intros pos item. destruct (Insert pos item s) as [r s'] eqn:Hrun.
    by apply (Insert_outcome pos item s r s').
  - rewrite PopBack_run by (by apply wf_size_small).
    pose proof (wf_size s Hwf). apply wf_shrink; [done|lia].
  - pose proof (wf_size s Hwf). apply wf_shrink; [done|lia].
  - intros n Hn. destruct (Resize n s) as [r s'] eqn:Hrun.
    by apply (Resize_outcome n s r s').
  - intros n. destruct (Reserve n s) as [r s'] eqn:Hrun.
    by apply (Reserve_outcome n s r s').
  - intros Hbuf pos. destruct (Erase pos s) as [r s'] eqn:Hrun.
    by apply (Erase_outcome pos s r s').
Qed.

(** X11. [Resize(n)] that returns leaves exactly [n] elements: the first
    [n] of the old ones, followed by value-initialised elements when [n]
    exceeds the old size.  The capacity is the old one when [n] fits into
    it, and then the buffer is the same; otherwise it is [n].  For an
    element type that never throws the call returns whenever the new buffer,
    if one is needed, can be allocated. *)
Theorem Resize_contents (s : state T) n l :
  wf s → elements s = Some l → 0 ≤ n →
  (∀ s', Resize n s = (Ret (), s') →
     GetSize (this s') = n ∧
     GetCapacity (this s') = Z.max n (GetCapacity (this s)) ∧
     (n ≤ GetCapacity (this s) → vec_begin (this s') = vec_begin (this s)) ∧
     (ValueSemantics T →
      elements s' =
      Some (take (Z.to_nat n) l ++
            replicate (Z.to_nat n - length l) value_init))) ∧
  (NeverThrows T →
   n ≤ GetCapacity (this s) ∨ can_allocate n (mem s) = true →
   ∃ s', Resize n s = (Ret (), s')).
Proof.
  intros Hwf Hl Hn. unfold GetSize, GetCapacity, vec_begin. split.
  - intros s' Hrun.
    pose proof (Resize_spec n s _ s' Hwf Hn Hrun) as Hspec. cbv zeta in Hspec.
    destruct Hspec as [(? & _)|[(? & _)|(_ & _ & Hsz & Hcap & Hptr & _ & Hel)]];
      [done|done|].
    split; [done|]. split; [|split].
    + rewrite Hcap. destruct (Z.leb_spec n (capacity_ (this s))); lia.
    + intros Hle. by apply Hptr.
    + intros VS. by apply Hel.
  - intros NT Hcan. destruct (Resize n s) as [r s'] eqn:Hrun.
    pose proof (Resize_spec n s r s' Hwf Hn Hrun) as Hspec. cbv zeta in Hspec.
    destruct Hspec as [(_ & _ & Hlt & Hno)|[(_ & _ & _ & _ & _ & Hnt)|(-> & _)]].
    + destruct Hcan as [?|Hyes]; [lia|]. by rewrite Hyes in Hno.
    + by destruct Hnt.
    + by exists s'.
Qed.

(** X12. [Resize(n)] that fails changes nothing a caller can observe: the
    three fields are as before and the container is well formed; when the
    failure comes from filling the new slots in place ([n <= capacity]),
    only slots behind the live elements have been written, so the elements
    are the same. *)
Theorem Resize_failure (s : state T) n l e s' :
  wf s → elements s = Some l → 0 ≤ n →
  Resize n s = (Throw e, s') →
  this s' = this s ∧ wf s' ∧
  (n ≤ GetCapacity (this s) → elements s' = Some l).
Proof.
  intros Hwf Hl Hn Hrun. unfold GetCapacity.
  pose proof (Resize_spec n s _ s' Hwf Hn Hrun) as Hspec. cbv zeta in Hspec.
  destruct Hspec as [(_ & -> & Hlt & _)|[(_ & Hthis & Hwf' & _ & Ht & _)|(? & _)]];
    [|..|done].
  - split; [done|]. split; [done|]. lia.
  - split; [done|]. split; [done|]. intros Hle.
    destruct (Ht Hle) as (_ & _ & _ & Hframe).
    pose proof (wf_size s Hwf) as Hsz.
    pose proof (elements_length s l Hl ltac:(lia)) as Hlen.
    rewrite <- (take_ge l (length l)) by lia.
    apply (elements_take s s' l (length l)); try done.
    + by rewrite Hthis.
    + rewrite Hthis. lia.
    + intros i Hi. apply Hframe. lia.
Qed.

End OutcomeTheorems.

(** ** Construction and destruction *)

Section ConstructionProofs.
Context {T : Type} `{Element T}.

Lemma constructor_run n size capacity body (s : state T) :
  constructor n size capacity body s =
  match new_array n (mem s) with
  | (Ret p, h1) =>
      match body (Vec p size capacity) (State h1 (Vec p size capacity)) with
      | (Ret a, sb) => (Ret a, sb)
      | (Throw e, sb) =>
          match delete_array (ptr_ (this sb)) (mem sb) with
          | Some h3 => (Throw e, State h3 (this sb))
          | None => (Undefined, sb)
          end
      | (Undefined, sb) => (Undefined, sb)
      end
  | (Throw e, h1) => (Throw e, State h1 (this s))
  | (Undefined, h1) => (Undefined, State h1 (this s))
  end.
Proof.
  unfold constructor, bind, ArrayPtr_new, set_this.
  destruct (new_array n (mem s)) as [[p|e|] h1]; try done. simpl.
  destruct (body _ _) as [[a|e|] sb]; try done.
  unfold ArrayPtr_delete. by destruct (delete_array _ _).
Qed.

(** A new object on a freshly allocated array is well formed. *)
Lemma wf_fresh (h : heap T) (sb : state T) p n size :
  n ≠ 0 → 0 ≤ size ≤ n → n ≤ PTRDIFF_MAX →
  p = fresh_addr (cells h) → p + n < POINTER_MODULUS →
  this sb = Vec p size n →
  blocks (mem sb) = <[p := n]> (blocks h) →
  (∀ a, p ≤ a < p + n → is_Some (cells (mem sb) !! a)) →
  wf sb.
Proof.
  intros Hn Hsz Hmax Hp Hpn Hthis Hblk Hdom.
  pose proof (fresh_addr_pos (cells h)) as Hpos.
  constructor; rewrite Hthis; simpl; [lia|lia|lia|lia|..].
  - intros _. split; [lia|]. rewrite Hblk. apply lookup_insert_eq.
  - intros i Hi. apply Hdom. lia.
Qed.

Lemma elements_replicate (s : state T) x :
  0 ≤ size_ (this s) →
  (∀ a, ptr_ (this s) ≤ a < ptr_ (this s) + size_ (this s) →
     cells (mem s) !! a = Some x) →
  elements s = Some (replicate (Z.to_nat (size_ (this s))) x).
Proof.
  intros Hsz Hall. apply elements_intro.
  - rewrite length_replicate. lia.
  - intros k y [-> Hk]%lookup_replicate. apply Hall. lia.
Qed.

(** Every way the filling constructor can end. *)
Lemma SimpleVector_fill_spec size value (s : state T) r s' :
  0 ≤ size → SimpleVector_fill size value s = (r, s') →
  let p := if size =? 0 then nullptr else fresh_addr (cells (mem s)) in
  (r = Throw bad_alloc ∧ s' = s ∧ size ≠ 0 ∧
   can_allocate size (mem s) = false) ∨
  (r = Throw element_error ∧ cells (mem s') = cells (mem s) ∧
   ¬ NeverThrows T) ∨
  (r = Ret () ∧ (size ≠ 0 → can_allocate size (mem s) = true) ∧
   this s' = Vec p size size ∧ wf s' ∧
   blocks (mem s') =
     (if size =? 0 then blocks (mem s) else <[p := size]> (blocks (mem s))) ∧
   (∀ a, ¬ (p ≤ a < p + size) → cells (mem s') !! a = cells (mem s) !! a) ∧
   (ValueSemantics T →
    elements s' = Some (replicate (Z.to_nat size) value))).
Proof.
  intros Hsize. unfold SimpleVector_fill. rewrite constructor_run.
  destruct (Z.eqb_spec size 0) as [->|Hnz]; cbv zeta.
  - simpl. intros [= <- <-]. right. right. simpl.
    split; [done|]. split; [done|]. split; [done|].
    split; [by apply wf_check_sound|]. split; [done|]. split; [done|].
    intros VS. by apply elements_intro.
  - destruct (new_array size (mem s)) as [[p|e|] h1] eqn:Hnew; cycle 1.
    { apply new_array_Throw in Hnew as (-> & -> & Hcan).
      intros [= <- <-]. left. by destruct s. }
    { by apply new_array_defined in Hnew. }
    apply new_array_Ret in Hnew
      as [(? & _)|(_ & Hcan & Hmax & Hp & Hpn & ->)]; [done|].
    rewrite <- Hp.
    assert (0 < p) as Hppos by (rewrite Hp; apply fresh_addr_pos).
    rewrite (proj2 (Z.ltb_lt 0 size)) by lia. simpl ptr_.
    set (s1 := State _ (Vec p size size)).
    assert (∀ a, p ≤ a < p + size → cells (mem s1) !! a = Some value_init)
      as Hnewc.
    { intros a Ha. simpl. rewrite fill_cells_lookup. case_decide; [done|lia]. }
    assert (∀ a, ¬ (p ≤ a < p + size) →
              cells (mem s1) !! a = cells (mem s) !! a) as Holdc.
    { intros a Ha. simpl. rewrite fill_cells_lookup. case_decide; [lia|done]. }
    unfold bind at 1.
    destruct (std_fill_n p size value s1) as [rf sf] eqn:Hfill.
    assert (∀ a, p ≤ a < p + size → is_Some (cells (mem s1) !! a)) as Hm.
    { intros a Ha. rewrite Hnewc by done. eauto. }
    pose proof (std_fill_n_spec p size value s1 _ _ ltac:(lia) ltac:(lia)
                  ltac:(lia) Hm Hfill)
      as ((Hthis & Hblk & Hdom & Hframe) & Hcls & Hnt & Hval).
    destruct rf as [o|e|]; cycle 1.
    + destruct Hcls as [[? ?]|[= ->]]; [done|]. rewrite Hthis. simpl.
      destruct (release_new (mem s) (mem sf) p size Hnz ltac:(lia) Hp Hblk)
        as (h3 & Hdel & Hc).
      { intros a Ha. by apply Hframe. }
      rewrite Hdel. intros [= <- <-]. right. left. simpl.
      split; [done|]. split; [done|]. intros NT. by destruct (Hnt NT).
    + by destruct Hcls as [[? ?]|?].
    + intros [= <- <-]. right. right.
      split; [done|]. split; [done|]. split; [done|]. split.
      { apply (wf_fresh (mem s) sf p size size); try done; try lia.
        intros a Ha. apply Hdom, Hm. done. }
      split; [done|]. split.
      { intros a Ha. rewrite Hframe by done. by apply Holdc. }
      intros VS.
      replace size with (size_ (this sf)) at 1 by (by rewrite Hthis).
      apply elements_replicate; rewrite Hthis; simpl; [lia|].
      intros a Ha. apply Hval; eauto.
Qed.

(** [std::copy] between two mapped ranges. *)
Lemma std_copy_spec first last out (s : state T) r s' :
  0 ≤ first ≤ last → last < POINTER_MODULUS →
  0 ≤ out → out + (last - first) < POINTER_MODULUS →
  (∀ j, 0 ≤ j < last - first →
     is_Some (cells (mem s) !! (first + j)) ∧
     is_Some (cells (mem s) !! (out + j))) →
  std_copy first last out s = (r, s') →
  touches_only (λ a, out ≤ a < out + (last - first)) s s' ∧
  ((∃ o, r = Ret o) ∨ r = Throw element_error) ∧
  (NeverThrows T → ∃ o, r = Ret o) ∧
  (ValueSemantics T → (∃ o, r = Ret o) → out < first ∨ last ≤ out →
   ∀ j x, 0 ≤ j < last - first →
     cells (mem s) !! (first + j) = Some x →
     cells (mem s') !! (out + j) = Some x).
Proof.
  intros Hf Hl Ho Hol Hm. unfold std_copy.
  intros [(? & _)|[_ Hrun]]%ranged_inv; [lia|].
  split; [|split; [|split]].
  - apply (forward_n_touches copy_cell (λ dst src a, a = dst)
             copy_cell_touches) in Hrun; [|lia..].
    eapply touches_only_weaken; [exact Hrun|].
    intros a (j & Hj & ->); lia.
  - apply (forward_n_result copy_cell (λ dst src a, a = dst) True
             copy_cell_touches copy_cell_result) in Hrun;
      [|lia..|intros; apply Hm; lia].
    destruct Hrun as [?|[-> _]]; auto.
  - intros NT.
    apply (forward_n_result copy_cell (λ dst src a, a = dst) False
             copy_cell_touches copy_cell_total) in Hrun;
      [|lia..|intros; apply Hm; lia].
    by destruct Hrun as [?|[_ []]].
  - intros VS [o ->] Hsep j x Hj.
    eapply (forward_n_value copy_cell (λ dst src a, a = dst)
              copy_cell_touches); [tauto|apply copy_cell_value|..|exact Hrun|];
      lia.
Qed.

(** Every way the copy constructor can end, given a well-formed source. *)
Lemma SimpleVector_copy_spec other (s : state T) r s' :
  wf (State (mem s) other) → SimpleVector_copy other s = (r, s') →
  let n := size_ other in
  let p := if n =? 0 then nullptr else fresh_addr (cells (mem s)) in
  (r = Throw bad_alloc ∧ s' = s ∧ n ≠ 0 ∧ can_allocate n (mem s) = false) ∨
  (r = Throw element_error ∧ cells (mem s') = cells (mem s) ∧
   ¬ NeverThrows T) ∨
  (r = Ret () ∧ (n ≠ 0 → can_allocate n (mem s) = true) ∧
   this s' = Vec p n n ∧ wf s' ∧
   blocks (mem s') =
     (if n =? 0 then blocks (mem s) else <[p := n]> (blocks (mem s))) ∧
   (∀ a, ¬ (p ≤ a < p + n) → cells (mem s') !! a = cells (mem s) !! a) ∧
   (∀ a, is_Some (cells (mem s) !! a) → a < p ∨ n = 0) ∧
   (ValueSemantics T → ∀ l, elements (State (mem s) other) = Some l →
      elements s' = Some l)).
Proof.
  intros Hwf. unfold SimpleVector_copy. rewrite constructor_run.
  pose proof (wf_size _ Hwf) as Hsz. pose proof (wf_space _ Hwf) as Hspace.
  pose proof (wf_ptr _ Hwf) as Hq. simpl in Hsz, Hspace, Hq.
  unfold cbegin, cend. rewrite (ptr_add_small (ptr_ other)) by lia.
  set (q := ptr_ other) in *. set (n := size_ other) in *.
  destruct (Z.eqb_spec n 0) as [Hz|Hnz]; cbv zeta.
  - rewrite Hz. simpl new_array. cbv iota beta. simpl ptr_.
    unfold std_copy, ranged, bind. rewrite Z.add_0_r, Z.ltb_irrefl, Z.sub_diag.
    simpl. intros [= <- <-]. right. right. simpl.
    split; [done|]. split; [done|]. split; [done|].
    split; [by apply wf_check_sound|]. split; [done|]. split; [done|].
    split; [auto|].
    intros VS l Hl.
    pose proof (elements_length _ l Hl ltac:(simpl; lia)) as Hlen.
    simpl in Hlen. fold n in Hlen. destruct l; [|simpl in Hlen; lia].
    by apply elements_intro.
  - destruct (new_array n (mem s)) as [[p|e|] h1] eqn:Hnew; cycle 1.
    { apply new_array_Throw in Hnew as (-> & -> & Hcan).
      intros [= <- <-]. left. by destruct s. }
    { by apply new_array_defined in Hnew. }
    apply new_array_Ret in Hnew
      as [(? & _)|(_ & Hcan & Hmax & Hp & Hpn & ->)]; [done|].
    rewrite <- Hp.
    assert (0 < p) as Hppos by (rewrite Hp; apply fresh_addr_pos).
    assert (∀ a, is_Some (cells (mem s) !! a) → a < p) as Hbelow.
    { intros a Ha. rewrite Hp. by apply fresh_addr_above. }
    assert (q + n ≤ p) as Hsep.
    { pose proof (wf_cells _ Hwf (n - 1) ltac:(simpl; lia)) as Hlast.
      simpl in Hlast. fold q in Hlast. apply Hbelow in Hlast. lia. }
    simpl ptr_.
    set (s1 := State _ (Vec p n n)).
    assert (∀ a, p ≤ a < p + n → cells (mem s1) !! a = Some value_init)
      as Hnewc.
    { intros a Ha. simpl. rewrite fill_cells_lookup. case_decide; [done|lia]. }
    assert (∀ a, ¬ (p ≤ a < p + n) →
              cells (mem s1) !! a = cells (mem s) !! a) as Holdc.
    { intros a Ha. simpl. rewrite fill_cells_lookup. case_decide; [lia|done]. }
    unfold bind at 1.
    destruct (std_copy q (q + n) p s1) as [rc sc] eqn:Hcopy.
    assert (∀ j, 0 ≤ j < q + n - q →
              is_Some (cells (mem s1) !! (q + j)) ∧
              is_Some (cells (mem s1) !! (p + j))) as Hm.
    { intros j Hj. split.
      - rewrite Holdc by lia. apply (wf_cells _ Hwf). simpl. lia.
      - rewrite Hnewc by lia. eauto. }
    pose proof (std_copy_spec q (q + n) p s1 _ _ ltac:(lia) ltac:(lia)
                  ltac:(lia) ltac:(lia) Hm Hcopy)
      as ((Hthis & Hblk & Hdom & Hframe) & Hcls & Hnt & Hval).
    destruct rc as [o|e|]; cycle 1.
    + destruct Hcls as [[? ?]|[= ->]]; [done|]. rewrite Hthis. simpl.
      destruct (release_new (mem s) (mem sc) p n Hnz ltac:(lia) Hp Hblk)
        as (h3 & Hdel & Hc).
      { intros a Ha. apply Hframe. lia. }
      rewrite Hdel. intros [= <- <-]. right. left. simpl.
      split; [done|]. split; [done|]. intros NT. by destruct (Hnt NT).
    + by destruct Hcls as [[? ?]|?].
    + intros [= <- <-]. right. right.
      split; [done|]. split; [done|]. split; [done|]. split.
      { apply (wf_fresh (mem s) sc p n n); try done; try lia.
        intros a Ha. apply Hdom. rewrite Hnewc by done. eauto. }
      split; [done|]. split.
      { intros a Ha. rewrite Hframe by lia. by apply Holdc. }
      split; [auto|].
      intros VS l Hl.
      pose proof (elements_length _ l Hl ltac:(simpl; lia)) as Hlen.
      simpl in Hlen. fold n in Hlen.
      apply elements_intro; rewrite Hthis; simpl; [lia|].
      intros k y Hk. pose proof (lookup_lt_Some _ _ _ Hk).
      eapply (Hval VS); [eauto|lia|lia|].
      rewrite Holdc by lia. exact (elements_lookup _ l _ _ Hl Hk).
Qed.

(** The destructor of an object on its own array gives the memory back. *)
Lemma destructor_fresh (h : heap T) (s : state T) p n :
  n ≠ 0 → 0 ≤ n → p = fresh_addr (cells h) →
  ptr_ (this s) = p →
  blocks (mem s) = <[p := n]> (blocks h) →
  (∀ a, ¬ (p ≤ a < p + n) → cells (mem s) !! a = cells h !! a) →
  ∃ s', destructor s = (Ret (), s') ∧ cells (mem s') = cells h.
Proof.
  intros Hn0 Hn Hp Hptr Hblk Hframe.
  unfold destructor, bind, get_this, ArrayPtr_delete. rewrite Hptr.
  destruct (release_new h (mem s) p n Hn0 Hn Hp Hblk) as (h3 & Hdel & Hc).
  { intros a Ha. rewrite Hframe by done. rewrite fill_cells_lookup.
    case_decide; [lia|done]. }
  rewrite Hdel. eauto.
Qed.

End ConstructionProofs.

Section ConstructionTheorems.
Context {T : Type} `{Element T}.

(** The invariant and the elements of an object depend on its own buffer
    only. *)
Lemma wf_transfer (h h' : heap T) v :
  wf (State h v) →
  (0 < capacity_ v → blocks h' !! ptr_ v = blocks h !! ptr_ v) →
  (∀ i, 0 ≤ i < capacity_ v → is_Some (cells h' !! (ptr_ v + i))) →
  wf (State h' v).
Proof.
  intros Hwf Hblk Hdom. constructor; simpl; try apply Hwf; [|done].
  intros Hc. rewrite Hblk by done. by apply (wf_block _ Hwf).
Qed.

Lemma elements_transfer (h h' : heap T) v :
  (∀ i, 0 ≤ i < size_ v → cells h' !! (ptr_ v + i) = cells h !! (ptr_ v + i)) →
  elements (State h' v) = elements (State h v).
Proof.
  intros Hsame. unfold elements. simpl. apply read_array_ext.
  intros i Hi. apply Hsame. lia.
Qed.

(** The destructor of a well-formed object releases its buffer, once, and
    nothing else. *)
Lemma destructor_run (s : state T) :
  wf s →
  let q := ptr_ (this s) in
  let c := capacity_ (this s) in
  ∃ h, destructor s = (Ret (), State h (this s)) ∧
       (∀ a, ¬ (q ≤ a < q + c) → cells h !! a = cells (mem s) !! a) ∧
       (∀ a, q ≤ a < q + c → cells h !! a = None) ∧
       (∀ b, b ≠ q → blocks h !! b = blocks (mem s) !! b) ∧
       (0 < c → blocks h !! q = None).
Proof.
  intros Hwf q c. unfold destructor, bind, get_this, ArrayPtr_delete.
  pose proof (wf_size s Hwf) as Hsz. fold c in Hsz.
  destruct (decide (c = 0)) as [Hz|Hnz].
  - pose proof (wf_null s Hwf Hz) as Hnull. rewrite Hnull.
    exists (mem s). simpl. split; [done|]. split; [done|].
    split; [intros; lia|]. split; [done|lia].
  - destruct (wf_block s Hwf ltac:(fold c; lia)) as [Hq Hb]. fold q c in Hq, Hb.
    rewrite (delete_array_live _ _ c) by (done || unfold nullptr; lia).
    eexists. split; [reflexivity|]. simpl. split; [|split; [|split]].
    + intros a Ha. rewrite drop_cells_lookup. case_decide; [lia|done].
    + intros a Ha. rewrite drop_cells_lookup. case_decide; [done|lia].
    + intros b Hne. by rewrite lookup_delete_ne.
    + intros _. apply lookup_delete_eq.
Qed.

(** X13. The filling constructor [SimpleVector(size, value)].  When it
    returns, size and capacity are [size], every element is [value], the
    object is well formed, and no element that was in memory before has been
    touched.  When it throws, the buffer has been released: the memory holds
    what it held before.  It returns for an element type that never throws
    whenever the buffer can be allocated.  [SimpleVector(size)] gives
    value-initialised elements. *)
Theorem filling_construction (s : state T) size value :
  0 ≤ size →
  (∀ s', SimpleVector_fill size value s = (Ret (), s') →
     GetSize (this s') = size ∧ GetCapacity (this s') = size ∧ wf s' ∧
     (∀ a, is_Some (cells (mem s) !! a) →
        cells (mem s') !! a = cells (mem s) !! a) ∧
     (ValueSemantics T →
      elements s' = Some (replicate (Z.to_nat size) value))) ∧
  (∀ e s', SimpleVector_fill size value s = (Throw e, s') →
     cells (mem s') = cells (mem s)) ∧
  (NeverThrows T → size = 0 ∨ can_allocate size (mem s) = true →
   ∃ s', SimpleVector_fill size value s = (Ret (), s')) ∧
  (ValueSemantics T → ∀ s', SimpleVector_sized size s = (Ret (), s') →
     elements s' = Some (replicate (Z.to_nat size) value_init)).
Proof.
  intros Hsize. unfold GetSize, GetCapacity.
  assert (∀ v s', SimpleVector_fill size v s = (Ret (), s') →
            size_ (this s') = size ∧ capacity_ (this s') = size ∧ wf s' ∧
            (∀ a, is_Some (cells (mem s) !! a) →
               cells (mem s') !! a = cells (mem s) !! a) ∧
            (ValueSemantics T →
             elements s' = Some (replicate (Z.to_nat size) v))) as Hret.
  { intros v s' Hrun.
    pose proof (SimpleVector_fill_spec size v s _ s' Hsize Hrun) as Hspec.
    cbv zeta in Hspec.
    destruct Hspec as [(? & _)|[(? & _)|(_ & _ & Hthis & Hwf & _ & Hframe & Hel)]];
      [done|done|].
    rewrite Hthis. simpl. split; [done|]. split; [done|]. split; [done|].
    split; [|done]. intros a Ha. apply Hframe.
    apply fresh_addr_above in Ha. unfold nullptr.
    destruct (Z.eqb_spec size 0); lia. }
  split; [by apply Hret|]. split; [|split].
  - intros e s' Hrun.
    pose proof (SimpleVector_fill_spec size value s _ s' Hsize Hrun) as Hspec.
    cbv zeta in Hspec.
    destruct Hspec as [(_ & -> & _)|[(_ & ? & _)|(? & _)]]; done.
  - intros NT Hcan. destruct (SimpleVector_fill size value s) as [r s'] eqn:Hrun.
    pose proof (SimpleVector_fill_spec size value s _ s' Hsize Hrun) as Hspec.
    cbv zeta in Hspec.
    destruct Hspec as [(_ & _ & Hnz & Hno)|[(_ & _ & Hnt)|(-> & _)]].
    + destruct Hcan as [?|Hyes]; [done|]. by rewrite Hyes in Hno.
    + by destruct Hnt.
    + by exists s'.
  - intros VS s' Hrun. by apply (Hret value_init s' Hrun).
Qed.

(** What the copy constructor leaves when it returns. *)
Lemma SimpleVector_copy_returns (s : state T) other l s' :
  wf (State (mem s) other) → elements (State (mem s) other) = Some l →
  SimpleVector_copy other s = (Ret (), s') →
  size_ (this s') = size_ other ∧
  capacity_ (this s') = size_ other ∧
  wf s' ∧
  wf (State (mem s') other) ∧
  elements (State (mem s') other) = Some l ∧
  (∀ i j, 0 ≤ i < capacity_ (this s') → 0 ≤ j < capacity_ other →
     ptr_ (this s') + i ≠ ptr_ other + j) ∧
  (ValueSemantics T → elements s' = Some l).
Proof.
  intros Hwf Hl Hrun.
  pose proof (wf_size _ Hwf) as Hsz. simpl in Hsz.
  pose proof (SimpleVector_copy_spec other s _ s' Hwf Hrun) as Hspec.
  cbv zeta in Hspec.
  destruct Hspec as [(? & _)|[(? & _)|(_ & _ & Hthis & Hwf' & Hblk & Hframe &
                                       Hbelow & Hel)]];
    [done|done|].
  assert (∀ j, 0 ≤ j < capacity_ other →
            ¬ ((if size_ other =? 0 then nullptr
                else fresh_addr (cells (mem s))) ≤ ptr_ other + j <
               (if size_ other =? 0 then nullptr
                else fresh_addr (cells (mem s))) + size_ other)) as Hout.
  { intros j Hj.
    pose proof (wf_cells _ Hwf j Hj) as Hm. simpl in Hm.
    destruct (Hbelow _ Hm) as [?|Hz]; [lia|]. rewrite Hz. simpl.
    unfold nullptr. lia. }
  rewrite Hthis. simpl.
  split; [done|]. split; [done|]. split; [done|]. split; [|split; [|split]].
  - apply (wf_transfer (mem s)); [done|..].
    + intros Hc. rewrite Hblk.
      destruct (Z.eqb_spec (size_ other) 0) as [Hz|Hnz]; [done|].
      rewrite lookup_insert_ne; [done|].
      pose proof (wf_cells _ Hwf 0 ltac:(simpl; lia)) as Hm. simpl in Hm.
      apply fresh_addr_above in Hm. lia.
    + intros i Hi. rewrite Hframe by (by apply Hout).
      by apply (wf_cells _ Hwf).
  - rewrite <- Hl. apply elements_transfer. intros i Hi.
    apply Hframe, Hout. lia.
  - intros i j Hi Hj Heq. apply (Hout j Hj). rewrite <- Heq. lia.
  - intros VS. by apply Hel.
Qed.

(** X14. The copy constructor, given a well-formed source.  When it
    returns, the new object has the elements of the source, its size and
    its capacity are the size of the source (not its capacity), and its
    buffer shares no slot with the buffer of the source, which is as it was.
    When it throws, the new buffer has been released: the memory holds what
    it held before. *)
Theorem copy_construction (s : state T) other l :
  wf (State (mem s) other) → elements (State (mem s) other) = Some l →
  (∀ s', SimpleVector_copy other s = (Ret (), s') →
     GetSize (this s') = GetSize other ∧
     GetCapacity (this s') = GetSize other ∧
     wf s' ∧
     wf (State (mem s') other) ∧
     elements (State (mem s') other) = Some l ∧
     (∀ i j, 0 ≤ i < GetCapacity (this s') → 0 ≤ j < GetCapacity other →
        vec_begin (this s') + i ≠ vec_begin other + j) ∧
     (ValueSemantics T → elements s' = Some l)) ∧
  (∀ e s', SimpleVector_copy other s = (Throw e, s') →
     cells (mem s') = cells (mem s)) ∧
  (NeverThrows T →
   GetSize other = 0 ∨ can_allocate (GetSize other) (mem s) = true →
   ∃ s', SimpleVector_copy other s = (Ret (), s')).
Proof.
  intros Hwf Hl. unfold GetSize, GetCapacity, vec_begin.
  pose proof (wf_size _ Hwf) as Hsz. simpl in Hsz.
  split; [|split].
  - intros s' Hrun. by apply (SimpleVector_copy_returns s other l s').
  - intros e s' Hrun.
    pose proof (SimpleVector_copy_spec other s _ s' Hwf Hrun) as Hspec.
    cbv zeta in Hspec.
    destruct Hspec as [(_ & -> & _)|[(_ & ? & _)|(? & _)]]; done.
  - intros NT Hcan. destruct (SimpleVector_copy other s) as [r s'] eqn:Hrun.
    pose proof (SimpleVector_copy_spec other s _ s' Hwf Hrun) as Hspec.
    cbv zeta in Hspec.
    destruct Hspec as [(_ & _ & Hnz & Hno)|[(_ & _ & Hnt)|(-> & _)]].
    + destruct Hcan as [?|Hyes]; [done|]. by rewrite Hyes in Hno.
    + by destruct Hnt.
    + by exists s'.
Qed.

(** X15. The destructor of a well-formed object never runs into undefined
    behaviour and releases exactly the buffer of the object: the array is
    no longer live, its slots are gone, and every other element in memory
    is where it was.  In particular construction followed by destruction
    leaves in memory what was there before. *)
Theorem destruction (s : state T) :
  (wf s →
   ∃ s', destructor s = (Ret (), s') ∧
     (∀ a, ¬ (vec_begin (this s) ≤ a < vec_begin (this s) + GetCapacity (this s)) →
        cells (mem s') !! a = cells (mem s) !! a) ∧
     (∀ a, vec_begin (this s) ≤ a < vec_begin (this s) + GetCapacity (this s) →
        cells (mem s') !! a = None) ∧
     (0 < GetCapacity (this s) → blocks (mem s') !! vec_begin (this s) = None)) ∧
  (∀ size value s1, 0 ≤ size →
     SimpleVector_fill size value s = (Ret (), s1) →
     ∃ s2, destructor s1 = (Ret (), s2) ∧ cells (mem s2) = cells (mem s)) ∧
  (∀ other s1, wf (State (mem s) other) →
     SimpleVector_copy other s = (Ret (), s1) →
     ∃ s2, destructor s1 = (Ret (), s2) ∧ cells (mem s2) = cells (mem s)).
Proof.
  unfold vec_begin, GetCapacity. split; [|split].
  - intros Hwf. destruct (destructor_run s Hwf) as (h & Hrun & H1 & H2 & _ & H3).
    eexists. split; [exact Hrun|]. simpl. done.
  - intros size value s1 Hsize Hrun.
    pose proof (SimpleVector_fill_spec size value s _ s1 Hsize Hrun) as Hspec.
    cbv zeta in Hspec.
    destruct Hspec as [(? & _)|[(? & _)|(_ & _ & Hthis & Hwf & Hblk & Hframe & _)]];
      [done|done|].
    destruct (Z.eqb_spec size 0) as [Hz|Hnz].
    + unfold destructor, bind, get_this, ArrayPtr_delete. rewrite Hthis. simpl.
      eexists. split; [reflexivity|]. simpl. apply map_eq. intros a.
      apply Hframe. lia.
    + apply (destructor_fresh (mem s) s1 (fresh_addr (cells (mem s))) size);
        try done.
      by rewrite Hthis.
  - intros other s1 Hwf Hrun.
    pose proof (wf_size _ Hwf) as Hsz. simpl in Hsz.
    pose proof (SimpleVector_copy_spec other s _ s1 Hwf Hrun) as Hspec.
    cbv zeta in Hspec.
    destruct Hspec as [(? & _)|[(? & _)|(_ & _ & Hthis & Hwf' & Hblk & Hframe & _)]];
      [done|done|].
    destruct (Z.eqb_spec (size_ other) 0) as [Hz|Hnz].
    + unfold destructor, bind, get_this, ArrayPtr_delete. rewrite Hthis. simpl.
      eexists. split; [reflexivity|]. simpl. apply map_eq. intros a.
      apply Hframe. lia.
    + apply (destructor_fresh (mem s) s1 (fresh_addr (cells (mem s)))
               (size_ other)); try done; [lia|].
      by rewrite Hthis.
Qed.

(** Every way the reserving constructor can end. *)
Lemma SimpleVector_reserved_spec n (s : state T) r s' :
  0 ≤ n → SimpleVector_reserved (Proxy.Reserve n) s = (r, s') →
  (r = Throw bad_alloc ∧ s' = s ∧ n ≠ 0 ∧ can_allocate n (mem s) = false) ∨
  (r = Ret () ∧ (n ≠ 0 → can_allocate n (mem s) = true) ∧
   size_ (this s') = 0 ∧ capacity_ (this s') = n ∧ wf s' ∧
   (∀ a, is_Some (cells (mem s) !! a) →
      cells (mem s') !! a = cells (mem s) !! a)).
Proof.
  intros Hn. unfold SimpleVector_reserved. rewrite constructor_run. simpl.
  destruct (Z.eqb_spec n 0) as [->|Hnz].
  - simpl. intros [= <- <-]. right. simpl.
    split; [done|]. split; [done|]. split; [done|]. split; [done|].
    split; [by apply wf_check_sound|done].
  - destruct (new_array n (mem s)) as [[p|e|] h1] eqn:Hnew; cycle 1.
    { apply new_array_Throw in Hnew as (-> & -> & Hcan).
      intros [= <- <-]. left. by destruct s. }
    { by apply new_array_defined in Hnew. }
    apply new_array_Ret in Hnew
      as [(? & _)|(_ & Hcan & Hmax & Hp & Hpn & ->)]; [done|].
    unfold ret. intros [= <- <-]. right. simpl.
    split; [done|]. split; [done|]. split; [done|]. split; [done|]. split.
    + apply (wf_fresh (mem s) _ p n 0); simpl; try done; try lia.
      intros a Ha. rewrite fill_cells_lookup. case_decide; [eauto|lia].
    + intros a Ha%fresh_addr_above. rewrite fill_cells_lookup.
      case_decide; [lia|done].
Qed.

(** X16. The reserving constructor [SimpleVector(Reserve(n))] fails only
    when the buffer cannot be allocated, and then changes nothing.
    Otherwise the object is empty with capacity [n], and up to [n] values
    can then be appended with [PushBack] without any reallocation: the
    buffer and the capacity stay, and the container holds exactly the
    values pushed. *)
Theorem reserving_construction (s : state T) n :
  0 ≤ n →
  ∀ r s', SimpleVector_reserved (Proxy.Reserve n) s = (r, s') →
  (r = Throw bad_alloc ∧ s' = s ∧ can_allocate n (mem s) = false) ∨
  (r = Ret () ∧ GetSize (this s') = 0 ∧ GetCapacity (this s') = n ∧
   wf s' ∧ elements s' = Some [] ∧
   ∀ items r' s'', Z.of_nat (length items) ≤ n →
     push_all items s' = (r', s'') →
     vec_begin (this s'') = vec_begin (this s') ∧
     GetCapacity (this s'') = n ∧
     (NeverThrows T → r' = Ret ()) ∧
     (r' = Ret () →
      GetSize (this s'') = Z.of_nat (length items) ∧
      (ValueSemantics T → elements s'' = Some (map arg_value items)))).
Proof.
  intros Hn r s' Hrun. unfold GetSize, GetCapacity, vec_begin.
  destruct (SimpleVector_reserved_spec n s r s' Hn Hrun)
    as [(-> & -> & _ & Hno)|(-> & _ & Hsz & Hcap & Hwf & _)]; [by left|].
  right. split; [done|]. split; [done|]. split; [done|]. split; [done|].
  assert (elements s' = Some []) as Hel by (apply elements_intro; [done|done]).
  split; [done|]. intros items r' s'' Hfit Hpush.
  destruct (push_all_in_place items s' r' s'' Hwf ltac:(lia) Hpush)
    as (Hptr & Hcap' & _ & _ & Hnt & Hret).
  split; [done|]. split; [lia|]. split; [done|].
  intros Hr. destruct (Hret Hr) as (Hsz' & _ & Hel').
  split; [lia|]. intros VS. by rewrite (Hel' VS [] Hel).
Qed.

End ConstructionTheorems.

(** ** Several objects: swap, move and copy *)

Section TransferProofs.
Context {T : Type} `{Element T}.

(** Releasing the buffer of a well-formed object. *)
Lemma release_buffer (h : heap T) v :
  wf (State h v) →
  ∃ h', delete_array (ptr_ v) h = Some h' ∧
        (∀ a, ¬ (ptr_ v ≤ a < ptr_ v + capacity_ v) →
           cells h' !! a = cells h !! a) ∧
        (∀ a, ptr_ v ≤ a < ptr_ v + capacity_ v → cells h' !! a = None) ∧
        (∀ b, b ≠ ptr_ v → blocks h' !! b = blocks h !! b) ∧
        (0 < capacity_ v → blocks h' !! ptr_ v = None).
Proof.
  intros Hwf. destruct (destructor_run _ Hwf) as (h' & Hrun & Hfacts).
  simpl in Hrun, Hfacts. exists h'. split; [|done].
  unfold destructor, bind, get_this, ArrayPtr_delete in Hrun. simpl in Hrun.
  destruct (delete_array (ptr_ v) h); [|done]. by injection Hrun as ->.
Qed.

(** X17. [swap] exchanges the three fields of two containers and touches no
    element: each container then has the buffer, the size and the capacity
    the other one had, every other object and the whole memory are as they
    were, and swapping again restores the original state.  The free function
    [swap] does the same. *)
Theorem swap_exchanges (w : world T) a b va vb :
  objects w !! a = Some va → objects w !! b = Some vb →
  ∃ w', swap a b w = (Ret (), w') ∧
        swap_free a b w = (Ret (), w') ∧
        heap_of w' = heap_of w ∧
        objects w' !! a = Some vb ∧
        objects w' !! b = Some va ∧
        (∀ c, c ≠ a → c ≠ b → objects w' !! c = objects w !! c) ∧
        swap a b w' = (Ret (), w).
Proof.
  intros Ha Hb. unfold swap_free, swap. rewrite Ha, Hb.
  eexists. split; [reflexivity|]. split; [reflexivity|]. simpl.
  split; [done|]. split; [|split; [|split]].
  - destruct (decide (a = b)) as [->|Hne].
    + rewrite lookup_insert_eq. congruence.
    + by rewrite lookup_insert_ne, lookup_insert_eq.
  - by rewrite lookup_insert_eq.
  - intros c Hca Hcb. by rewrite !lookup_insert_ne.
  - assert (<[b:=va]> (<[a:=vb]> (objects w)) !! a = Some vb) as ->.
    { destruct (decide (a = b)) as [->|Hne].
      - rewrite lookup_insert_eq. congruence.
      - by rewrite lookup_insert_ne, lookup_insert_eq. }
    rewrite lookup_insert_eq. destruct w as [h objs]. simpl in *.
    f_equal. f_equal. apply map_eq. intros c.
    destruct (decide (c = b)) as [->|Hcb]; [by rewrite lookup_insert_eq|].
    rewrite lookup_insert_ne by done.
    destruct (decide (c = a)) as [->|Hca]; [by rewrite lookup_insert_eq|].
    by rewrite !lookup_insert_ne.
Qed.

(** X18. Move construction takes the buffer over: the new object has the
    buffer, the size and the capacity of the source, so the elements are the
    same at the same addresses; the source is left as a default-constructed
    container (null buffer, size 0, capacity 0), which is well formed; the
    memory is untouched, so no element has been moved or copied. *)
Theorem move_construction (w : world T) self other b :
  self ≠ other → objects w !! other = Some b →
  ∃ w', construct_move self other w = (Ret (), w') ∧
        heap_of w' = heap_of w ∧
        objects w' !! self = Some b ∧
        objects w' !! other = Some default_vector ∧
        wf (State (heap_of w') default_vector) ∧
        (∀ c, c ≠ self → c ≠ other → objects w' !! c = objects w !! c).
Proof.
  intros Hne Hb.
  unfold construct_move, ArrayPtr_exchange, ArrayPtr_move_assign.
  rewrite Hb. simpl. eexists. split; [reflexivity|]. simpl.
  split; [done|]. split; [|split; [|split]].
  - rewrite lookup_insert_eq. by destruct b.
  - by rewrite lookup_insert_ne, lookup_insert_eq.
  - by apply wf_check_sound.
  - intros c Hcs Hco. by rewrite !lookup_insert_ne.
Qed.

(** X19. Move assignment from another container, both well formed and on
    buffers of their own: the call returns, the target has the buffer, the
    size and the capacity of the source and with them its elements, the
    source is left as a default-constructed container, and the buffer the
    target had is released: its array is no longer live. *)
Theorem move_assignment (w : world T) self rhs a b :
  self ≠ rhs → objects w !! self = Some a → objects w !! rhs = Some b →
  wf (State (heap_of w) a) → wf (State (heap_of w) b) →
  (∀ i j, 0 ≤ i < capacity_ a → 0 ≤ j < capacity_ b →
     ptr_ a + i ≠ ptr_ b + j) →
  ∃ w', assign_move self rhs w = (Ret (), w') ∧
        objects w' !! self = Some b ∧
        objects w' !! rhs = Some default_vector ∧
        wf (State (heap_of w') b) ∧
        elements (State (heap_of w') b) = elements (State (heap_of w) b) ∧
        (0 < capacity_ a → blocks (heap_of w') !! ptr_ a = None) ∧
        (∀ x, ptr_ a ≤ x < ptr_ a + capacity_ a →
           cells (heap_of w') !! x = None).
Proof.
  intros Hne Ha Hb Hwfa Hwfb Hdisj.
  destruct (release_buffer _ _ Hwfa) as (h' & Hdel & Hout & Hin & Hblk & Hgone).
  unfold assign_move, ArrayPtr_move_assign.
  destruct (decide (self = rhs)) as [?|_]; [done|].
  rewrite Ha, Hb, Hdel. eexists. split; [reflexivity|]. simpl.
  pose proof (wf_size _ Hwfa) as Hsza. pose proof (wf_size _ Hwfb) as Hszb.
  simpl in Hsza, Hszb.
  assert (∀ j, 0 ≤ j < capacity_ b →
            ¬ (ptr_ a ≤ ptr_ b + j < ptr_ a + capacity_ a)) as Hsep.
  { intros j Hj Hr. apply (Hdisj (ptr_ b + j - ptr_ a) j); lia. }
  split; [|split; [|split; [|split]]].
  - rewrite lookup_insert_ne, lookup_insert_eq by done. by destruct b.
  - by rewrite lookup_insert_eq.
  - apply (wf_transfer (heap_of w)); [done|..].
    + intros Hc. apply Hblk. intros Heq.
      destruct (decide (capacity_ a = 0)) as [Hz|Hnz].
      * pose proof (wf_null _ Hwfa Hz) as Hnull. simpl in Hnull.
        destruct (wf_block _ Hwfb Hc) as [Hpos _]. simpl in Hpos.
        unfold nullptr in Hnull. lia.
      * apply (Hsep 0); lia.
    + intros i Hi. rewrite Hout by (by apply Hsep).
      by apply (wf_cells _ Hwfb).
  - apply elements_transfer. intros i Hi. apply Hout, Hsep. lia.
  - done.
Qed.

(** X20. Copy assignment, both containers well formed and on buffers of
    their own.  Assigning a container to itself changes nothing.  Otherwise
    a call that returns leaves the target with the elements of the source
    on a new buffer, size and capacity being the size of the source; the
    source is as it was, and the buffer the target had is released.  A call
    that throws leaves every object and every element in memory as they
    were before the call.  No call runs into undefined behaviour. *)
Theorem copy_assignment (w : world T) self rhs a b l :
  objects w !! self = Some a → objects w !! rhs = Some b →
  wf (State (heap_of w) a) → wf (State (heap_of w) b) →
  elements (State (heap_of w) b) = Some l →
  (self ≠ rhs → ∀ i j, 0 ≤ i < capacity_ a → 0 ≤ j < capacity_ b →
     ptr_ a + i ≠ ptr_ b + j) →
  (self = rhs → assign_copy self rhs w = (Ret (), w)) ∧
  (self ≠ rhs → ∀ r w', assign_copy self rhs w = (r, w') →
     r ≠ Undefined ∧
     (∀ e, r = Throw e →
        objects w' = objects w ∧ cells (heap_of w') = cells (heap_of w)) ∧
     (r = Ret () →
      ∃ v, objects w' !! self = Some v ∧ objects w' !! rhs = Some b ∧
           size_ v = size_ b ∧ capacity_ v = size_ b ∧
           wf (State (heap_of w') v) ∧
           wf (State (heap_of w') b) ∧
           elements (State (heap_of w') b) = Some l ∧
           (ValueSemantics T → elements (State (heap_of w') v) = Some l) ∧
           (0 < capacity_ a → blocks (heap_of w') !! ptr_ a = None))).
Proof.
  intros Ha Hb Hwfa Hwfb Hl Hdisj. unfold assign_copy. split.
  { intros Heq. by destruct (decide (self = rhs)). }
  intros Hne r w'. destruct (decide (self = rhs)) as [?|_]; [done|].
  specialize (Hdisj Hne). rewrite Ha, Hb.
  pose proof (wf_size _ Hwfa) as Hsza. pose proof (wf_size _ Hwfb) as Hszb.
  simpl in Hsza, Hszb.
  set (s := State (heap_of w) default_vector).
  destruct (SimpleVector_copy b s) as [rc s1] eqn:Hcopy.
  pose proof (SimpleVector_copy_spec b s rc s1 Hwfb Hcopy) as Hspec.
  cbv zeta in Hspec. simpl in Hspec.
  destruct Hspec as [(-> & -> & _)|[(-> & Hcells & _)|
    (-> & _ & Hthis & Hwf1 & Hblk1 & Hframe1 & Hbelow & Hel1)]].
  - intros [= <- <-]. split; [done|]. split; [|done]. by intros e _.
  - intros [= <- <-]. split; [done|]. split; [|done]. by intros e _.
  - set (n := size_ b) in *.
    set (p := if n =? 0 then nullptr else fresh_addr (cells (heap_of w))) in *.
    assert (∀ v' i, wf (State (heap_of w) v') → 0 ≤ i < capacity_ v' →
              ¬ (p ≤ ptr_ v' + i < p + n)) as Hold.
    { intros v' i Hwfv Hi. pose proof (wf_cells _ Hwfv i Hi) as Hm.
      simpl in Hm. destruct (Hbelow _ Hm) as [?|Hz]; [lia|].
      unfold p. rewrite Hz. simpl. unfold nullptr. lia. }
    assert (∀ v', wf (State (heap_of w) v') → wf (State (mem s1) v')) as Hkeep.
    { intros v' Hwfv. apply (wf_transfer (heap_of w)); [done|..].
      - intros Hc. rewrite Hblk1.
        destruct (Z.eqb_spec n 0) as [Hz|Hnz]; [done|].
        rewrite lookup_insert_ne; [done|].
        pose proof (Hold v' 0 Hwfv ltac:(lia)). lia.
      - intros i Hi. rewrite Hframe1 by (by apply Hold).
        by apply (wf_cells _ Hwfv). }
    destruct (destructor_run _ (Hkeep a Hwfa))
      as (h2 & Hrun & Hout & Hin & Hblk2 & Hgone).
    simpl in Hrun, Hout, Hin, Hblk2, Hgone. rewrite Hrun. simpl.
    intros [= <- <-]. split; [done|]. split; [done|]. intros _. simpl.
    assert (∀ j, 0 ≤ j < capacity_ b →
              ¬ (ptr_ a ≤ ptr_ b + j < ptr_ a + capacity_ a)) as Hsep.
    { intros j Hj Hr. apply (Hdisj (ptr_ b + j - ptr_ a) j); lia. }
    assert (∀ i, 0 ≤ i < capacity_ a → ptr_ a + i < p ∨ n = 0) as Hlow.
    { intros i Hi. apply Hbelow. by apply (wf_cells _ Hwfa). }
    exists (this s1). rewrite lookup_insert_eq.
    rewrite lookup_insert_ne by done. rewrite Hthis. simpl.
    split; [done|]. split; [done|]. split; [done|]. split; [done|].
    split; [|split; [|split; [|split]]].
    + rewrite <- Hthis. apply (wf_transfer (mem s1)); [by destruct s1|..].
      * rewrite Hthis. simpl. intros Hn. apply Hblk2.
        intros Heq. destruct (decide (capacity_ a = 0)) as [Hz|Hnz].
        -- pose proof (wf_null _ Hwfa Hz) as Hnull. simpl in Hnull.
           destruct (wf_block _ Hwf1) as [Hpos _]; [by rewrite Hthis|].
           rewrite Hthis in Hpos. simpl in Hpos. unfold nullptr in Hnull. lia.
        -- destruct (Hlow 0 ltac:(lia)); lia.
      * rewrite Hthis. simpl. intros i Hi. rewrite Hout.
        -- pose proof (wf_cells _ Hwf1 i) as Hm. rewrite Hthis in Hm.
           by apply Hm.
        -- intros Hr. destruct (Hlow (p + i - ptr_ a) ltac:(lia)); lia.
    + apply (wf_transfer (mem s1)); [by apply Hkeep|..].
      * intros Hc. apply Hblk2. intros Heq.
        destruct (decide (capacity_ a = 0)) as [Hz|Hnz].
        -- pose proof (wf_null _ Hwfa Hz) as Hnull. simpl in Hnull.
           destruct (wf_block _ Hwfb Hc) as [Hpos _]. simpl in Hpos.
           unfold nullptr in Hnull. lia.
        -- apply (Hsep 0); lia.
      * intros i Hi. rewrite Hout by (by apply Hsep).
        by apply (wf_cells _ (Hkeep b Hwfb)).
    + rewrite <- Hl. etransitivity.
      * apply (elements_transfer (mem s1)). intros i Hi. apply Hout, Hsep. lia.
      * apply elements_transfer. intros i Hi. apply Hframe1, Hold; [done|lia].
    + intros VS. rewrite <- (Hel1 VS l Hl). rewrite <- Hthis.
      rewrite (elements_transfer (mem s1) h2 (this s1)); [by destruct s1|].
      rewrite Hthis. simpl. intros i Hi.
      apply Hout. intros Hr. destruct (Hlow (p + i - ptr_ a) ltac:(lia)); lia.
    + done.
Qed.

End TransferProofs.

(** ** Comparison *)

Section ComparisonProofs.
Context {T : Type} `{Element T} `{Comparable T}.

Lemma load_run a x (s : state T) :
  cells (mem s) !! a = Some x → load a s = (Ret x, s).
Proof. intros Ha. unfold load. by rewrite Ha. Qed.

(** [std::equal] over two ranges that hold [l1] and [l2]. *)
Lemma equal_n_run (l1 l2 : list T) first1 first2 (s : state T) :
  length l1 = length l2 →
  0 ≤ first1 → first1 + Z.of_nat (length l1) < POINTER_MODULUS →
  0 ≤ first2 → first2 + Z.of_nat (length l2) < POINTER_MODULUS →
  (∀ (i : nat) x, l1 !! i = Some x →
     cells (mem s) !! (first1 + Z.of_nat i) = Some x) →
  (∀ (i : nat) y, l2 !! i = Some y →
     cells (mem s) !! (first2 + Z.of_nat i) = Some y) →
  ∃ b, equal_n (length l1) first1 first2 s = (Ret b, s) ∧
       (b = true ↔ Forall2 (λ x y, elem_eqb x y = true) l1 l2).
Proof.
  revert l2 first1 first2.
  induction l1 as [|x l1 IH]; intros [|y l2] first1 first2 Hlen;
    try discriminate; intros Hf1 Hb1 Hf2 Hb2 Hl1 Hl2.
  - exists true. split; [done|]. split; [constructor|done].
  - simpl in Hb1, Hb2. simpl equal_n. unfold bind.
    rewrite (load_run first1 x), (load_run first2 y); cycle 1.
    { rewrite <- (Z.add_0_r first2). by apply (Hl2 0%nat). }
    { rewrite <- (Z.add_0_r first1). by apply (Hl1 0%nat). }
    destruct (elem_eqb x y) eqn:Hxy.
    + rewrite !ptr_add_small by lia.
      destruct (IH l2 (first1 + 1) (first2 + 1)) as (b & Hrun & Hb);
        [simpl in Hlen; lia|lia..| | |].
      { intros i x' Hi. replace (first1 + 1 + Z.of_nat i)
          with (first1 + Z.of_nat (S i)) by lia. by apply Hl1. }
      { intros i y' Hi. replace (first2 + 1 + Z.of_nat i)
          with (first2 + Z.of_nat (S i)) by lia. by apply Hl2. }
      exists b. split; [done|]. rewrite Hb. split.
      * intros Hall. by constructor.
      * intros Hall. by inversion Hall.
    + exists false. split; [done|]. split; [done|].
      intros Hall. inversion Hall. congruence.
Qed.

(** [operator==] and [operator!=] on two well-formed containers. *)
Lemma operator_eq_run (s : state T) rhs l1 l2 :
  wf s → wf (State (mem s) rhs) →
  elements s = Some l1 → elements (State (mem s) rhs) = Some l2 →
  ∃ b, operator_eq rhs s = (Ret b, s) ∧
       operator_ne rhs s = (Ret (negb b), s) ∧
       (b = true ↔ Forall2 (λ x y, elem_eqb x y = true) l1 l2).
Proof.
  intros Hwf1 Hwf2 Hl1 Hl2.
  pose proof (wf_size _ Hwf1) as Hsz1. pose proof (wf_size _ Hwf2) as Hsz2.
  pose proof (wf_space _ Hwf1) as Hsp1. pose proof (wf_space _ Hwf2) as Hsp2.
  pose proof (wf_ptr _ Hwf1) as Hq1. pose proof (wf_ptr _ Hwf2) as Hq2.
  pose proof (elements_length _ l1 Hl1 ltac:(lia)) as Hlen1.
  pose proof (elements_length _ l2 Hl2 ltac:(lia)) as Hlen2.
  simpl in Hsz2, Hsp2, Hq2, Hlen2.
  assert (∃ b, operator_eq rhs s = (Ret b, s) ∧
               (b = true ↔ Forall2 (λ x y, elem_eqb x y = true) l1 l2))
    as (b & Hrun & Hb).
  { unfold operator_eq, bind, get_this.
    destruct (Z.eqb_spec (size_ (this s)) (size_ rhs)) as [Heq|Hne]; simpl.
    - unfold std_equal, cbegin, cend. rewrite ptr_add_small by lia.
      destruct (Z.ltb_spec (ptr_ (this s) + size_ (this s)) (ptr_ (this s)));
        [lia|].
      replace (Z.to_nat (ptr_ (this s) + size_ (this s) - ptr_ (this s)))
        with (length l1) by lia.
      apply equal_n_run; try lia.
      + intros i x. apply (elements_lookup s l1 i x Hl1).
      + intros i y. apply (elements_lookup _ l2 i y Hl2).
    - exists false. split; [done|]. split; [done|].
      intros Hall%Forall2_length. lia. }
  exists b. split; [done|]. split; [|done].
  unfold operator_ne, bind. by rewrite Hrun.
Qed.

(** X21. [operator==] and [operator!=] on two well-formed containers in the
    same memory.  Both return and change nothing; [==] is true exactly when
    the sizes agree and the elements at the same index compare equal with
    the [==] of the element type, and [!=] is its negation.  When [==] on
    elements is equality, [==] on containers is equality of the element
    sequences. *)
Theorem equality_comparison (s : state T) rhs l1 l2 :
  wf s → wf (State (mem s) rhs) →
  elements s = Some l1 → elements (State (mem s) rhs) = Some l2 →
  ∃ b, operator_eq rhs s = (Ret b, s) ∧
       operator_ne rhs s = (Ret (negb b), s) ∧
       (b = true ↔ Forall2 (λ x y, elem_eqb x y = true) l1 l2) ∧
       ((∀ x y, elem_eqb x y = true ↔ x = y) → (b = true ↔ l1 = l2)).
Proof.
  intros Hwf1 Hwf2 Hl1 Hl2.
  destruct (operator_eq_run s rhs l1 l2 Hwf1 Hwf2 Hl1 Hl2)
    as (b & Hrun & Hne & Hb).
  exists b. split; [done|]. split; [done|]. split; [done|].
  intros Heq. rewrite Hb. split.
  - intros Hall. apply list_eq_Forall2.
    eapply Forall2_impl; [exact Hall|]. intros x y. apply Heq.
  - intros ->. apply Forall_Forall2_diag, Forall_forall.
    intros x _. by apply Heq.
Qed.

(** [std::lexicographical_compare_three_way] behind a common prefix of
    equivalent elements. *)
Lemma compare_n_prefix (p1 p2 r1 r2 : list T) first1 first2 (s : state T) :
  Forall2 (λ x y, elem_compare x y = Equivalent) p1 p2 →
  0 ≤ first1 → first1 + Z.of_nat (length (p1 ++ r1)) < POINTER_MODULUS →
  0 ≤ first2 → first2 + Z.of_nat (length (p2 ++ r2)) < POINTER_MODULUS →
  (∀ (i : nat) x, (p1 ++ r1) !! i = Some x →
     cells (mem s) !! (first1 + Z.of_nat i) = Some x) →
  (∀ (i : nat) y, (p2 ++ r2) !! i = Some y →
     cells (mem s) !! (first2 + Z.of_nat i) = Some y) →
  compare_n (length (p1 ++ r1)) (length (p2 ++ r2)) first1 first2 s =
  compare_n (length r1) (length r2)
    (first1 + Z.of_nat (length p1)) (first2 + Z.of_nat (length p2)) s.
Proof.
  intros Hall. revert first1 first2.
  induction Hall as [|x y p1 p2 Hxy Hall IH];
    intros first1 first2 Hf1 Hb1 Hf2 Hb2 Hl1 Hl2.
  - simpl. by rewrite !Z.add_0_r.
  - simpl in Hb1, Hb2. simpl compare_n. unfold bind.
    rewrite (load_run first1 x), (load_run first2 y); cycle 1.
    { rewrite <- (Z.add_0_r first2). by apply (Hl2 0%nat). }
    { rewrite <- (Z.add_0_r first1). by apply (Hl1 0%nat). }
    rewrite Hxy, !ptr_add_small by lia.
    rewrite IH; [|lia..| |].
    + simpl length. f_equal; lia.
    + intros i x' Hi. replace (first1 + 1 + Z.of_nat i)
        with (first1 + Z.of_nat (S i)) by lia. by apply Hl1.
    + intros i y' Hi. replace (first2 + 1 + Z.of_nat i)
        with (first2 + Z.of_nat (S i)) by lia. by apply Hl2.
Qed.

(** X22. [operator<=>] on two well-formed containers in the same memory
    compares lexicographically and changes nothing.  Behind a common prefix
    of pairwise equivalent elements, the first pair of elements that is not
    equivalent decides with its own result; when one sequence ends there,
    the shorter one is less; when both end, the containers are
    equivalent. *)
Theorem three_way_comparison (s : state T) rhs p1 p2 r1 r2 :
  wf s → wf (State (mem s) rhs) →
  elements s = Some (p1 ++ r1) →
  elements (State (mem s) rhs) = Some (p2 ++ r2) →
  Forall2 (λ x y, elem_compare x y = Equivalent) p1 p2 →
  (r1 = [] → r2 = [] → operator_cmp rhs s = (Ret Equivalent, s)) ∧
  (r1 = [] → r2 ≠ [] → operator_cmp rhs s = (Ret Less, s)) ∧
  (r1 ≠ [] → r2 = [] → operator_cmp rhs s = (Ret Greater, s)) ∧
  (∀ x y t1 t2, r1 = x :: t1 → r2 = y :: t2 →
     elem_compare x y ≠ Equivalent →
     operator_cmp rhs s = (Ret (elem_compare x y), s)).
Proof.
  intros Hwf1 Hwf2 Hl1 Hl2 Hall.
  pose proof (wf_size _ Hwf1) as Hsz1. pose proof (wf_size _ Hwf2) as Hsz2.
  pose proof (wf_space _ Hwf1) as Hsp1. pose proof (wf_space _ Hwf2) as Hsp2.
  pose proof (wf_ptr _ Hwf1) as Hq1. pose proof (wf_ptr _ Hwf2) as Hq2.
  pose proof (elements_length _ _ Hl1 ltac:(lia)) as Hlen1.
  pose proof (elements_length _ _ Hl2 ltac:(lia)) as Hlen2.
  simpl in Hsz2, Hsp2, Hq2, Hlen2.
  assert (operator_cmp rhs s =
          compare_n (length r1) (length r2)
            (ptr_ (this s) + Z.of_nat (length p1))
            (ptr_ rhs + Z.of_nat (length p2)) s) as ->.
  { unfold operator_cmp, bind, get_this.
    unfold std_lexicographical_compare_three_way, cbegin, cend.
    rewrite !ptr_add_small by lia.
    destruct (Z.ltb_spec (ptr_ (this s) + size_ (this s)) (ptr_ (this s)));
      [lia|].
    destruct (Z.ltb_spec (ptr_ rhs + size_ rhs) (ptr_ rhs)); [lia|]. simpl.
    replace (Z.to_nat (ptr_ (this s) + size_ (this s) - ptr_ (this s)))
      with (length (p1 ++ r1)) by lia.
    replace (Z.to_nat (ptr_ rhs + size_ rhs - ptr_ rhs))
      with (length (p2 ++ r2)) by lia.
    apply compare_n_prefix; try done; try lia.
    - intros i x. apply (elements_lookup s _ i x Hl1).
    - intros i y. apply (elements_lookup _ _ i y Hl2). }
  split; [|split; [|split]].
  - by intros -> ->.
  - intros ->. by destruct r2.
  - intros Hr1 ->. by destruct r1.
  - intros x y t1 t2 -> -> Hxy. simpl compare_n. unfold bind.
    assert (length p1 < length (p1 ++ x :: t1))%nat as Hi1
      by (rewrite length_app; simpl; lia).
    assert (length p2 < length (p2 ++ y :: t2))%nat as Hi2
      by (rewrite length_app; simpl; lia).
    rewrite (load_run _ x), (load_run _ y); cycle 1.
    { apply (elements_lookup _ _ _ _ Hl2). by rewrite list_lookup_middle. }
    { apply (elements_lookup _ _ _ _ Hl1). by rewrite list_lookup_middle. }
    by destruct (elem_compare x y).
Qed.

End ComparisonProofs.

(** ** Construction from a list, iteration, and capacity kept for later *)

Section MoreTheorems.
Context {T : Type} `{Element T}.

(** X23. Construction from an initializer list whose [n] elements [l] lie
    at [init_begin].  When the constructor returns, size and capacity are
    [n], the object is well formed and its elements are [l] in order; when
    elements are relocated by copy, the array of the list is unchanged.  For
    an element type that never throws the constructor returns whenever the
    buffer can be allocated. *)
Theorem list_construction (s : state T) init_begin l :
  let n := Z.of_nat (length l) in
  0 ≤ init_begin → init_begin + n < POINTER_MODULUS →
  read_array (cells (mem s)) init_begin (length l) = Some l →
  (∀ s', SimpleVector_list init_begin n s = (Ret (), s') →
     GetSize (this s') = n ∧ GetCapacity (this s') = n ∧ wf s' ∧
     (ValueSemantics T → elements s' = Some l) ∧
     (negb is_copy_assignable || is_nothrow_move_assignable = false →
      read_array (cells (mem s')) init_begin (length l) = Some l)) ∧
  (NeverThrows T → l = [] ∨ can_allocate n (mem s) = true →
   ∃ s', SimpleVector_list init_begin n s = (Ret (), s')).
Proof.
  intros n Hinit Hb Hread. unfold GetSize, GetCapacity.
  pose proof Hread as [_ Hlook]%read_array_Some.
  unfold SimpleVector_list. rewrite constructor_run.
  rewrite ptr_add_small by lia. simpl ptr_.
  destruct l as [|x0 l0].
  { subst n. simpl. rewrite Z.add_0_r, DataOverwrite_empty. split.
    - intros s' [= <-]. simpl. split; [done|]. split; [done|].
      split; [by apply wf_check_sound|]. split; [|done].
      intros _. by apply elements_intro.
    - intros _ _. eauto. }
  set (l := x0 :: l0) in *.
  assert (n ≠ 0) as Hnz by (unfold n, l; simpl; lia).
  destruct (new_array n (mem s)) as [[p|e|] h1] eqn:Hnew; cycle 1.
  { apply new_array_Throw in Hnew as (-> & -> & Hcan). split; [done|].
    intros _ [?|Hyes]; [done|]. by rewrite Hyes in Hcan. }
  { by apply new_array_defined in Hnew. }
  apply new_array_Ret in Hnew
    as [(? & _)|(_ & Hcan & Hmax & Hp & Hpn & ->)]; [done|].
  assert (0 < p) as Hppos by (rewrite Hp; apply fresh_addr_pos).
  assert (∀ j, 0 ≤ j < n → is_Some (cells (mem s) !! (init_begin + j)))
    as Hsrc.
  { intros j Hj.
    destruct (lookup_lt_is_Some_2 l (Z.to_nat j)) as [x Hx]; [lia|].
    exists x. replace j with (Z.of_nat (Z.to_nat j)) by lia. by apply Hlook. }
  assert (init_begin + n ≤ p) as Hsep.
  { pose proof (Hsrc (n - 1) ltac:(lia)) as Hlast.
    rewrite Hp. apply fresh_addr_above in Hlast. lia. }
  set (s1 := State _ (Vec p n n)).
  assert (∀ a, p ≤ a < p + n → cells (mem s1) !! a = Some value_init) as Hnewc.
  { intros a Ha. simpl. rewrite fill_cells_lookup. case_decide; [done|lia]. }
  assert (∀ a, a < p → cells (mem s1) !! a = cells (mem s) !! a) as Holdc.
  { intros a Ha. simpl. rewrite fill_cells_lookup. case_decide; [lia|done]. }
  destruct (DataOverwrite init_begin (init_begin + n) p s1) as [rb sb] eqn:Hbody.
  pose proof (DataOverwrite_touches init_begin (init_begin + n) p s1 _ sb
                ltac:(lia) Hbody) as (Hthis & Hblk & Hdom & Hframe).
  assert (∀ j, 0 ≤ j < init_begin + n - init_begin →
            is_Some (cells (mem s1) !! (init_begin + j)) ∧
            is_Some (cells (mem s1) !! (p + j))) as Hmapped.
  { intros j Hj. split.
    - rewrite Holdc by lia. apply Hsrc. lia.
    - rewrite Hnewc by lia. eauto. }
  split.
  - destruct rb as [[]|e|]; [|destruct (delete_array _ _); done|done].
    intros s' [= <-]. rewrite Hthis. simpl.
    split; [done|]. split; [done|]. split; [|split].
    + apply (wf_fresh (mem s) sb p n n); try done; try lia.
      intros a Ha. apply Hdom. rewrite Hnewc by done. eauto.
    + intros VS. apply elements_intro; rewrite Hthis; simpl; [done|].
      intros k y Hk. pose proof (lookup_lt_Some _ _ _ Hk).
      eapply (DataOverwrite_value init_begin (init_begin + n) p);
        [lia|lia|exact Hbody|fold n; lia|].
      rewrite Holdc by (fold n; lia). by apply Hlook.
    + intros Hpol.
      pose proof (DataOverwrite_copy_touches init_begin (init_begin + n) p s1
                    _ sb ltac:(lia) Hpol Hbody) as (_ & _ & _ & Hframe').
      rewrite <- Hread. apply read_array_ext. intros i Hi.
      rewrite Hframe', Holdc by (fold n; lia). done.
  - intros NT _.
    pose proof (DataOverwrite_total init_begin (init_begin + n) p s1 _ sb
                  ltac:(lia) ltac:(lia) Hmapped Hbody) as ->.
    eauto.
Qed.

(** X24. [Erase] on a well-formed container that has a buffer.  The call
    fails with [out_of_range] exactly for positions outside [[begin, end)],
    and then changes nothing.  A call that returns has removed the element
    at the position: the elements before it stay, those behind it follow,
    the size is one less, buffer and capacity are the same, and the result
    is the position given.  A call that fails because an element operation
    throws leaves the size and the elements before the position as they
    were.  For an element type that never throws every call with a position
    in range returns. *)
Theorem Erase_removes (s : state T) pos l :
  wf s → 0 < GetCapacity (this s) → elements s = Some l →
  let i := Z.to_nat (pos - vec_begin (this s)) in
  (pos < vec_begin (this s) ∨ vec_end (this s) ≤ pos →
   Erase pos s = (Throw out_of_range, s)) ∧
  (vec_begin (this s) ≤ pos < vec_end (this s) →
   (∀ s' r, Erase pos s = (Ret r, s') →
      r = pos ∧ GetSize (this s') = GetSize (this s) - 1 ∧
      vec_begin (this s') = vec_begin (this s) ∧
      GetCapacity (this s') = GetCapacity (this s) ∧
      (ValueSemantics T → elements s' = Some (take i l ++ drop (S i) l))) ∧
   (∀ e s', Erase pos s = (Throw e, s') →
      e = element_error ∧ this s' = this s ∧
      ∀ k, 0 ≤ k < pos - vec_begin (this s) →
        cells (mem s') !! (vec_begin (this s) + k) =
        cells (mem s) !! (vec_begin (this s) + k)) ∧
   (NeverThrows T → ∃ s', Erase pos s = (Ret pos, s'))).
Proof.
  intros Hwf Hbuf Hl i. unfold GetCapacity, GetSize, vec_begin in *.
  rewrite (wf_end s Hwf). split.
  - intros Hout. destruct (Erase pos s) as [r s'] eqn:Hrun.
    pose proof (Erase_spec pos s r s' Hwf Hbuf Hrun) as Hspec.
    cbv zeta in Hspec.
    destruct Hspec as [(_ & -> & ->)|(? & _)]; [done|lia].
  - intros Hin. split; [|split].
    + intros s' r Hrun.
      pose proof (Erase_spec pos s _ s' Hwf Hbuf Hrun) as Hspec.
      cbv zeta in Hspec.
      destruct Hspec as [(? & _)|(_ & _ & [(? & _)|([= ->] & Hthis & _ & Hel)])];
        [lia|done|].
      rewrite Hthis. simpl. repeat (split; [done|]).
      intros VS. by apply Hel.
    + intros e s' Hrun.
      pose proof (Erase_spec pos s _ s' Hwf Hbuf Hrun) as Hspec.
      cbv zeta in Hspec.
      destruct Hspec as [(? & _)|(_ & Ht & [([= ->] & Hthis & _)|(? & _)])];
        [lia| |done].
      split; [done|]. split; [done|].
      destruct Ht as (_ & _ & _ & Hframe). simpl in Hframe.
      intros k Hk. apply Hframe. lia.
    + intros NT. destruct (Erase pos s) as [r s'] eqn:Hrun.
      pose proof (Erase_spec pos s r s' Hwf Hbuf Hrun) as Hspec.
      cbv zeta in Hspec.
      destruct Hspec as [(? & _)|(_ & _ & [(_ & _ & Hnt)|(-> & _)])];
        [lia|by destruct Hnt|eauto].
Qed.

(** X25. Iteration.  On a well-formed container [begin()] and [end()] span
    exactly the elements: [end()] lies [GetSize()] slots behind [begin()]
    without wrapping around, the slot [begin() + i] holds element [i] for
    every [i < GetSize()], the constant iterators are the same positions,
    and [IsEmpty()] holds exactly when [begin() == end()], that is, when
    there is no element. *)
Theorem iteration (s : state T) l :
  wf s → elements s = Some l →
  vec_end (this s) = vec_begin (this s) + GetSize (this s) ∧
  GetSize (this s) = Z.of_nat (length l) ∧
  (∀ (i : nat), (i < length l)%nat →
     cells (mem s) !! (vec_begin (this s) + Z.of_nat i) = l !! i) ∧
  cbegin (this s) = vec_begin (this s) ∧ cend (this s) = vec_end (this s) ∧
  (IsEmpty (this s) = true ↔ vec_begin (this s) = vec_end (this s)) ∧
  (IsEmpty (this s) = true ↔ l = []).
Proof.
  intros Hwf Hl. pose proof (wf_size s Hwf) as Hsz.
  pose proof (elements_length s l Hl ltac:(lia)) as Hlen.
  rewrite (wf_end s Hwf). unfold vec_begin, GetSize, IsEmpty, cbegin, cend.
  split; [done|]. split; [done|]. split; [|split; [done|split; [|split]]].
  - intros i Hi. destruct (lookup_lt_is_Some_2 l i Hi) as [x Hx].
    rewrite Hx. by apply (elements_lookup s l).
  - apply (wf_end s Hwf).
  - rewrite Z.eqb_eq. lia.
  - rewrite Z.eqb_eq. destruct l; simpl in *; split; (done || lia).
Qed.

(** X26. [Clear] empties the container and keeps its buffer: the size is
    0, capacity, buffer and memory are as before, and as many values as the
    capacity holds can then be appended with [PushBack] without any
    reallocation, after which the container holds exactly those values. *)
Theorem Clear_keeps_capacity (s : state T) :
  wf s →
  ∃ s', Clear s = (Ret (), s') ∧
        GetSize (this s') = 0 ∧ elements s' = Some [] ∧ wf s' ∧
        mem s' = mem s ∧
        vec_begin (this s') = vec_begin (this s) ∧
        GetCapacity (this s') = GetCapacity (this s) ∧
        ∀ items r s'',
          Z.of_nat (length items) ≤ GetCapacity (this s) →
          push_all items s' = (r, s'') →
          vec_begin (this s'') = vec_begin (this s) ∧
          GetCapacity (this s'') = GetCapacity (this s) ∧
          (r = Ret () → ValueSemantics T →
           elements s'' = Some (map arg_value items)).
Proof.
  intros Hwf. pose proof (wf_size s Hwf) as Hsz.
  eexists. split; [reflexivity|].
  unfold GetSize, GetCapacity, vec_begin. simpl.
  assert (wf (State (mem s) (Vec (ptr_ (this s)) 0 (capacity_ (this s)))))
    as Hwf' by (apply wf_shrink; [done|lia]).
  split; [done|]. split; [by apply elements_intro|]. split; [done|].
  split; [done|]. split; [done|]. split; [done|].
  intros items r s'' Hfit Hpush.
  destruct (push_all_in_place items _ r s'' Hwf' ltac:(simpl; lia) Hpush)
    as (Hptr & Hcap & _ & _ & _ & Hret).
  simpl in Hptr, Hcap. split; [done|]. split; [done|].
  intros Hr VS. destruct (Hret Hr) as (_ & _ & Hel).
  apply (Hel VS []). by apply elements_intro.
Qed.

(** X27. [Reserve] makes room for later appends.  After [Reserve(n)] has
    returned, values that fit into the capacity are appended by [PushBack]
    without any reallocation: [begin()] and the capacity stay what
    [Reserve] left, and when all calls return the container holds the old
    elements followed by the values pushed. *)
Theorem Reserve_then_PushBack (s : state T) n l s1 :
  wf s → elements s = Some l → Reserve n s = (Ret (), s1) →
  GetCapacity (this s1) = Z.max n (GetCapacity (this s)) ∧
  ∀ items r s2,
    GetSize (this s) + Z.of_nat (length items) ≤ GetCapacity (this s1) →
    push_all items s1 = (r, s2) →
    vec_begin (this s2) = vec_begin (this s1) ∧
    GetCapacity (this s2) = GetCapacity (this s1) ∧
    (NeverThrows T → r = Ret ()) ∧
    (r = Ret () →
     GetSize (this s2) = GetSize (this s) + Z.of_nat (length items) ∧
     (ValueSemantics T → elements s2 = Some (l ++ map arg_value items))).
Proof.
  intros Hwf Hl Hrun. unfold GetCapacity, GetSize, vec_begin.
  pose proof (Reserve_spec n s _ s1 Hwf Hrun) as Hspec. cbv zeta in Hspec.
  assert (capacity_ (this s1) = Z.max n (capacity_ (this s)) ∧
          size_ (this s1) = size_ (this s) ∧ wf s1 ∧
          (ValueSemantics T → elements s1 = Some l)) as (Hcap & Hsz & Hwf1 & Hel1).
  { destruct Hspec as [(Hle & _ & ->)|(Hlt & [(? & _)|[(? & _)|
                         (_ & _ & Hsz & Hcap & Hwf1 & Hel)]])];
      [|done|done|].
    - split; [lia|]. done.
    - split; [lia|]. split; [done|]. split; [done|]. intros VS. by apply Hel. }
  split; [done|]. intros items r s2 Hfit Hpush.
  destruct (push_all_in_place items s1 r s2 Hwf1 ltac:(lia) Hpush)
    as (Hptr & Hcap' & _ & _ & Hnt & Hret).
  split; [done|]. split; [done|]. split; [done|].
  intros Hr. destruct (Hret Hr) as (Hsz' & _ & Hel').
  split; [lia|]. intros VS. by apply (Hel' VS), Hel1.
Qed.

End MoreTheorems.

(** ** Other containers are left alone *)

Section Independence.
Context {T : Type} `{Element T}.

Lemma keeps_outside_refl (s : state T) : keeps_outside s s.
Proof. by split. Qed.

Lemma keeps_outside_this (s s' : state T) v :
  keeps_outside s s' → keeps_outside s (State (mem s') v).
Proof. intros [Hc Hb]. by split. Qed.

Lemma touches_only_keeps P (s s' : state T) :
  touches_only P s s' →
  (∀ a, P a → ptr_ (this s) ≤ a < ptr_ (this s) + capacity_ (this s)) →
  keeps_outside s s'.
Proof.
  intros (_ & Hblk & _ & Hframe) HP. split.
  - intros a _ Ha. apply Hframe. intros HPa. by apply Ha, HP.
  - intros b _ _. by rewrite Hblk.
Qed.

(** A local buffer, filled from the old one and exchanged with it or
    abandoned, leaves alone what lies outside the old buffer. *)
Lemma scope_keeps_outside {A} n (body : ArrayPtr → M T (A * ArrayPtr))
    (s : state T) r s' :
  wf s → n ≠ 0 →
  (∀ p s1 rb sb, 0 < p → p + n < POINTER_MODULUS → this s1 = this s →
     body p s1 = (rb, sb) →
     touches_only (λ a, p ≤ a < p + n ∨
                        ptr_ (this s) ≤ a < ptr_ (this s) + capacity_ (this s))
       s1 (State (mem sb) (this s1)) ∧
     ∀ x arr', rb = Ret (x, arr') → arr' = ptr_ (this s)) →
  with_array n body s = (r, s') →
  keeps_outside s s'.
Proof.
  intros Hwf Hn Hbody. rewrite with_array_run.
  destruct (new_array n (mem s)) as [[p|e|] h1] eqn:Hnew; cycle 1.
  { apply new_array_Throw in Hnew as (_ & -> & _). intros [= _ <-].
    apply keeps_outside_this, keeps_outside_refl. }
  { by apply new_array_defined in Hnew. }
  apply new_array_Ret in Hnew as [(? & _)|(_ & _ & _ & Hp & Hpn & ->)]; [done|].
  assert (0 < p) as Hppos by (rewrite Hp; apply fresh_addr_pos).
  assert (∀ a, is_Some (cells (mem s) !! a) → a < p) as Hbelow.
  { intros a Ha. rewrite Hp. by apply fresh_addr_above. }
  set (s1 := State _ (this s)).
  destruct (body p s1) as [rb sb] eqn:Hrun.
  destruct (Hbody p s1 rb sb Hppos Hpn eq_refl Hrun)
    as ((_ & Hblk & _ & Hframe) & Harr).
  simpl in Hblk, Hframe.
  assert (∀ a, is_Some (cells (mem s) !! a) →
            ¬ (ptr_ (this s) ≤ a < ptr_ (this s) + capacity_ (this s)) →
            cells (mem sb) !! a = cells (mem s) !! a) as Hcells.
  { intros a Ha Hout. pose proof (Hbelow a Ha).
    rewrite Hframe by lia. rewrite fill_cells_lookup. case_decide; [lia|done]. }
  assert (∀ b, is_Some (cells (mem s) !! b) →
            blocks (mem sb) !! b = blocks (mem s) !! b) as Hblocks.
  { intros b Hb. pose proof (Hbelow b Hb).
    rewrite Hblk, lookup_insert_ne by lia. done. }
  destruct rb as [[x arr']|e|].
  - rewrite (Harr x arr' eq_refl).
    destruct (decide (capacity_ (this s) = 0)) as [Hz|Hnz].
    + rewrite (wf_null s Hwf Hz). simpl. intros [= _ <-]. split; simpl; auto.
    + pose proof (wf_size s Hwf) as Hsz.
      destruct (wf_block s Hwf ltac:(lia)) as [Hq Hb].
      pose proof (wf_cells s Hwf 0 ltac:(lia)) as Hfirst.
      rewrite Z.add_0_r in Hfirst.
      rewrite (delete_array_live _ _ (capacity_ (this s))); cycle 1.
      { by rewrite Hblocks. }
      { unfold nullptr. lia. }
      intros [= _ <-]. split; simpl.
      * intros a Ha Hout. rewrite drop_cells_lookup.
        case_decide; [lia|]. by apply Hcells.
      * intros b Hb' Hne. rewrite lookup_delete_ne by done. by apply Hblocks.
  - rewrite (delete_array_live _ p n); cycle 1.
    { rewrite Hblk. apply lookup_insert_eq. }
    { unfold nullptr. lia. }
    intros [= _ <-]. split; simpl.
    + intros a Ha Hout. pose proof (Hbelow a Ha).
      rewrite drop_cells_lookup. case_decide; [lia|]. by apply Hcells.
    + intros b Hb' Hne. pose proof (Hbelow b Hb').
      rewrite lookup_delete_ne by lia. by apply Hblocks.
  - intros [= _ <-]. split; [done|]. intros b Hb' _. by apply Hblocks.
Qed.

Lemma Insert_keeps_outside pos item (s : state T) :
  wf s → keeps_outside s (Insert pos item s).2.
Proof.
  intros Hwf.
  pose proof (wf_size s Hwf) as Hsz. pose proof (wf_capacity s Hwf) as Hcap.
  pose proof (wf_space s Hwf) as Hspace. pose proof (wf_ptr s Hwf) as Hq.
  pose proof PTRDIFF_MAX_lt as Hmax.
  destruct (decide (ptr_ (this s) ≤ pos ≤ ptr_ (this s) + size_ (this s)))
    as [Hin|Hout]; cycle 1.
  { rewrite Insert_out_of_range by lia. apply keeps_outside_refl. }
  destruct (decide (size_ (this s) = capacity_ (this s))) as [Hfull|Hroom].
  - rewrite Insert_in_range by lia. cbv zeta. rewrite Insert_tail.
    rewrite (proj2 (Z.eqb_eq _ _) Hfull), grown_wf by lia.
    match goal with |- context [with_array ?n ?b s] =>
      destruct (with_array n b s) as [rw sw] eqn:Hw end.
    assert (keeps_outside s sw) as Hk.
    { eapply (scope_keeps_outside _ _ s); [done| |..|exact Hw]; [lia|].
      intros p s1 rb sb Hp Hpn Hthis. cbv beta.
      rewrite !ptr_add_small by lia. intros Hb.
      pose proof (Insert_grow_body p (ptr_ (this s)) (pos - ptr_ (this s))
                    (size_ (this s)) _ item s1 _ sb ltac:(lia) ltac:(lia) Hb)
        as (Ht & _ & Hres).
      split.
      - eapply touches_only_weaken; [exact Ht|]. simpl. intros a. lia.
      - intros x arr' ->. destruct x. rewrite <- Hthis. apply Hres. }
    destruct rw as [a|e|]; simpl; [|done..].
    by apply keeps_outside_this.
  - destruct (Insert pos item s) as [r s'] eqn:Hrun.
    destruct (Insert_inplace pos item s r s' Hwf Hroom Hin Hrun) as (Ht & _).
    assert (keeps_outside s (State (mem s') (this s))) as Hk.
    { eapply touches_only_keeps; [exact Ht|]. simpl. intros a. lia. }
    destruct s' as [m' t']. exact (keeps_outside_this _ _ t' Hk).
Qed.

Lemma Reserve_keeps_outside n (s : state T) :
  wf s → keeps_outside s (Reserve n s).2.
Proof.
  intros Hwf.
  pose proof (wf_size s Hwf) as Hsz. pose proof (wf_space s Hwf) as Hspace.
  pose proof (wf_ptr s Hwf) as Hq.
  destruct (decide (n ≤ capacity_ (this s))) as [Hle|Hgt].
  { rewrite Reserve_enough by done. apply keeps_outside_refl. }
  rewrite Reserve_more by lia.
  match goal with |- context [with_array ?n ?b s] =>
    destruct (with_array n b s) as [rw sw] eqn:Hw end.
  simpl. eapply (scope_keeps_outside _ _ s); [done| |..|exact Hw]; [lia|].
  intros p s1 rb sb Hp Hpn Hthis. unfold bind at 1.
  destruct (DataOverwrite _ _ p s1) as [rA sA] eqn:HA.
  pose proof (DataOverwrite_touches (ptr_ (this s))
                (ptr_ (this s) + size_ (this s)) p s1 _ sA ltac:(lia) HA) as Ht.
  pose proof (touches_only_this _ _ _ Ht) as HsA.
  assert (touches_only
            (λ a, p ≤ a < p + n ∨
                  ptr_ (this s) ≤ a < ptr_ (this s) + capacity_ (this s))
            s1 (State (mem sA) (this s1))) as Ht'.
  { rewrite <- HsA. eapply touches_only_weaken; [exact Ht|].
    simpl. intros a. lia. }
  destruct rA as [[]|e|].
  - unfold bind, ptr_swap, get_this, set_ptr, set_capacity, ret. simpl.
    intros [= <- <-]. simpl. split; [done|].
    intros x arr' [= _ <-]. destruct Ht as (-> & _). by rewrite Hthis.
  - intros [= <- <-]. split; [done|]. by intros x arr'.
  - intros [= <- <-]. split; [done|]. by intros x arr'.
Qed.

Lemma Resize_keeps_outside n (s : state T) :
  wf s → 0 ≤ n → keeps_outside s (Resize n s).2.
Proof.
  intros Hwf Hn.
  pose proof (wf_size s Hwf) as Hsz. pose proof (wf_space s Hwf) as Hspace.
  pose proof (wf_ptr s Hwf) as Hq.
  destruct (decide (n ≤ capacity_ (this s))) as [Hle|Hgt].
  - unfold Resize. unfold bind at 1. unfold get_this at 1.
    rewrite (proj2 (Z.leb_le _ _) Hle). rewrite !ptr_add_small by lia.
    unfold bind.
    destruct (Z.ltb_spec (size_ (this s)) n) as [Hgrow|Hshrink].
    + destruct (std_generate _ _ s) as [rg sg] eqn:Hgen.
      apply std_generate_touches in Hgen; [|lia].
      assert (keeps_outside s sg) as Hk.
      { eapply touches_only_keeps; [exact Hgen|]. simpl. intros a. lia. }
      destruct rg as [[]|e|]; simpl; [|done..].
      by apply keeps_outside_this.
    + simpl. apply keeps_outside_this, keeps_outside_refl.
  - rewrite Resize_more by lia.
    match goal with |- context [with_array ?n ?b s] =>
      destruct (with_array n b s) as [rw sw] eqn:Hw end.
    simpl. eapply (scope_keeps_outside _ _ s); [done| |..|exact Hw]; [lia|].
    intros p s1 rb sb Hp Hpn Hthis. unfold bind at 1.
    destruct (DataOverwrite _ _ p s1) as [rA sA] eqn:HA.
    pose proof (DataOverwrite_touches (ptr_ (this s))
                  (ptr_ (this s) + size_ (this s)) p s1 _ sA ltac:(lia) HA)
      as HtA.
    pose proof (touches_only_this _ _ _ HtA) as HsA.
    assert (touches_only
              (λ a, p ≤ a < p + n ∨
                    ptr_ (this s) ≤ a < ptr_ (this s) + capacity_ (this s))
              s1 sA) as HtA'.
    { eapply touches_only_weaken; [exact HtA|]. simpl. intros a. lia. }
    destruct rA as [[]|e|]; cycle 1.
    { intros [= <- <-]. rewrite <- HsA. split; [done|]. by intros x arr'. }
    { intros [= <- <-]. rewrite <- HsA. split; [done|]. by intros x arr'. }
    unfold bind at 1. rewrite !ptr_add_small by lia.
    destruct (std_generate _ _ sA) as [rB sB] eqn:HB.
    pose proof (std_generate_touches (p + size_ (this s)) (p + n) sA _ sB
                  ltac:(lia) HB) as HtB.
    assert (touches_only
              (λ a, p ≤ a < p + n ∨
                    ptr_ (this s) ≤ a < ptr_ (this s) + capacity_ (this s))
              s1 sB) as HtB'.
    { eapply touches_only_trans; [exact HtA'|exact HtB|done|].
      simpl. intros a. lia. }
    pose proof (touches_only_this _ _ _ HtB') as HsB.
    destruct rB as [[]|e|].
    + unfold bind, ptr_swap, get_this, set_ptr, set_size, set_capacity, ret.
      simpl. intros [= <- <-]. simpl. split; [by rewrite <- HsB|].
      intros x arr' [= _ <-]. destruct HtB' as (-> & _). by rewrite Hthis.
    + intros [= <- <-]. rewrite <- HsB. split; [done|]. by intros x arr'.
    + intros [= <- <-]. rewrite <- HsB. split; [done|]. by intros x arr'.
Qed.

Lemma Erase_keeps_outside pos (s : state T) :
  wf s → 0 < capacity_ (this s) → keeps_outside s (Erase pos s).2.
Proof.
  intros Hwf Hbuf. destruct (Erase pos s) as [r s'] eqn:Hrun.
  pose proof (wf_size s Hwf) as Hsz.
  pose proof (Erase_spec pos s r s' Hwf Hbuf Hrun) as Hspec.
  cbv zeta in Hspec.
  destruct Hspec as [(_ & _ & ->)|(Hin & Ht & _)];
    [apply keeps_outside_refl|].
  assert (keeps_outside s (State (mem s') (this s))) as Hk.
  { eapply touches_only_keeps; [exact Ht|]. simpl. intros a. lia. }
  destruct s' as [m' t']. exact (keeps_outside_this _ _ t' Hk).
Qed.

Lemma PushBack_keeps_outside item (s : state T) :
  wf s → keeps_outside s (PushBack item s).2.
Proof.
  intros Hwf.
  pose proof (wf_size_small s Hwf). pose proof (wf_space s Hwf).
  pose proof (wf_size s Hwf). pose proof (wf_ptr s Hwf).
  rewrite PushBack_as_Insert by lia. unfold bind at 1.
  pose proof (Insert_keeps_outside
                (ptr_ (this s) + size_ (this s)) item s Hwf) as Hk.
  by destruct (Insert _ item s) as [[a|e|] s1].
Qed.

(** A container that shares no slot with the container of [s] is
    unaffected by what leaves the outside alone. *)
Lemma keeps_outside_unaffected (s s' : state T) other :
  wf s → wf (State (mem s) other) →
  (∀ i j, 0 ≤ i < capacity_ (this s) → 0 ≤ j < capacity_ other →
     ptr_ (this s) + i ≠ ptr_ other + j) →
  keeps_outside s s' → unaffected other s s'.
Proof.
  intros Hwf Hwfo Hdisj [Hcells Hblocks].
  pose proof (wf_size _ Hwfo) as Hszo. simpl in Hszo.
  assert (∀ j, 0 ≤ j < capacity_ other →
            ¬ (ptr_ (this s) ≤ ptr_ other + j <
               ptr_ (this s) + capacity_ (this s))) as Hsep.
  { intros j Hj Hr. apply (Hdisj (ptr_ other + j - ptr_ (this s)) j); lia. }
  split.
  - apply (wf_transfer (mem s)); [done|..].
    + intros Hc. apply Hblocks.
      * pose proof (wf_cells _ Hwfo 0 ltac:(simpl; lia)) as Hm.
        simpl in Hm. by rewrite Z.add_0_r in Hm.
      * intros Heq. destruct (decide (capacity_ (this s) = 0)) as [Hz|Hnz].
        -- pose proof (wf_null s Hwf Hz) as Hnull.
           destruct (wf_block _ Hwfo Hc) as [Hpos _]. simpl in Hpos.
           unfold nullptr in Hnull. lia.
        -- pose proof (wf_size s Hwf). apply (Hsep 0); lia.
    + intros i Hi. rewrite Hcells.
      * by apply (wf_cells _ Hwfo).
      * by apply (wf_cells _ Hwfo).
      * by apply Hsep.
  - apply elements_transfer. intros i Hi. apply Hcells.
    + apply (wf_cells _ Hwfo). simpl. lia.
    + apply Hsep. lia.
Qed.

(** X28. Independence of containers.  A well-formed container [other] that
    lives in the same memory and shares no slot with the container operated
    on is unaffected by [PushBack], [Insert], [PopBack], [Clear], [Resize]
    and [Reserve], however the call ends and also when it reallocates:
    [other] is still well formed and holds the same elements.  The same
    holds for [Erase] on a container that has a buffer.  In particular no
    mutation of a copy reaches the original. *)
Theorem independence (s : state T) other :
  wf s → wf (State (mem s) other) →
  (∀ i j, 0 ≤ i < GetCapacity (this s) → 0 ≤ j < GetCapacity other →
     vec_begin (this s) + i ≠ vec_begin other + j) →
  (∀ item, unaffected other s (PushBack item s).2) ∧
  (∀ pos item, unaffected other s (Insert pos item s).2) ∧
  unaffected other s (PopBack s).2 ∧
  unaffected other s (Clear s).2 ∧
  (∀ n, 0 ≤ n → unaffected other s (Resize n s).2) ∧
  (∀ n, unaffected other s (Reserve n s).2) ∧
  (0 < GetCapacity (this s) → ∀ pos, unaffected other s (Erase pos s).2).
Proof.
  unfold GetCapacity, vec_begin. intros Hwf Hwfo Hdisj.
  pose proof (keeps_outside_unaffected s) as Hun.
  split; [|split; [|split; [|split; [|split; [|split]]]]].
  - intros item. apply Hun; try done. by apply PushBack_keeps_outside.
  - intros pos item. apply Hun; try done. by apply Insert_keeps_outside.
  - apply Hun; try done. rewrite PopBack_run by (by apply wf_size_small).
    apply keeps_outside_this, keeps_outside_refl.
  - apply Hun; try done; apply keeps_outside_this, keeps_outside_refl.
  - intros n Hn. apply Hun; try done. by apply Resize_keeps_outside.
  - intros n. apply Hun; try done. by apply Reserve_keeps_outside.
  - intros Hbuf pos. apply Hun; try done. by apply Erase_keeps_outside.
Qed.

End Independence.

Section CopyAndCompare.
Context {T : Type} `{Element T} `{Comparable T}.

(** X29. A copy compares equal to its original, and a mutation of the copy
    does not reach the original.  For an element type whose [==] holds
    between a value and itself, right after copy construction the copy
    [==] the original; after a [PushBack] on the copy the two are [!=],
    and the original still holds its elements. *)
Theorem copy_then_mutate `{!ValueSemantics T} (s : state T) other l s' :
  wf (State (mem s) other) → elements (State (mem s) other) = Some l →
  (∀ x, elem_eqb x x = true) →
  SimpleVector_copy other s = (Ret (), s') →
  operator_eq other s' = (Ret true, s') ∧
  ∀ item s'', PushBack item s' = (Ret (), s'') →
    operator_ne other s'' = (Ret true, s'') ∧
    elements s'' = Some (l ++ [arg_value item]) ∧
    elements (State (mem s'') other) = Some l.
Proof.
  intros Hwf Hl Hrefl Hcopy.
  destruct (SimpleVector_copy_returns s other l s' Hwf Hl Hcopy)
    as (_ & _ & Hwf' & Hwfo & Hlo & Hdisj & Hel).
  specialize (Hel _). split.
  - destruct (operator_eq_run s' other l l Hwf' Hwfo Hel Hlo)
      as (b & Hrun & _ & Hb).
    assert (b = true) as ->; [|done].
    apply Hb, Forall_Forall2_diag, Forall_forall. auto.
  - intros item s'' Hpush.
    pose proof (PushBack_spec item s' _ s'' Hwf' Hpush) as Hspec.
    cbv zeta in Hspec.
    destruct Hspec as [(? & _)|[(? & _)|(_ & _ & _ & Hwf'' & Hel'')]];
      [done|done|].
    specialize (Hel'' _ l Hel).
    pose proof (PushBack_keeps_outside item s' Hwf') as Hk.
    rewrite Hpush in Hk. simpl in Hk.
    destruct (keeps_outside_unaffected s' s'' other Hwf' Hwfo Hdisj Hk)
      as [Hwfo'' Hlo''].
    rewrite Hlo in Hlo''.
    destruct (operator_eq_run s'' other _ l Hwf'' Hwfo'' Hel'' Hlo'')
      as (b & _ & Hne & Hb).
    assert (b = false) as ->; [|done].
    destruct b; [|done]. apply proj1 in Hb. specialize (Hb eq_refl).
    apply Forall2_length in Hb. rewrite length_app in Hb. simpl in Hb. lia.
Qed.

End CopyAndCompare.

(** * Worked examples *)

(** Checked access on [{10, 20, 30}]. *)
Lemma At_checked_witness :
  let s := state_of (T:=Z) [10; 20; 30] 1 in
  At 3 s = (Throw out_of_range, s) ∧
  ∃ x, [10; 20; 30] !! Z.to_nat 1 = Some x ∧
       At 1 s = (Ret (vec_begin (this s) + 1), s) ∧
       cells (mem s) !! (vec_begin (this s) + 1) = Some x.
Proof.
  intros s.
  assert (wf s) as Hwf by (apply wf_check_sound; vm_compute; reflexivity).
  assert (elements s = Some [10; 20; 30]) as Hl by (vm_compute; reflexivity).
  split.
  - apply (At_checked s 3 [10; 20; 30] Hwf Hl); [lia|].
    vm_compute. discriminate.
  - apply (At_checked s 1 [10; 20; 30] Hwf Hl); [lia|].
    vm_compute. reflexivity.
Defined.

(** [v[1] = 99] on [{10, 20, 30}]. *)
Lemma operator_index_assign_witness :
  let s := state_of (T:=Z) [10; 20; 30] 0 in
  let run := (a ← operator_index 1; assign_cell a (ByCopy 99)) s in
  operator_index 1 s = At 1 s ∧
  run.1 = Ret () ∧ elements run.2 = Some [10; 99; 30].
Proof.
  intros s run.
  assert (wf s) as Hwf by (apply wf_check_sound; vm_compute; reflexivity).
  assert (elements s = Some [10; 20; 30]) as Hl by (vm_compute; reflexivity).
  destruct (operator_index_assign s 1 99 [10; 20; 30] Hwf Hl) as (Hsame & Hrun).
  { vm_compute. split; [discriminate|reflexivity]. }
  split; [exact Hsame|]. split; [vm_compute; reflexivity|].
  destruct (Hrun run.1 run.2) as (_ & _ & _ & _ & Hel).
  { vm_compute. reflexivity. }
  apply Hel; [exact _|vm_compute; reflexivity].
Defined.

(** [PopBack] on [{1, 2, 3}]. *)
Lemma PopBack_drops_last_witness :
  let s := state_of (T:=Z) [1; 2; 3] 0 in
  ∃ s', PopBack s = (Ret (), s') ∧ elements s' = Some [1; 2] ∧
        GetCapacity (this s') = 3.
Proof.
  intros s.
  destruct (PopBack_drops_last s [1; 2; 3]) as (s' & Hrun & _ & _ & _ & Hcap & _ & Hel & _).
  - apply wf_check_sound. vm_compute. reflexivity.
  - vm_compute. reflexivity.
  - exists s'. split; [exact Hrun|]. split; [exact Hel|exact Hcap].
Defined.

(** [PushBack(3)] on [{1, 2}] with one spare slot. *)
Lemma PushBack_appends_witness :
  let s := state_of (T:=Z) [1; 2] 1 in
  let s' := (PushBack (ByCopy 3) s).2 in
  elements s' = Some [1; 2; 3] ∧ GetSize (this s') = 3 ∧
  vec_begin (this s') = vec_begin (this s).
Proof.
  intros s s'.
  destruct (PushBack_appends s (ByCopy 3) [1; 2] s')
    as (Hel & Hsz & _ & Hroom).
  - apply wf_check_sound. vm_compute. reflexivity.
  - vm_compute. reflexivity.
  - vm_compute. reflexivity.
  - split; [exact Hel|]. split; [exact Hsz|].
    apply Hroom. vm_compute. reflexivity.
Defined.

(** [PushBack(4)] and then [PopBack] on a full [{1, 2, 3}]: the elements
    are back, the capacity has grown from 3 to 6. *)
Lemma PushBack_then_PopBack_witness :
  let s := state_of (T:=Z) [1; 2; 3] 0 in
  ∃ s2, PopBack (PushBack (ByCopy 4) s).2 = (Ret (), s2) ∧
        elements s2 = Some [1; 2; 3] ∧ GetSize (this s2) = 3 ∧
        GetCapacity (this s2) = 6.
Proof.
  intros s.
  destruct (PushBack_then_PopBack s (ByCopy 4) [1; 2; 3]
              (PushBack (ByCopy 4) s).2)
    as (s2 & Hrun & Hel & Hsz & Hcap & _).
  - apply wf_check_sound. vm_compute. reflexivity.
  - vm_compute. reflexivity.
  - vm_compute. reflexivity.
  - exists s2. split; [exact Hrun|]. split; [exact Hel|].
    split; [exact Hsz|]. rewrite Hcap. vm_compute. reflexivity.
Defined.

(** [PushBack] and [Insert(end(), ...)] into a full container. *)
Lemma PushBack_is_Insert_at_end_witness :
  let s := state_of (T:=Z) [1; 2; 3] 0 in
  PushBack (ByCopy 4) s = (Insert (vec_end (this s)) (ByCopy 4);; ret ()) s.
Proof.
  intros s. apply PushBack_is_Insert_at_end.
  apply wf_check_sound. vm_compute. reflexivity.
Defined.

(** [Erase(end() - 1)] and [PopBack] on [{1, 2, 3}]. *)
Lemma Erase_last_is_PopBack_witness :
  let s := state_of (T:=Z) [1; 2; 3] 0 in
  ∃ s', PopBack s = (Ret (), s') ∧
        Erase (vec_end (this s) +ₚ -1) s = (Ret (vec_end (this s')), s').
Proof.
  intros s. apply Erase_last_is_PopBack.
  - apply wf_check_sound. vm_compute. reflexivity.
  - vm_compute. reflexivity.
Defined.

(** Two appends into two spare slots. *)
Lemma PushBack_within_capacity_witness :
  let s := state_of (T:=Z) [1; 2] 2 in
  let run := push_all [ByCopy 3; ByCopy 4] s in
  vec_begin (this run.2) = vec_begin (this s) ∧
  GetCapacity (this run.2) = 4 ∧
  elements run.2 = Some [1; 2; 3; 4].
Proof.
  intros s run.
  destruct (PushBack_within_capacity [ByCopy 3; ByCopy 4] s run.1 run.2)
    as (Hptr & Hcap & _ & _ & _ & Hret).
  - apply wf_check_sound. vm_compute. reflexivity.
  - vm_compute. discriminate.
  - vm_compute. reflexivity.
  - split; [exact Hptr|]. split; [exact Hcap|].
    destruct Hret as (_ & _ & Hel); [vm_compute; reflexivity|].
    apply (Hel _ [1; 2]). vm_compute. reflexivity.
Defined.

(** No operation on [{1, 2, 3}] runs into undefined behaviour. *)
Lemma no_undefined_behaviour_witness :
  let s := state_of (T:=Z) [1; 2; 3] 0 in
  (Insert 2 (ByCopy 9) s).1 ≠ Undefined ∧ (Erase 7 s).1 ≠ Undefined ∧
  (Resize 100 s).1 ≠ Undefined.
Proof.
  intros s.
  destruct (no_undefined_behaviour s)
    as (_ & Hinsert & _ & _ & Hresize & _ & _ & Herase).
  - apply wf_check_sound. vm_compute. reflexivity.
  - split; [apply Hinsert|]. split; [|apply Hresize; lia].
    apply Herase. vm_compute. reflexivity.
Defined.

(** A failed [PushBack] into a full container of a type whose move throws
    leaves a well-formed container. *)
Lemma invariant_kept_witness :
  let s := state_of [MkMT 1 false; MkMT 2 false] 0 in
  (PushBack (ByMove (MkMT 3 true)) s).1 = Throw element_error ∧
  wf (PushBack (ByMove (MkMT 3 true)) s).2.
Proof.
  intros s. split; [vm_compute; reflexivity|].
  apply (invariant_kept s).
  apply wf_check_sound. vm_compute. reflexivity.
Defined.

(** [Resize(6)] and [Resize(2)] on [{1, 2, 3}]. *)
Lemma Resize_contents_witness :
  let s := state_of (T:=Z) [1; 2; 3] 1 in
  elements (Resize 6 s).2 = Some [1; 2; 3; 0; 0; 0] ∧
  GetCapacity (this (Resize 6 s).2) = 6 ∧
  elements (Resize 2 s).2 = Some [1; 2] ∧
  GetCapacity (this (Resize 2 s).2) = 4.
Proof.
  intros s.
  assert (wf s) as Hwf by (apply wf_check_sound; vm_compute; reflexivity).
  assert (elements s = Some [1; 2; 3]) as Hl by (vm_compute; reflexivity).
  destruct (Resize_contents s 6 [1; 2; 3] Hwf Hl ltac:(lia)) as (H6 & _).
  destruct (Resize_contents s 2 [1; 2; 3] Hwf Hl ltac:(lia)) as (H2 & _).
  destruct (H6 (Resize 6 s).2) as (_ & Hc6 & _ & He6);
    [vm_compute; reflexivity|].
  destruct (H2 (Resize 2 s).2) as (_ & Hc2 & _ & He2);
    [vm_compute; reflexivity|].
  split; [apply He6; exact _|]. split; [exact Hc6|].
  split; [apply He2; exact _|exact Hc2].
Defined.

(** [Resize(2)] on a container of size 1 and capacity 2 whose spare slot
    refuses the assignment. *)
Lemma Resize_failure_witness :
  let s := (PopBack (state_of [MkLocked 1 false; MkLocked 2 true] 0)).2 in
  (Resize 2 s).1 = Throw element_error ∧
  this (Resize 2 s).2 = this s ∧
  elements (Resize 2 s).2 = Some [MkLocked 1 false].
Proof.
  intros s. split; [vm_compute; reflexivity|].
  destruct (Resize_failure s 2 [MkLocked 1 false] element_error (Resize 2 s).2)
    as (Hthis & _ & Hel).
  - apply wf_check_sound. vm_compute. reflexivity.
  - vm_compute. reflexivity.
  - lia.
  - vm_compute. reflexivity.
  - split; [exact Hthis|]. apply Hel. vm_compute. discriminate.
Defined.

(** [SimpleVector<int> v(3, 7)] in an empty memory. *)
Lemma filling_construction_witness :
  let s' := (SimpleVector_fill 3 7 (initial (T:=Z))).2 in
  GetSize (this s') = 3 ∧ GetCapacity (this s') = 3 ∧
  elements s' = Some [7; 7; 7].
Proof.
  intros s'.
  destruct (filling_construction (initial (T:=Z)) 3 7 ltac:(lia)) as (Hret & _).
  destruct (Hret s') as (Hsz & Hcap & _ & _ & Hel); [vm_compute; reflexivity|].
  split; [exact Hsz|]. split; [exact Hcap|]. apply Hel. exact _.
Defined.

(** A copy of [{1, 2, 3}] that has two spare slots: the copy has none. *)
Lemma copy_construction_witness :
  let s := state_of (T:=Z) [1; 2; 3] 2 in
  let s' := (SimpleVector_copy (this s) s).2 in
  GetSize (this s') = 3 ∧ GetCapacity (this s') = 3 ∧
  elements s' = Some [1; 2; 3] ∧
  elements (State (mem s') (this s)) = Some [1; 2; 3].
Proof.
  intros s s'.
  destruct (copy_construction s (this s) [1; 2; 3]) as (Hret & _).
  - apply wf_check_sound. vm_compute. reflexivity.
  - vm_compute. reflexivity.
  - destruct (Hret s') as (Hsz & Hcap & _ & _ & Hsrc & _ & Hel);
      [vm_compute; reflexivity|].
    split; [exact Hsz|]. split; [exact Hcap|]. split; [apply Hel; exact _|].
    exact Hsrc.
Defined.

(** Destroying [{1, 2}] releases its array of three slots, and a copy of
    it that is destroyed again leaves the memory as it was. *)
Lemma destruction_witness :
  let s := state_of (T:=Z) [1; 2] 1 in
  (∃ s', destructor s = (Ret (), s') ∧
         cells (mem s') !! 1 = None ∧ blocks (mem s') !! 1 = None) ∧
  (∃ s2, destructor (SimpleVector_copy (this s) s).2 = (Ret (), s2) ∧
         cells (mem s2) = cells (mem s)).
Proof.
  intros s.
  assert (wf s) as Hwf by (apply wf_check_sound; vm_compute; reflexivity).
  destruct (destruction s) as (Hrel & _ & Hcopy). split.
  - destruct (Hrel Hwf) as (s' & Hrun & _ & Hin & Hblk).
    exists s'. split; [exact Hrun|]. split.
    + apply Hin. vm_compute. split; [discriminate|reflexivity].
    + apply Hblk. vm_compute. reflexivity.
  - apply (Hcopy (this s)).
    + apply wf_check_sound. vm_compute. reflexivity.
    + vm_compute. reflexivity.
Defined.

(** [SimpleVector<int> v(Reserve(3))] and three appends. *)
Lemma reserving_construction_witness :
  let s' := (SimpleVector_reserved (Proxy.Reserve 3) (initial (T:=Z))).2 in
  let s'' := (push_all [ByCopy 1; ByCopy 2; ByCopy 3] s').2 in
  GetSize (this s') = 0 ∧ GetCapacity (this s') = 3 ∧
  vec_begin (this s'') = vec_begin (this s') ∧
  GetCapacity (this s'') = 3 ∧ elements s'' = Some [1; 2; 3].
Proof.
  intros s' s''.
  destruct (reserving_construction (initial (T:=Z)) 3 ltac:(lia) (Ret ()) s')
    as [(? & _)|(_ & Hsz & Hcap & _ & _ & Hpush)];
    [vm_compute; reflexivity|discriminate|].
  destruct (Hpush [ByCopy 1; ByCopy 2; ByCopy 3] (Ret ()) s'')
    as (Hptr & Hcap' & _ & Hret); [vm_compute; discriminate|
                                   vm_compute; reflexivity|].
  split; [exact Hsz|]. split; [exact Hcap|]. split; [exact Hptr|].
  split; [exact Hcap'|]. apply Hret; [reflexivity|exact _].
Defined.

(** Two containers [{7, 7}] and [{9, 9, 9}] exchange their buffers. *)
Lemma swap_exchanges_witness :
  let w := World (two_arrays [7; 7] [9; 9; 9])
             {[ 0%nat := first_vector [7; 7];
                1%nat := second_vector [7; 7] [9; 9; 9] ]} in
  ∃ w', swap 0%nat 1%nat w = (Ret (), w') ∧
        elements (State (heap_of w') (default default_vector (objects w' !! 0%nat)))
          = Some [9; 9; 9] ∧
        swap 0%nat 1%nat w' = (Ret (), w).
Proof.
  intros w.
  destruct (swap_exchanges w 0%nat 1%nat (first_vector [7; 7])
              (second_vector [7; 7] [9; 9; 9]))
    as (w' & Hrun & _ & Hheap & Ha & _ & _ & Hback).
  - reflexivity.
  - reflexivity.
  - exists w'. split; [exact Hrun|]. split; [|exact Hback].
    rewrite Ha, Hheap. vm_compute. reflexivity.
Defined.

(** Move construction from [{7, 7}]. *)
Lemma move_construction_witness :
  let w := World (two_arrays [7; 7] [9; 9; 9])
             {[ 0%nat := first_vector [7; 7] ]} in
  ∃ w', construct_move 1%nat 0%nat w = (Ret (), w') ∧
        objects w' !! 1%nat = Some (first_vector [7; 7]) ∧
        objects w' !! 0%nat = Some default_vector.
Proof.
  intros w.
  destruct (move_construction w 1%nat 0%nat (first_vector [7; 7]))
    as (w' & Hrun & _ & Hself & Hother & _).
  - discriminate.
  - reflexivity.
  - exists w'. split; [exact Hrun|]. split; [exact Hself|exact Hother].
Defined.

(** [a = std::move(b)] with [a = {7, 7}] and [b = {9, 9, 9}]. *)
Lemma move_assignment_witness :
  let w := World (two_arrays [7; 7] [9; 9; 9])
             {[ 0%nat := first_vector [7; 7];
                1%nat := second_vector [7; 7] [9; 9; 9] ]} in
  ∃ w', assign_move 0%nat 1%nat w = (Ret (), w') ∧
        objects w' !! 0%nat = Some (second_vector [7; 7] [9; 9; 9]) ∧
        objects w' !! 1%nat = Some default_vector ∧
        elements (State (heap_of w') (second_vector [7; 7] [9; 9; 9])) =
          Some [9; 9; 9] ∧
        blocks (heap_of w') !! 1 = None.
Proof.
  intros w.
  destruct (move_assignment w 0%nat 1%nat (first_vector [7; 7])
              (second_vector [7; 7] [9; 9; 9]))
    as (w' & Hrun & Hself & Hrhs & _ & Hel & Hgone & _).
  - discriminate.
  - reflexivity.
  - reflexivity.
  - apply wf_check_sound. vm_compute. reflexivity.
  - apply wf_check_sound. vm_compute. reflexivity.
  - intros i j Hi Hj. simpl in *. lia.
  - exists w'. split; [exact Hrun|]. split; [exact Hself|].
    split; [exact Hrhs|]. split.
    + rewrite Hel. vm_compute. reflexivity.
    + apply Hgone. vm_compute. reflexivity.
Defined.

(** [a = b] with [a = {7, 7}] and [b = {9, 9, 9}]. *)
Lemma copy_assignment_witness :
  let w := World (two_arrays [7; 7] [9; 9; 9])
             {[ 0%nat := first_vector [7; 7];
                1%nat := second_vector [7; 7] [9; 9; 9] ]} in
  let w' := (assign_copy 0%nat 1%nat w).2 in
  ∃ v, objects w' !! 0%nat = Some v ∧
       objects w' !! 1%nat = Some (second_vector [7; 7] [9; 9; 9]) ∧
       elements (State (heap_of w') v) = Some [9; 9; 9] ∧
       elements (State (heap_of w') (second_vector [7; 7] [9; 9; 9])) =
         Some [9; 9; 9] ∧
       blocks (heap_of w') !! 1 = None.
Proof.
  intros w w'.
  destruct (copy_assignment w 0%nat 1%nat (first_vector [7; 7])
              (second_vector [7; 7] [9; 9; 9]) [9; 9; 9])
    as (_ & Hother).
  - reflexivity.
  - reflexivity.
  - apply wf_check_sound. vm_compute. reflexivity.
  - apply wf_check_sound. vm_compute. reflexivity.
  - vm_compute. reflexivity.
  - intros _ i j Hi Hj. simpl in *. lia.
  - destruct (Hother ltac:(discriminate) (Ret ()) w') as (_ & _ & Hret);
      [vm_compute; reflexivity|].
    destruct (Hret eq_refl)
      as (v & Hself & Hrhs & _ & _ & _ & _ & Hsrc & Hel & Hgone).
    exists v. split; [exact Hself|]. split; [exact Hrhs|].
    split; [apply Hel; exact _|]. split; [exact Hsrc|].
    apply Hgone. vm_compute. reflexivity.
Defined.

(** [{1, 2} == {1, 2, 3}] is false. *)
Lemma equality_comparison_witness :
  let s := State (two_arrays [1; 2] [1; 2; 3]) (first_vector [1; 2]) in
  let rhs := second_vector [1; 2] [1; 2; 3] in
  operator_eq rhs s = (Ret false, s) ∧ operator_ne rhs s = (Ret true, s).
Proof.
  intros s rhs.
  destruct (equality_comparison s rhs [1; 2] [1; 2; 3])
    as (b & Heq & Hne & Hb & _).
  - apply wf_check_sound. vm_compute. reflexivity.
  - apply wf_check_sound. vm_compute. reflexivity.
  - vm_compute. reflexivity.
  - vm_compute. reflexivity.
  - destruct b.
    + apply proj1 in Hb. specialize (Hb eq_refl).
      apply Forall2_length in Hb. discriminate.
    + split; [exact Heq|exact Hne].
Defined.

(** [{1, 2, 3} <=> {1, 2, 3, 1}] is less: the shorter one is a prefix. *)
Lemma three_way_comparison_witness :
  let s := State (two_arrays [1; 2; 3] [1; 2; 3; 1]) (first_vector [1; 2; 3]) in
  let rhs := second_vector [1; 2; 3] [1; 2; 3; 1] in
  operator_cmp rhs s = (Ret Less, s).
Proof.
  intros s rhs.
  apply (three_way_comparison s rhs [1; 2; 3] [1; 2; 3] [] [1]).
  - apply wf_check_sound. vm_compute. reflexivity.
  - apply wf_check_sound. vm_compute. reflexivity.
  - vm_compute. reflexivity.
  - vm_compute. reflexivity.
  - repeat constructor.
  - reflexivity.
  - discriminate.
Defined.

(** [SimpleVector<int> v{4, 5, 6}], the list lying at address 1. *)
Lemma list_construction_witness :
  let s := state_of (T:=Z) [4; 5; 6] 0 in
  let s' := (SimpleVector_list 1 3 s).2 in
  GetSize (this s') = 3 ∧ GetCapacity (this s') = 3 ∧
  elements s' = Some [4; 5; 6].
Proof.
  intros s s'.
  destruct (list_construction s 1 [4; 5; 6]) as (Hret & _).
  - lia.
  - vm_compute. reflexivity.
  - vm_compute. reflexivity.
  - destruct (Hret s') as (Hsz & Hcap & _ & Hel & _);
      [vm_compute; reflexivity|].
    split; [exact Hsz|]. split; [exact Hcap|]. apply Hel. exact _.
Defined.

(** [Erase(begin() + 1)] on [{1, 2, 3, 4}], and [Erase(end())]. *)
Lemma Erase_removes_witness :
  let s := state_of (T:=Z) [1; 2; 3; 4] 0 in
  elements (Erase 2 s).2 = Some [1; 3; 4] ∧
  GetSize (this (Erase 2 s).2) = 3 ∧
  Erase 5 s = (Throw out_of_range, s).
Proof.
  intros s.
  destruct (Erase_removes s 2 [1; 2; 3; 4]) as (_ & Hin).
  - apply wf_check_sound. vm_compute. reflexivity.
  - vm_compute. reflexivity.
  - vm_compute. reflexivity.
  - destruct Hin as (Hret & _).
    { vm_compute. split; [discriminate|reflexivity]. }
    destruct (Hret (Erase 2 s).2 2) as (_ & Hsz & _ & _ & Hel);
      [vm_compute; reflexivity|].
    split; [apply Hel; exact _|]. split; [exact Hsz|].
    apply (Erase_removes s 5 [1; 2; 3; 4]).
    + apply wf_check_sound. vm_compute. reflexivity.
    + vm_compute. reflexivity.
    + vm_compute. reflexivity.
    + right. vm_compute. discriminate.
Defined.

(** [begin()] and [end()] of [{1, 2, 3}] with one spare slot. *)
Lemma iteration_witness :
  let s := state_of (T:=Z) [1; 2; 3] 1 in
  vec_end (this s) = vec_begin (this s) + 3 ∧
  cells (mem s) !! (vec_begin (this s) + 2) = Some 3 ∧
  IsEmpty (this s) = false.
Proof.
  intros s.
  destruct (iteration s [1; 2; 3]) as (Hend & _ & Hat & _ & _ & _ & Hempty).
  - apply wf_check_sound. vm_compute. reflexivity.
  - vm_compute. reflexivity.
  - split; [exact Hend|]. split; [apply (Hat 2%nat); simpl; lia|].
    destruct (IsEmpty (this s)); [|reflexivity].
    apply proj1 in Hempty. by specialize (Hempty eq_refl).
Defined.

(** [Clear] on [{1, 2, 3}] and three appends into the buffer it kept. *)
Lemma Clear_keeps_capacity_witness :
  let s := state_of (T:=Z) [1; 2; 3] 0 in
  ∃ s', Clear s = (Ret (), s') ∧ GetSize (this s') = 0 ∧
        GetCapacity (this s') = 3 ∧
        vec_begin (this (push_all [ByCopy 7; ByCopy 8; ByCopy 9] s').2) =
          vec_begin (this s) ∧
        elements (push_all [ByCopy 7; ByCopy 8; ByCopy 9] s').2 =
          Some [7; 8; 9].
Proof.
  intros s.
  destruct (Clear_keeps_capacity s)
    as (s' & Hrun & Hsz & _ & _ & _ & _ & Hcap & Hpush).
  - apply wf_check_sound. vm_compute. reflexivity.
  - exists s'. split; [exact Hrun|]. split; [exact Hsz|]. split; [exact Hcap|].
    injection Hrun as <-.
    destruct (Hpush [ByCopy 7; ByCopy 8; ByCopy 9] (Ret ())
                (push_all [ByCopy 7; ByCopy 8; ByCopy 9] (Clear s).2).2)
      as (Hptr & _ & Hel).
    + vm_compute. discriminate.
    + vm_compute. reflexivity.
    + split; [exact Hptr|]. apply Hel; [reflexivity|exact _].
Defined.

(** The example of the tests: an empty container, [Reserve(5)], five
    appends; the capacity is still 5. *)
Lemma Reserve_then_PushBack_witness :
  let s1 := (Reserve 5 (initial (T:=Z))).2 in
  let items := [ByCopy 1; ByCopy 2; ByCopy 3; ByCopy 4; ByCopy 5] in
  let s2 := (push_all items s1).2 in
  GetCapacity (this s1) = 5 ∧ GetCapacity (this s2) = 5 ∧
  GetSize (this s2) = 5 ∧ elements s2 = Some [1; 2; 3; 4; 5].
Proof.
  intros s1 items s2.
  destruct (Reserve_then_PushBack (initial (T:=Z)) 5 [] s1) as (Hcap & Hpush).
  - apply wf_initial.
  - vm_compute. reflexivity.
  - vm_compute. reflexivity.
  - destruct (Hpush items (Ret ()) s2) as (_ & Hcap2 & _ & Hret).
    + vm_compute. discriminate.
    + vm_compute. reflexivity.
    + destruct (Hret eq_refl) as (Hsz & Hel).
      split; [exact Hcap|]. split; [rewrite Hcap2; exact Hcap|].
      split; [exact Hsz|]. apply Hel. exact _.
Defined.

(** A [PushBack] that reallocates [{7, 7}] leaves [{9, 9, 9}] behind it
    alone. *)
Lemma independence_witness :
  let s := State (two_arrays [7; 7] [9; 9; 9]) (first_vector [7; 7]) in
  let other := second_vector [7; 7] [9; 9; 9] in
  let s' := (PushBack (ByCopy 8) s).2 in
  elements s' = Some [7; 7; 8] ∧ GetCapacity (this s') = 4 ∧
  wf (State (mem s') other) ∧
  elements (State (mem s') other) = Some [9; 9; 9].
Proof.
  intros s other s'.
  destruct (independence s other) as (Hpush & _).
  - apply wf_check_sound. vm_compute. reflexivity.
  - apply wf_check_sound. vm_compute. reflexivity.
  - unfold GetCapacity, vec_begin. simpl. lia.
  - destruct (Hpush (ByCopy 8)) as [Hwf Hel].
    split; [vm_compute; reflexivity|]. split; [vm_compute; reflexivity|].
    split; [exact Hwf|]. etransitivity; [exact Hel|].
    vm_compute. reflexivity.
Defined.

(** The test of the copy: [b = a], [b.PushBack(4)], [a != b]. *)
Lemma copy_then_mutate_witness :
  let s := state_of (T:=Z) [1; 2; 3] 0 in
  let s' := (SimpleVector_copy (this s) s).2 in
  let s'' := (PushBack (ByCopy 4) s').2 in
  operator_eq (this s) s' = (Ret true, s') ∧
  operator_ne (this s) s'' = (Ret true, s'') ∧
  elements s'' = Some [1; 2; 3; 4] ∧
  elements (State (mem s'') (this s)) = Some [1; 2; 3].
Proof.
  intros s s' s''.
  destruct (copy_then_mutate s (this s) [1; 2; 3] s') as (Heq & Hmut).
  - apply wf_check_sound. vm_compute. reflexivity.
  - vm_compute. reflexivity.
  - intros x. apply Z.eqb_refl.
  - vm_compute. reflexivity.
  - split; [exact Heq|]. apply (Hmut (ByCopy 4) s''). vm_compute. reflexivity.
Defined.
